(** * Classy Portfolio: aggregation tree, allocations and rowspan flattening

    A shallow embedding of [fava_classy_portfolio/__init__.py].

    - A Python [Decimal] is modelled by the rational [Q] it denotes;
      Python's [==] on decimals is numeric equality, i.e. [Qeq].  The
      arithmetic is that of the default decimal context: the result of
      [+], [-], [*] and [/] is rounded to 28 significant digits, ties to
      even, and [round(x, 2)] raises [InvalidOperation] when its result
      needs more than 28 digits.  The exponent limits of the context
      (numbers beyond [10 ^ 999999]) are not modelled.
    - The dictionaries with a fixed set of string keys that make up the
      portfolio tree are records; the dictionaries keyed by class,
      subclass and account name are association lists in insertion order.
    - [insert_rowspans] mutates the dictionaries it is given, so it is
      modelled over an explicit store of dictionary objects. *)

From Stdlib Require Import QArith ZArith Ascii String List Lia Lqa Qround Qabs Qpower.
From stdpp Require Import base list strings gmap.
Import ListNotations.

Local Open Scope Z_scope.
Local Open Scope Q_scope.
Local Open Scope list_scope.

(** ** Python dictionaries with string keys *)

Module Dict.

Definition t (A : Type) := list (string * A).

Fixpoint get {A} (k : string) (d : t A) : option A :=
  match d with
  | [] => None
  | (k', v) :: d' => if String.eqb k k' then Some v else get k d'
  end.

Definition mem {A} (k : string) (d : t A) : bool :=
  match get k d with Some _ => true | None => false end.

(** [d[k] = v]: an existing key keeps its position, a new key is
    appended. *)
Fixpoint set {A} (k : string) (v : A) (d : t A) : t A :=
  match d with
  | [] => [(k, v)]
  | (k', v') :: d' =>
      if String.eqb k k' then (k', v) :: d' else (k', v') :: set k v d'
  end.

(** [d[k] = f(d[k])] for a key that is present. *)
Fixpoint alter {A} (f : A -> A) (k : string) (d : t A) : t A :=
  match d with
  | [] => []
  | (k', v') :: d' =>
      if String.eqb k k' then (k', f v') :: d' else (k', v') :: alter f k d'
  end.

Definition keys {A} (d : t A) : list string := map fst d.
Definition values {A} (d : t A) : list A := map snd d.

End Dict.

(** ** Exceptions and the error monad *)

Inductive exn : Set :=
| IndexError | KeyError | TypeError | AttributeError | RuntimeError
| DivisionByZero | InvalidOperation | FavaAPIError | ReError
(** a reference to no object: impossible in Python, and never raised on a
    store in which every reference is allocated *)
| SystemError.

Definition result (A : Type) : Type := (exn + A)%type.

Abbreviation raise e := (inl e) (only parsing).
Abbreviation ok a := (inr a) (only parsing).

Definition rbind {A B} (m : result A) (k : A -> result B) : result B :=
  match m with
  | inl e => inl e
  | inr a => k a
  end.

Notation "x <-? m ; k" := (rbind m (fun x => k))
  (at level 20, m at level 100, k at level 200, only parsing).
Notation "' p <-? m ; k" := (rbind m (fun x => let 'p := x in k))
  (at level 20, p pattern, m at level 100, k at level 200, only parsing).

(** ** Decimals *)

Definition Decimal := Q.
Definition ZERO : Decimal := 0.

(** Truth value of a decimal: non-zero. *)
Definition truthy (d : Decimal) : bool := negb (Qeq_bool d ZERO).

(** Nearest integer, ties to even (the default rounding of the decimal
    context). *)
Definition round_half_even (q : Q) : Z :=
  let f := Qfloor q in
  match Qcompare (q - inject_Z f) (1 # 2) with
  | Lt => f
  | Gt => (f + 1)%Z
  | Eq => if Z.even f then f else (f + 1)%Z
  end.

(** [getcontext().prec] *)
Definition prec : Z := 28.

(** The number of decimal digits of a positive integer. *)
Fixpoint digits_from (fuel : nat) (n : Z) : Z :=
  match fuel with
  | O => 0
  | S fuel' => if (n <? 10)%Z then 1 else (1 + digits_from fuel' (n / 10))%Z
  end.

Definition digits (n : Z) : Z := digits_from (S (Z.to_nat (Z.log2 n))) n.

(** [Decimal.adjusted()]: the exponent of the leading digit of a non-zero
    number, [floor (log10 |q|)]. *)
Definition adjusted (q : Q) : Z :=
  let k := (digits (Z.abs (Qnum q)) - digits (Zpos (Qden q)))%Z in
  if Qle_bool (10 ^ k) (Qabs q) then k else (k - 1)%Z.

(** What the context does to the exact result of an operation: the nearest
    number with at most [prec] significant digits, ties to even. *)
Definition round_prec (q : Q) : Decimal :=
  if Qeq_bool q 0 then 0
  else
    let e := (adjusted q - (prec - 1))%Z in
    Qred (inject_Z (round_half_even (q / 10 ^ e)) * 10 ^ e).

(** [a + b], [a - b] and [a * b] on decimals. *)
Definition dec_add (a b : Decimal) : Decimal := round_prec (a + b).
Definition dec_sub (a b : Decimal) : Decimal := round_prec (a - b).
Definition dec_mul (a b : Decimal) : Decimal := round_prec (a * b).

(** [a / b] on decimals: both kinds of division by zero are trapped. *)
Definition dec_div (a b : Decimal) : result Decimal :=
  if Qeq_bool b ZERO then
    (if Qeq_bool a ZERO then raise InvalidOperation else raise DivisionByZero)
  else ok (round_prec (a / b)).

(** [round(q, 2)], that is [q.quantize(Decimal("0.01"))]: the multiple of
    [0.01] nearest to [q], ties to even; an [InvalidOperation] when its
    coefficient has more than [prec] digits. *)
Definition round2 (q : Decimal) : result Decimal :=
  let coefficient := round_half_even (q * 100) in
  if (Z.abs coefficient <? 10 ^ prec)%Z then ok (Qmake coefficient 100)
  else raise InvalidOperation.

(** ** Ledger data the extension reads *)

(** A beancount cost: (number, currency, date, label). *)
Record Cost := mkCost {
  cost_number : Decimal;
  cost_currency : string;
  cost_date : Z;
  cost_label : option string
}.

(** Keys of a balance: (currency, cost-or-None). *)
Definition inventory_key : Type := string * option Cost.

Record TreeNode := mkNode {
  name : string;
  balance : list (inventory_key * Decimal)
}.

Record Amount := mkAmount {
  number : Decimal;
  currency : string
}.

(** A value of the metadata of an entry: a string, or something else (a
    number, a date, a boolean, an amount, [None]). *)
Inductive meta_value : Type :=
| MStr (s : string)
| MOther.

(** What the surrounding ledger and the libraries provide.  The functions
    are the library calls the source makes; [date]s are day numbers.  The
    metadata of the commodity directives are taken to be strings. *)
Record Ledger := mkLedger {
  (** [self.ledger.options["operating_currency"]] *)
  options_operating_currency : list string;
  (** [self.ledger.all_entries_by_type.Commodity]: currency and meta *)
  all_entries_Commodity : list (string * Dict.t string);
  (** [node.balance.reduce(convert.get_cost)] *)
  reduce_get_cost : TreeNode -> Dict.t Decimal;
  (** [convert.convert_amount(amt, currency, price_map, date)] *)
  convert_amount : Amount -> string -> option Z -> Amount;
  (** [node.balance.reduce(convert.convert_position, currency,
       price_map, today)] *)
  reduce_convert_position : TreeNode -> string -> Dict.t Decimal;
  (** [prices.get_latest_price(price_map, (base, quote))] *)
  get_latest_price : string * string -> option Z * option Decimal;
  (** the account tree of the request: [filt_ledger.root_tree], or
      [Tree(iter_entry_dates(filt_ledger.entries, begin, end))] when
      [begin] is given *)
  account_tree : option Z -> option Z -> Dict.t TreeNode;
  (** [self.ledger.all_entries_by_type.Open]: account and meta *)
  all_entries_Open : list (string * Dict.t meta_value);
  (** [re.compile(pattern)], which may fail, and then
      [regexer.match(s) is not None] *)
  re_compile : string -> option (string -> bool);
  (** [str.capitalize] *)
  capitalize : string -> string
}.

(** ** [node_commodity] *)

Definition mixed_commodities : string := "mixed_commodities"%string.

Fixpoint node_commodity_loop (ref_currency : string) (currencies : list string)
  : string :=
  match currencies with
  | [] => ref_currency
  | currency :: rest =>
      if negb (String.eqb currency ref_currency) then mixed_commodities
      else node_commodity_loop ref_currency rest
  end.

Definition node_commodity (node : TreeNode) : string :=
  match map (fun kv => fst (fst kv)) (balance node) with
  | [] => EmptyString
  | (ref_currency :: _) as currencies =>
      node_commodity_loop ref_currency currencies
  end.

(** ** The portfolio tree

    [portfolio_tree["asset_classes"][c]["asset_subclasses"][s]["accounts"][a]]
    with the keys of each level as record fields. *)

Record account_data := mkAccount {
  balance_market_value : Decimal;
  (** [None] is Python's [None] in the next three fields *)
  income_gain_loss : option Decimal;
  gain_loss_percentage : option Decimal;
  latest_price_date : option Z;
  (** the next three keys are added by the allocation pass; [None]: the key
      is not in the dictionary yet *)
  acc_portfolio_allocation : option Decimal;
  acc_asset_class_allocation : option Decimal;
  acc_asset_subclass_allocation : option Decimal
}.

Record subclass_dict := mkSubclass {
  asset_subclass_total : Decimal;
  sub_portfolio_allocation : Decimal;
  asset_subclass_asset_class_allocation : Decimal;
  accounts : Dict.t account_data;
  (** key ["asset_class_allocation"], added by the allocation pass *)
  sub_asset_class_allocation : option Decimal
}.

Record class_dict := mkClass {
  cls_portfolio_allocation : Decimal;
  asset_class_total : Decimal;
  asset_subclasses : Dict.t subclass_dict
}.

Record portfolio_tree := mkTree {
  portfolio_total : Decimal;
  asset_classes : Dict.t class_dict
}.

Definition set_accounts (f : Dict.t account_data -> Dict.t account_data)
  (s : subclass_dict) : subclass_dict :=
  mkSubclass (asset_subclass_total s) (sub_portfolio_allocation s)
    (asset_subclass_asset_class_allocation s) (f (accounts s))
    (sub_asset_class_allocation s).

Definition add_subclass_total (v : Decimal) (s : subclass_dict) : subclass_dict :=
  mkSubclass (dec_add (asset_subclass_total s) v) (sub_portfolio_allocation s)
    (asset_subclass_asset_class_allocation s) (accounts s)
    (sub_asset_class_allocation s).

Definition set_subclasses (f : Dict.t subclass_dict -> Dict.t subclass_dict)
  (c : class_dict) : class_dict :=
  mkClass (cls_portfolio_allocation c) (asset_class_total c)
    (f (asset_subclasses c)).

Definition add_class_total (v : Decimal) (c : class_dict) : class_dict :=
  mkClass (cls_portfolio_allocation c) (dec_add (asset_class_total c) v)
    (asset_subclasses c).

Definition set_classes (f : Dict.t class_dict -> Dict.t class_dict)
  (t : portfolio_tree) : portfolio_tree :=
  mkTree (portfolio_total t) (f (asset_classes t)).

Definition add_portfolio_total (v : Decimal) (t : portfolio_tree) : portfolio_tree :=
  mkTree (dec_add (portfolio_total t) v) (asset_classes t).

(** [portfolio_tree["asset_classes"][c]... = ...]: in-place update below a
    class, and below a subclass of a class. *)
Definition on_class (c : string) (f : class_dict -> class_dict)
  : portfolio_tree -> portfolio_tree :=
  set_classes (Dict.alter f c).

Definition on_subclass (c s : string) (f : subclass_dict -> subclass_dict)
  : portfolio_tree -> portfolio_tree :=
  on_class c (set_subclasses (Dict.alter f s)).

Definition subclasses_of (c : string) (t : portfolio_tree) : Dict.t subclass_dict :=
  match Dict.get c (asset_classes t) with
  | Some cd => asset_subclasses cd
  | None => []
  end.

Definition new_class : class_dict := mkClass ZERO ZERO [].
Definition new_subclass : subclass_dict := mkSubclass ZERO ZERO ZERO [] None.

(** ** The methods of [FavaClassyPortfolio] that value an account *)

(** [load_report]: the commodity directives by currency (a later directive
    for the same currency replaces an earlier one). *)
Definition load_report (L : Ledger) : Dict.t (Dict.t string) :=
  fold_left (fun d entry => Dict.set (fst entry) (snd entry) d)
    (all_entries_Commodity L) [].

Definition _convert_cost (L : Ledger) (operating_currency : string)
  (node : TreeNode) (date : option Z) : result Amount :=
  match reduce_get_cost L node with
  | [] => raise IndexError
  | (cur, num) :: _ =>
      ok (convert_amount L (mkAmount num cur) operating_currency date)
  end.

Definition _asset_info (L : Ledger) (operating_currency : string)
  (node : TreeNode) (date : option Z) : result (Decimal * Decimal * Decimal) :=
  account_cost_conv <-? _convert_cost L operating_currency node date ;
  let account_cost := number account_cost_conv in
  let account_balance_market_value_node :=
    reduce_convert_position L node operating_currency in
  let account_balance_market_value :=
    match Dict.get operating_currency account_balance_market_value_node with
    | Some v => v
    | None => ZERO
    end in
  let account_income_gain_loss_unrealized :=
    dec_sub account_cost account_balance_market_value in
  q <-? dec_div (dec_mul account_income_gain_loss_unrealized (-1 # 1))
          account_cost ;
  ok (account_balance_market_value,
      account_income_gain_loss_unrealized,
      dec_mul q (100 # 1)).

Definition _account_latest_price (L : Ledger) (node : TreeNode)
  : result (option (option Z * option Decimal)) :=
  match map fst (balance node) with
  | [] => raise IndexError
  | quote_price :: _ =>
      match snd quote_price with
      | None => ok None
      | Some cost =>
          let base := fst quote_price in
          let currency := cost_currency cost in
          ok (Some (get_latest_price L (currency, base)))
      end
  end.

(** [latest_price is None or latest_price[0] is None] *)
Definition no_latest_price (latest_price : option (option Z * option Decimal))
  : bool :=
  match latest_price with
  | None => true
  | Some (None, _) => true
  | Some (Some _, _) => false
  end.

(** ** [_portfolio_data] *)

Definition coltype : Type := string * string.

Definition str_Decimal : string := "<class 'decimal.Decimal'>".
Definition str_dict : string := "<class 'dict'>".
Definition str_AccountsDict : string :=
  "<class 'fava_classy_portfolio.AccountsDict'>".
Definition str_DecimalPercent : string :=
  "<class 'fava_classy_portfolio.DecimalPercent'>".
Definition str_DecimalIncomeGainLoss : string :=
  "<class 'fava_classy_portfolio.DecimalIncomeGainLoss'>".
Definition str_DecimalPercentGainLoss : string :=
  "<class 'fava_classy_portfolio.DecimalPercentGainLoss'>".
Definition str_date : string := "<class 'datetime.date'>".

Definition types : list coltype :=
  [ ("portfolio_total", str_Decimal);
    ("asset_classes", str_dict);
    ("portfolio_allocation", str_DecimalPercent);
    ("asset_class_total", str_Decimal);
    ("asset_subclasses", str_dict);
    ("asset_class_allocation", str_DecimalPercent);
    ("asset_subclass_total", str_Decimal);
    ("accounts", str_AccountsDict);
    ("asset_subclass_allocation", str_DecimalPercent);
    ("balance_market_value", str_Decimal);
    ("income_gain_loss", str_DecimalIncomeGainLoss);
    ("gain_loss_percentage", str_DecimalPercentGainLoss);
    ("latest_price_date", str_date) ]%string.

(** The metadata tag of a commodity, or the given sentinel. *)
Definition meta_or (commodity_dict : Dict.t (Dict.t string))
  (commodity key sentinel : string) : string :=
  match Dict.get commodity commodity_dict with
  | Some meta =>
      match Dict.get key meta with
      | Some tag => tag
      | None => sentinel
      end
  | None => sentinel
  end.

Definition not_in_operating_currency (account_name operating_currency : string)
  : string :=
  ("account " ++ account_name ++ " has balances not in operating currency "
     ++ operating_currency)%string.

(** Lines 254-279: the class and the subclass are created on first use. *)
Definition ensure_class (asset_class : string) (t : portfolio_tree)
  : portfolio_tree :=
  if negb (Dict.mem asset_class (asset_classes t))
  then set_classes (Dict.set asset_class new_class) t
  else t.

Definition ensure_subclass (asset_class asset_subclass : string)
  (t : portfolio_tree) : portfolio_tree :=
  if negb (Dict.mem asset_subclass (subclasses_of asset_class t))
  then on_class asset_class
         (set_subclasses (Dict.set asset_subclass new_subclass)) t
  else t.

(** [portfolio_tree[...]["accounts"][account_name] = account_data] *)
Definition insert_account (asset_class asset_subclass account_name : string)
  (account_data : account_data) : portfolio_tree -> portfolio_tree :=
  on_subclass asset_class asset_subclass
    (set_accounts (Dict.set account_name account_data)).

(** Lines 323-331, "Accumulate sums". *)
Definition accumulate (asset_class asset_subclass : string)
  (account_balance_market_value : Decimal) (t : portfolio_tree)
  : portfolio_tree :=
  let t :=
    if truthy account_balance_market_value
    then add_portfolio_total account_balance_market_value t
    else t in
  let t := on_class asset_class (add_class_total account_balance_market_value) t in
  on_subclass asset_class asset_subclass
    (add_subclass_total account_balance_market_value) t.

(** Lines 293-317: the record of an account whose cost is in the operating
    currency, and its market value. *)
Definition value_account (L : Ledger) (operating_currency : string)
  (date : option Z) (node : TreeNode) (account_cost : Decimal)
  : result (account_data * Decimal) :=
  latest_price <-? _account_latest_price L node ;
  if no_latest_price latest_price then
    ok (mkAccount account_cost None None None None None None, account_cost)
  else
    '(account_balance_market_value,
      account_income_gain_loss_unrealized,
      account_gain_loss_unrealized_percentage) <-?
      _asset_info L operating_currency node date ;
    ok (mkAccount account_balance_market_value
          (Some account_income_gain_loss_unrealized)
          (Some account_gain_loss_unrealized_percentage)
          (match latest_price with
           | Some (latest_price_date, _) => latest_price_date
           | None => None
           end)
          None None None,
        account_balance_market_value).

(** The body of the first loop, for one node: the tree and the errors
    before, the tree and the errors after. *)
Definition process_node (L : Ledger) (commodity_dict : Dict.t (Dict.t string))
  (operating_currency : string) (date : option Z)
  (state : portfolio_tree * list string) (node : TreeNode)
  : result (portfolio_tree * list string) :=
  let '(portfolio_tree, errors) := state in
  match balance node with
  | [] => ok (portfolio_tree, errors)
  | _ :: _ =>
  let account_name := name node in
  let commodity := node_commodity node in
  let asset_class :=
    meta_or commodity_dict commodity "asset-class" "noclass" in
  let asset_subclass :=
    meta_or commodity_dict commodity "asset-subclass" "nosubclass" in
  let portfolio_tree := ensure_class asset_class portfolio_tree in
  let portfolio_tree := ensure_subclass asset_class asset_subclass portfolio_tree in
  account_cost_conv <-? _convert_cost L operating_currency node date ;
  let account_cost_node : Dict.t Decimal :=
    [(currency account_cost_conv, number account_cost_conv)] in
  match Dict.get operating_currency account_cost_node with
  | Some account_cost =>
      '(account_data, account_balance_market_value) <-?
        value_account L operating_currency date node account_cost ;
      ok (accumulate asset_class asset_subclass account_balance_market_value
            (insert_account asset_class asset_subclass account_name account_data
               portfolio_tree),
          errors)
  | None =>
      if (length account_cost_node =? 0)%nat then
        let account_data :=
          mkAccount ZERO (Some ZERO) (Some ZERO) None None None None in
        ok (insert_account asset_class asset_subclass account_name account_data
              portfolio_tree,
            errors)
      else
        ok (portfolio_tree,
            errors ++ [not_in_operating_currency account_name operating_currency])
  end
  end.

Fixpoint process_nodes (L : Ledger) (commodity_dict : Dict.t (Dict.t string))
  (operating_currency : string) (date : option Z)
  (state : portfolio_tree * list string) (nodes : list TreeNode)
  : result (portfolio_tree * list string) :=
  match nodes with
  | [] => ok state
  | node :: rest =>
      state' <-? process_node L commodity_dict operating_currency date state node ;
      process_nodes L commodity_dict operating_currency date state' rest
  end.

(** [ZERO if total == ZERO else round((part / total) * 100, 2)], the
    expression the second loop evaluates for each allocation. *)
Definition allocation (part total : Decimal) : result Decimal :=
  if Qeq_bool total ZERO then ok ZERO
  else
    q <-? dec_div part total ;
    round2 (dec_mul q (100 # 1)).

(** A loop that assigns to each value of a dictionary in turn, and stops
    at the first exception. *)
Fixpoint for_values {A} (f : A -> result A) (d : Dict.t A) : result (Dict.t A) :=
  match d with
  | [] => ok []
  | (k, x) :: d' =>
      y <-? f x ;
      d'' <-? for_values f d' ;
      ok ((k, y) :: d'')
  end.

Definition allocate_account (portfolio_total class_total subclass_total : Decimal)
  (account_dict : account_data) : result account_data :=
  let v := balance_market_value account_dict in
  pa <-? allocation v portfolio_total ;
  ca <-? allocation v class_total ;
  sa <-? allocation v subclass_total ;
  ok (mkAccount v (income_gain_loss account_dict)
        (gain_loss_percentage account_dict) (latest_price_date account_dict)
        (Some pa) (Some ca) (Some sa)).

Definition allocate_subclass (portfolio_total class_total : Decimal)
  (asset_subclass_dict : subclass_dict) : result subclass_dict :=
  let subclass_total := asset_subclass_total asset_subclass_dict in
  pa <-? allocation subclass_total portfolio_total ;
  ca <-? allocation subclass_total class_total ;
  accs <-? for_values (allocate_account portfolio_total class_total subclass_total)
             (accounts asset_subclass_dict) ;
  ok (mkSubclass subclass_total pa
        (asset_subclass_asset_class_allocation asset_subclass_dict)
        accs (Some ca)).

Definition allocate_class (portfolio_total : Decimal)
  (asset_class_dict : class_dict) : result class_dict :=
  let class_total := asset_class_total asset_class_dict in
  pa <-? allocation class_total portfolio_total ;
  subs <-? for_values (allocate_subclass portfolio_total class_total)
             (asset_subclasses asset_class_dict) ;
  ok (mkClass pa class_total subs).

(** The second loop. *)
Definition allocate (t : portfolio_tree) : result portfolio_tree :=
  classes <-? for_values (allocate_class (portfolio_total t)) (asset_classes t) ;
  ok (mkTree (portfolio_total t) classes).

Definition empty_tree : portfolio_tree := mkTree ZERO [].

Definition _portfolio_data (L : Ledger) (commodity_dict : Dict.t (Dict.t string))
  (nodes : list TreeNode) (date : option Z)
  : result (portfolio_tree * list coltype * list string) :=
  match options_operating_currency L with
  | [] => raise IndexError
  | operating_currency :: _ =>
      '(portfolio_tree, errors) <-?
        process_nodes L commodity_dict operating_currency date (empty_tree, []) nodes ;
      portfolio_tree <-? allocate portfolio_tree ;
      ok (portfolio_tree, types, errors)
  end.

(** ** Python objects: values and the store of dictionaries

    [insert_rowspans] builds its result out of the dictionaries it is
    given ([new_data[key] = (data[key], ...)] keeps a reference to
    [data[key]], and [new_data[key][0][...] = ...] assigns through it), so
    dictionaries are objects in a store and values refer to them by
    location.  Tuples and numbers are immutable and are plain values. *)

Inductive val : Type :=
| VNone
| VDec (d : Decimal)
| VDate (d : Z)
| VInt (n : Z)
| VTuple (a b : val)
| VRef (l : nat).

Definition store : Type := list (Dict.t val).

(** Computations that read and write the store and may raise; the store
    survives an exception. *)
Definition M (A : Type) : Type := store -> result A * store.

Definition ret {A} (a : A) : M A := fun s => (ok a, s).

Definition bind {A B} (m : M A) (k : A -> M B) : M B :=
  fun s =>
    match m s with
    | (inl e, s') => (inl e, s')
    | (inr a, s') => k a s'
    end.

Definition throw {A} (e : exn) : M A := fun s => (raise e, s).

Notation "x <- m ; k" := (bind m (fun x => k))
  (at level 20, m at level 100, k at level 200, only parsing).
Notation "m ;; k" := (bind m (fun _ => k))
  (at level 100, k at level 200, only parsing, right associativity).

(** A dictionary display [{...}]: a new object. *)
Definition new_dict (d : Dict.t val) : M val :=
  fun s => (ok (VRef (length s)), s ++ [d]).

(** The dictionary a value refers to. *)
Definition deref (c : val) (otherwise : exn) : M (nat * Dict.t val) :=
  fun s =>
    match c with
    | VRef l =>
        match s !! l with
        | Some d => (ok (l, d), s)
        | None => (raise SystemError, s)
        end
    | _ => (raise otherwise, s)
    end.

(** [c[k]] for a string [k]. *)
Definition getitem (c : val) (k : string) : M val :=
  ld <- deref c TypeError ;
  match Dict.get k (snd ld) with
  | Some v => ret v
  | None => throw KeyError
  end.

(** [c[0]] and [c[1]]. *)
Definition index (c : val) (i : nat) : M val :=
  match c with
  | VTuple a b =>
      match i with
      | O => ret a
      | S O => ret b
      | _ => throw IndexError
      end
  | VRef _ => throw KeyError
  | _ => throw TypeError
  end.

(** [c[k] = v] for a string [k]. *)
Definition setitem (c : val) (k : string) (v : val) : M unit :=
  ld <- deref c TypeError ;
  fun s => (ok tt, <[fst ld := Dict.set k v (snd ld)]> s).

(** [c.keys()] and [c.values()], as the lists a loop over them visits. *)
Definition keys (c : val) : M (list string) :=
  ld <- deref c AttributeError ;
  ret (Dict.keys (snd ld)).

Definition values (c : val) : M (list val) :=
  ld <- deref c AttributeError ;
  ret (Dict.values (snd ld)).

Fixpoint for_each {A} (xs : list A) (body : A -> M unit) : M unit :=
  match xs with
  | [] => ret tt
  | x :: rest => body x ;; for_each rest body
  end.

(** [for key in data.keys(): body]; the iterator raises when the
    dictionary has changed size between two steps. *)
Definition for_keys (data : val) (body : string -> M unit) : M unit :=
  ks <- keys data ;
  for_each ks (fun key =>
    body key ;;
    ks' <- keys data ;
    if (length ks' =? length ks)%nat then ret tt else throw RuntimeError).

Definition rowspan (n : Z) : Dict.t val := [("rowspan"%string, VInt n)].

(** [for value in new_data_inner.values(): rowsum += value[1]["rowspan"]] *)
Fixpoint sum_rowspans (rowsum : Z) (vals : list val) : M Z :=
  match vals with
  | [] => ret rowsum
  | value :: rest =>
      cell <- index value 1 ;
      n <- getitem cell "rowspan" ;
      match n with
      | VInt n => sum_rowspans (rowsum + n)%Z rest
      | _ => throw TypeError
      end
  end.

(** ** [insert_rowspans] *)

(** [coltype[1] == "<class 'dict'>"], the test of the starting call. *)
Definition is_dict (coltype : coltype) : bool :=
  String.eqb (snd coltype) str_dict.

(** The test of the other calls, which also descends into an
    [AccountsDict] column. *)
Definition is_dict_or_accounts (coltype : coltype) : bool :=
  String.eqb (snd coltype) str_dict || String.eqb (snd coltype) str_AccountsDict.

(** [for key in data.keys(): new_data[key] = (data[key], {"rowspan": 1})] *)
Definition reformat (data new_data : val) : M unit :=
  for_keys data (fun key =>
    v <- getitem data key ;
    r <- new_dict (rowspan 1) ;
    setitem new_data key (VTuple v r)).

(** The loop over [coltypes] of a call with [isStart = False], from column
    [colcount] on: [remaining] is [coltypes[colcount:]], so that the
    [rest] handed to the recursive calls is [coltypes[(colcount + 1):]].
    Each recursive call starts, like every call, with a new [new_data]
    and the reformatting loop. *)
Fixpoint rows_loop (coltypes : list coltype) (colcount : nat)
  (remaining : list coltype) (data new_data : val) {struct remaining} : M unit :=
  match remaining with
  | [] => ret tt
  | coltype :: rest =>
      if is_dict_or_accounts coltype then
        for_keys data (fun key =>
          row <- getitem data key ;
          sub <- getitem row (fst coltype) ;
          new_data_inner <-
            (inner <- new_dict [] ;
             reformat sub inner ;;
             rows_loop rest 0 rest sub inner ;;
             ret inner) ;
          cell <- getitem new_data key ;
          target <- index cell 0 ;
          setitem target (fst coltype) new_data_inner ;;
          vals <- values new_data_inner ;
          rowsum <- sum_rowspans 0 vals ;
          for_each (firstn colcount coltypes) (fun prior =>
            cell <- getitem new_data key ;
            row' <- index cell 0 ;
            old <- getitem row' (fst prior) ;
            v <- index old 0 ;
            r <- new_dict (rowspan rowsum) ;
            cell <- getitem new_data key ;
            target <- index cell 0 ;
            setitem target (fst prior) (VTuple v r)) ;;
          cell <- getitem new_data key ;
          row' <- index cell 0 ;
          r <- new_dict (rowspan rowsum) ;
          setitem new_data key (VTuple row' r))
        (* break *)
      else
        for_keys data (fun key =>
          row <- getitem data key ;
          v <- getitem row (fst coltype) ;
          r <- new_dict (rowspan 1) ;
          cell <- getitem new_data key ;
          target <- index cell 0 ;
          setitem target (fst coltype) (VTuple v r)) ;;
        rows_loop coltypes (S colcount) rest data new_data
  end.

(** [insert_rowspans(data, coltypes, False)] *)
Definition insert_rowspans_rows (data : val) (coltypes : list coltype) : M val :=
  new_data <- new_dict [] ;
  reformat data new_data ;;
  rows_loop coltypes 0 coltypes data new_data ;;
  ret new_data.

(** The loop over [coltypes] of the call with [isStart = True]. *)
Fixpoint start_loop (coltypes : list coltype) (colcount : nat)
  (remaining : list coltype) (data new_data : val) {struct remaining} : M unit :=
  match remaining with
  | [] => ret tt
  | coltype :: rest =>
      if is_dict coltype then
        sub <- getitem data (fst coltype) ;
        new_data_inner <- insert_rowspans_rows sub rest ;
        setitem new_data (fst coltype) new_data_inner ;;
        vals <- values new_data_inner ;
        rowsum <- sum_rowspans 0 vals ;
        for_each (firstn colcount coltypes) (fun prior =>
          old <- getitem new_data (fst prior) ;
          v <- index old 0 ;
          r <- new_dict (rowspan rowsum) ;
          setitem new_data (fst prior) (VTuple v r))
        (* break *)
      else
        v <- getitem data (fst coltype) ;
        r <- new_dict (rowspan 1) ;
        setitem new_data (fst coltype) (VTuple v r) ;;
        start_loop coltypes (S colcount) rest data new_data
  end.

Definition insert_rowspans (data : val) (coltypes : list coltype) (isStart : bool)
  : M val :=
  if isStart then
    new_data <- new_dict [] ;
    start_loop coltypes 0 coltypes data new_data ;;
    ret new_data
  else insert_rowspans_rows data coltypes.

(** ** The object graph of a tree

    Every dictionary of the tree [_portfolio_data] returns was made by a
    display of its own ([{}] or the initial [{"portfolio_total": ...}]), so
    no two places of the tree hold the same object: the graph of a tree
    in the store is the tree itself, each dictionary at its own location.
    [pval] is such a tree of values, [alloc] lays it out in the store. *)

#[warnings="-register-all"]
Inductive pval : Type :=
| PNone
| PDec (d : Decimal)
| PDate (d : Z)
| PInt (n : Z)
| PTuple (a b : pval)
| PDict (d : list (string * pval)).

Fixpoint alloc (t : pval) : M val :=
  match t with
  | PNone => ret VNone
  | PDec d => ret (VDec d)
  | PDate d => ret (VDate d)
  | PInt n => ret (VInt n)
  | PTuple a b => va <- alloc a ; vb <- alloc b ; ret (VTuple va vb)
  | PDict d =>
      vs <- (fix alloc_entries (d : list (string * pval)) : M (Dict.t val) :=
               match d with
               | [] => ret []
               | (k, t') :: d' =>
                   v <- alloc t' ;
                   vs <- alloc_entries d' ;
                   ret ((k, v) :: vs)
               end) d ;
      new_dict vs
  end.

(** Reading a value back out of the store, to the given depth. *)
Fixpoint readback (depth : nat) (s : store) (v : val) : option pval :=
  match depth with
  | O => None
  | S depth' =>
      match v with
      | VNone => Some PNone
      | VDec d => Some (PDec d)
      | VDate d => Some (PDate d)
      | VInt n => Some (PInt n)
      | VTuple a b =>
          match readback depth' s a, readback depth' s b with
          | Some ta, Some tb => Some (PTuple ta tb)
          | _, _ => None
          end
      | VRef l =>
          match s !! l with
          | Some d =>
              option_map PDict
                ((fix entries (d : Dict.t val) : option (list (string * pval)) :=
                    match d with
                    | [] => Some []
                    | (k, v') :: d' =>
                        match readback depth' s v', entries d' with
                        | Some t, Some ts => Some ((k, t) :: ts)
                        | _, _ => None
                        end
                    end) d)
          | None => None
          end
      end
  end.

(** The dictionaries of the tree, with the keys in the order in which
    [_portfolio_data] inserts them. *)
Definition opt_dec (o : option Decimal) : pval :=
  match o with Some d => PDec d | None => PNone end.

Definition opt_date (o : option Z) : pval :=
  match o with Some d => PDate d | None => PNone end.

(** A key the allocation pass adds: absent before it. *)
Definition late_key (k : string) (o : option Decimal) : list (string * pval) :=
  match o with Some d => [(k, PDec d)] | None => [] end.

Definition account_pval (a : account_data) : pval :=
  PDict ([ ("balance_market_value", PDec (balance_market_value a));
           ("income_gain_loss", opt_dec (income_gain_loss a));
           ("gain_loss_percentage", opt_dec (gain_loss_percentage a));
           ("latest_price_date", opt_date (latest_price_date a)) ]%string
         ++ late_key "portfolio_allocation" (acc_portfolio_allocation a)
         ++ late_key "asset_class_allocation" (acc_asset_class_allocation a)
         ++ late_key "asset_subclass_allocation" (acc_asset_subclass_allocation a)).

Definition subclass_pval (s : subclass_dict) : pval :=
  PDict ([ ("asset_subclass_total", PDec (asset_subclass_total s));
           ("portfolio_allocation", PDec (sub_portfolio_allocation s));
           ("asset_subclass_asset_class_allocation",
             PDec (asset_subclass_asset_class_allocation s));
           ("accounts",
             PDict (map (fun kv => (fst kv, account_pval (snd kv))) (accounts s))) ]%string
         ++ late_key "asset_class_allocation" (sub_asset_class_allocation s)).

Definition class_pval (c : class_dict) : pval :=
  PDict [ ("portfolio_allocation", PDec (cls_portfolio_allocation c));
          ("asset_class_total", PDec (asset_class_total c));
          ("asset_subclasses",
            PDict (map (fun kv => (fst kv, subclass_pval (snd kv)))
                     (asset_subclasses c))) ]%string.

Definition tree_pval (t : portfolio_tree) : pval :=
  PDict [ ("portfolio_total", PDec (portfolio_total t));
          ("asset_classes",
            PDict (map (fun kv => (fst kv, class_pval (snd kv))) (asset_classes t))) ]%string.

(** ** The report: [portfolio_accounts] *)

(** What [_account_name_pattern] and [_account_metadata_pattern] return. *)
Definition portfolio_info : Type :=
  string * string * (portfolio_tree * list coltype * list string).

Definition regex (L : Ledger) (pattern : string) : result (string -> bool) :=
  match re_compile L pattern with
  | Some regexer => ok regexer
  | None => raise ReError
  end.

(** [[tree[x] for x in selected_accounts]] *)
Fixpoint select_nodes (tree : Dict.t TreeNode) (selected_accounts : list string)
  : result (list TreeNode) :=
  match selected_accounts with
  | [] => ok []
  | x :: rest =>
      match Dict.get x tree with
      | Some node => nodes <-? select_nodes tree rest ; ok (node :: nodes)
      | None => raise KeyError
      end
  end.

Definition _account_name_pattern (L : Ledger)
  (commodity_dict : Dict.t (Dict.t string)) (tree : Dict.t TreeNode)
  (date : option Z) (pattern : string) : result portfolio_info :=
  let title := capitalize L pattern in
  let subtitle := ("Account names matching: '" ++ pattern ++ "'")%string in
  regexer <-? regex L pattern ;
  let selected_accounts :=
    fold_left (fun selected acct =>
                 if regexer acct && negb (existsb (String.eqb acct) selected)
                 then selected ++ [acct] else selected)
      (Dict.keys tree) [] in
  selected_nodes <-? select_nodes tree selected_accounts ;
  portfolio_data <-? _portfolio_data L commodity_dict selected_nodes date ;
  ok (title, subtitle, portfolio_data).

(** The loop over the [Open] entries: [regexer.match] raises on a value
    that is not a string. *)
Fixpoint select_by_metadata (regexer : string -> bool) (metadata_key : string)
  (entries : list (string * Dict.t meta_value)) (selected_accounts : list string)
  : result (list string) :=
  match entries with
  | [] => ok selected_accounts
  | entry :: rest =>
      match Dict.get metadata_key (snd entry) with
      | Some (MStr value) =>
          select_by_metadata regexer metadata_key rest
            (if regexer value then selected_accounts ++ [fst entry]
             else selected_accounts)
      | Some MOther => raise TypeError
      | None => select_by_metadata regexer metadata_key rest selected_accounts
      end
  end.

Definition _account_metadata_pattern (L : Ledger)
  (commodity_dict : Dict.t (Dict.t string)) (tree : Dict.t TreeNode)
  (date : option Z) (metadata_key pattern : string) : result portfolio_info :=
  let title := capitalize L pattern in
  let subtitle :=
    ("Accounts with '" ++ metadata_key ++ "' metadata matching: '"
       ++ pattern ++ "'")%string in
  regexer <-? regex L pattern ;
  selected_accounts <-?
    select_by_metadata regexer metadata_key (all_entries_Open L) [] ;
  selected_nodes <-? select_nodes tree selected_accounts ;
  portfolio_data <-? _portfolio_data L commodity_dict selected_nodes date ;
  ok (title, subtitle, portfolio_data).

(** An entry of [self.config]: the key and its argument, a pattern or a
    pair (metadata key, pattern). *)
Inductive config_arg : Type :=
| ArgStr (s : string)
| ArgPair (a b : string).

Definition config_option : Type := string * config_arg.

(** [option[1]] used as a string. *)
Definition arg_pattern (arg : config_arg) : result string :=
  match arg with
  | ArgStr s => ok s
  | ArgPair _ _ => raise AttributeError
  end.

(** [option[1][0], option[1][1]] *)
Definition arg_pair (arg : config_arg) : result (string * string) :=
  match arg with
  | ArgPair a b => ok (a, b)
  | ArgStr (String c0 (String c1 _)) =>
      ok (String c0 EmptyString, String c1 EmptyString)
  | ArgStr _ => raise IndexError
  end.

(** An entry of the list [portfolio_accounts] returns: title, subtitle and
    (flattened table, column types). *)
Definition portfolio : Type := string * string * (val * list coltype).

Definition lift {A} (r : result A) : M A := fun s => (r, s).

(** The body of the loop over [self.config]. *)
Definition portfolio_of_option (L : Ledger)
  (commodity_dict : Dict.t (Dict.t string)) (tree : Dict.t TreeNode)
  (end_ : option Z) (option : config_option) : M portfolio :=
  let opt_key := fst option in
  info <- lift
    (if String.eqb opt_key "account_name_pattern" then
       pattern <-? arg_pattern (snd option) ;
       _account_name_pattern L commodity_dict tree end_ pattern
     else if String.eqb opt_key "account_open_metadata_pattern" then
       '(metadata_key, pattern) <-? arg_pair (snd option) ;
       _account_metadata_pattern L commodity_dict tree end_ metadata_key pattern
     else raise FavaAPIError) ;
  let '(title, subtitle, (portfolio_tree, coltypes, errors)) := info in
  (* the tree as the objects [_portfolio_data] built *)
  data <- alloc (tree_pval portfolio_tree) ;
  table <- insert_rowspans data coltypes true ;
  ret (title, subtitle, (table, coltypes)).

(** The loop inside [try]: it ends at the first exception, with the
    portfolios appended so far. *)
Fixpoint portfolios_loop (L : Ledger)
  (commodity_dict : Dict.t (Dict.t string)) (tree : Dict.t TreeNode)
  (end_ : option Z) (config : list config_option) (portfolios : list portfolio)
  (s : store) : list portfolio * option exn * store :=
  match config with
  | [] => (portfolios, None, s)
  | option :: rest =>
      match portfolio_of_option L commodity_dict tree end_ option s with
      | (inl e, s') => (portfolios, Some e, s')
      | (inr p, s') =>
          portfolios_loop L commodity_dict tree end_ rest (portfolios ++ [p]) s'
      end
  end.

(** [portfolio_accounts]: the list returned, the exception whose traceback
    was printed (if any), and the store. *)
Definition portfolio_accounts (L : Ledger) (config : list config_option)
  (begin end_ : option Z) (s : store) : list portfolio * option exn * store :=
  let commodity_dict := load_report L in
  let tree := account_tree L begin end_ in
  portfolios_loop L commodity_dict tree end_ config [] s.

(** * Properties *)

(** ** Decimal arithmetic *)

Lemma digits_from_spec fuel : forall n,
  (0 < n)%Z -> (n < 2 ^ Z.of_nat fuel)%Z ->
  (10 ^ (digits_from fuel n - 1) <= n < 10 ^ digits_from fuel n)%Z /\
  (1 <= digits_from fuel n)%Z.
Proof.
  induction fuel as [|fuel IH]; intros n Hpos Hlt.
  - simpl in Hlt. lia.
  - cbn [digits_from]. destruct (n <? 10)%Z eqn:E.
    + apply Z.ltb_lt in E. simpl. lia.
    + apply Z.ltb_ge in E.
      assert (0 < n / 10)%Z as Hq by (apply Z.div_str_pos; lia).
      assert (n / 10 < 2 ^ Z.of_nat fuel)%Z as Hb.
      { rewrite Nat2Z.inj_succ, Z.pow_succ_r in Hlt by lia.
        apply Z.div_lt_upper_bound; lia. }
      destruct (IH _ Hq Hb) as [[H1 H2] H3].
      replace (1 + digits_from fuel (n / 10) - 1)%Z
        with (Z.succ (digits_from fuel (n / 10) - 1))%Z by lia.
      replace (1 + digits_from fuel (n / 10))%Z
        with (Z.succ (digits_from fuel (n / 10)))%Z by lia.
      rewrite !Z.pow_succ_r by lia.
      pose proof (Z.div_mod n 10 ltac:(lia)) as Hdm.
      pose proof (Z.mod_pos_bound n 10 ltac:(lia)) as Hm.
      split; [|lia]. split; lia.
Qed.

Lemma digits_spec n :
  (0 < n)%Z -> (10 ^ (digits n - 1) <= n < 10 ^ digits n)%Z /\ (1 <= digits n)%Z.
Proof.
  intros Hpos. unfold digits. apply digits_from_spec; [exact Hpos|].
  rewrite Nat2Z.inj_succ, Z2Nat.id by apply Z.log2_nonneg.
  apply Z.log2_spec in Hpos. lia.
Qed.

Lemma ten_pos (k : Z) : 0 < 10 ^ k.
Proof. apply Qpower_0_lt. reflexivity. Qed.

Lemma ten_plus (a b : Z) : 10 ^ (a + b) == 10 ^ a * 10 ^ b.
Proof. apply Qpower_plus. discriminate. Qed.

Lemma ten_minus (a b : Z) : 10 ^ (a - b) == 10 ^ a / 10 ^ b.
Proof. apply Qpower_minus. discriminate. Qed.

Lemma ten_le (a b : Z) : (a <= b)%Z -> 10 ^ a <= 10 ^ b.
Proof. intros H. apply Qpower_le_compat_l; [exact H | discriminate]. Qed.

Lemma ten_lt (a b : Z) : (a < b)%Z -> 10 ^ a < 10 ^ b.
Proof. intros H. apply Qpower_lt_compat_l; [exact H | reflexivity]. Qed.

Lemma ten_lt_inv (a b : Z) : 10 ^ a < 10 ^ b -> (a < b)%Z.
Proof. intros H. apply (Qpower_lt_compat_l_inv 10); [exact H | reflexivity]. Qed.

Lemma ten_inject (k : Z) : (0 <= k)%Z -> inject_Z (10 ^ k) == 10 ^ k.
Proof. intros H. now rewrite Zpower_Qpower. Qed.

(** The leading digit of [q] is at [10 ^ adjusted q]. *)
Lemma adjusted_spec (q : Q) :
  ~ q == 0 -> 10 ^ adjusted q <= Qabs q /\ Qabs q < 10 ^ (adjusted q + 1).
Proof.
  intros Hq. unfold adjusted.
  set (n := Z.abs (Qnum q)). set (d := Zpos (Qden q)).
  assert (0 < n)%Z as Hn.
  { subst n. destruct q as [[|p|p] qd]; simpl; try lia.
    exfalso. apply Hq. reflexivity. }
  assert (0 < d)%Z as Hd by (subst d; lia).
  destruct (digits_spec n Hn) as [[Hn1 Hn2] Hn3].
  destruct (digits_spec d Hd) as [[Hd1 Hd2] Hd3].
  set (dn := digits n) in *. set (dd := digits d) in *.
  assert (Qabs q == inject_Z n / inject_Z d) as Habs.
  { subst n d. destruct q as [qn qd]. unfold Qabs. cbn [Qnum Qden].
    rewrite (Qmake_Qdiv (Z.abs qn) qd). reflexivity. }
  assert (0 < inject_Z d) as Hd0.
  { change 0 with (inject_Z 0). rewrite <- Zlt_Qlt. exact Hd. }
  assert (inject_Z n < 10 ^ dn) as Bn2.
  { rewrite <- ten_inject by lia. now rewrite <- Zlt_Qlt. }
  assert (10 ^ (dn - 1) <= inject_Z n) as Bn1.
  { rewrite <- ten_inject by lia. now rewrite <- Zle_Qle. }
  assert (inject_Z d < 10 ^ dd) as Bd2.
  { rewrite <- ten_inject by lia. now rewrite <- Zlt_Qlt. }
  assert (10 ^ (dd - 1) <= inject_Z d) as Bd1.
  { rewrite <- ten_inject by lia. now rewrite <- Zle_Qle. }
  (* 10^(dn-dd-1) < |q| < 10^(dn-dd+1) *)
  assert (Qabs q < 10 ^ (dn - dd + 1)) as Hup.
  { rewrite Habs. apply Qlt_shift_div_r; [exact Hd0|].
    eapply Qlt_le_trans; [exact Bn2|].
    replace dn with ((dn - dd + 1) + (dd - 1))%Z at 1 by lia.
    rewrite ten_plus. apply Qmult_le_l; [apply ten_pos | exact Bd1]. }
  assert (10 ^ (dn - dd - 1) < Qabs q) as Hlo.
  { rewrite Habs. apply Qlt_shift_div_l; [exact Hd0|].
    eapply Qlt_le_trans; [|exact Bn1].
    replace (dn - 1)%Z with ((dn - dd - 1) + dd)%Z by lia.
    rewrite ten_plus. apply Qmult_lt_l; [apply ten_pos | exact Bd2]. }
  destruct (Qle_bool (10 ^ (dn - dd)) (Qabs q)) eqn:E.
  - apply Qle_bool_iff in E. split; [exact E | exact Hup].
  - assert (~ 10 ^ (dn - dd) <= Qabs q) as E'.
    { intros H. apply Qle_bool_iff in H. congruence. }
    apply Qnot_le_lt in E'. split.
    + apply Qlt_le_weak. exact Hlo.
    + replace (dn - dd - 1 + 1)%Z with (dn - dd)%Z by lia. exact E'.
Qed.

Lemma adjusted_unique (x : Q) (j k : Z) :
  10 ^ j <= x -> x < 10 ^ (j + 1) -> 10 ^ k <= x -> x < 10 ^ (k + 1) -> j = k.
Proof.
  intros J1 J2 K1 K2.
  assert (10 ^ j < 10 ^ (k + 1)) as A by (eapply Qle_lt_trans; eauto).
  assert (10 ^ k < 10 ^ (j + 1)) as B by (eapply Qle_lt_trans; eauto).
  apply ten_lt_inv in A, B. lia.
Qed.

Lemma adjusted_eq (q : Q) (k : Z) :
  10 ^ k <= Qabs q -> Qabs q < 10 ^ (k + 1) -> adjusted q = k.
Proof.
  intros K1 K2.
  assert (~ q == 0) as Hq.
  { intros H. assert (Qabs q == 0) as Hz by (rewrite H; reflexivity).
    rewrite Hz in K1. pose proof (ten_pos k) as Hp.
    revert K1 Hp. generalize (10 ^ k). intros; lra. }
  destruct (adjusted_spec q Hq) as [A1 A2].
  eapply adjusted_unique; eauto.
Qed.

Lemma adjusted_comp (a b : Q) : a == b -> ~ a == 0 -> adjusted a = adjusted b.
Proof.
  intros Hab Ha.
  assert (~ b == 0) as Hb by now rewrite <- Hab.
  destruct (adjusted_spec b Hb) as [B1 B2].
  apply adjusted_eq; now rewrite Hab.
Qed.

(** ** Rounding to an integer *)

#[export] Instance round_half_even_proper : Proper (Qeq ==> eq) round_half_even.
Proof.
  intros a b Hab. unfold round_half_even.
  rewrite (Qfloor_comp _ _ Hab).
  assert (a - inject_Z (Qfloor b) == b - inject_Z (Qfloor b)) as H
    by now rewrite Hab.
  now rewrite (Qcompare_comp _ _ H _ _ (Qeq_refl (1 # 2))).
Qed.

(** The nearest integer is within a half. *)
Lemma round_half_even_near (q : Q) :
  inject_Z (round_half_even q) - (1 # 2) <= q /\
  q <= inject_Z (round_half_even q) + (1 # 2).
Proof.
  unfold round_half_even.
  pose proof (Qfloor_le q) as Hlo. pose proof (Qlt_floor q) as Hhi.
  rewrite inject_Z_plus in Hhi. change (inject_Z 1) with 1 in Hhi.
  destruct (Qcompare (q - inject_Z (Qfloor q)) (1 # 2)) eqn:E.
  - apply Qeq_alt in E. destruct (Z.even (Qfloor q)).
    + lra.
    + rewrite inject_Z_plus. change (inject_Z 1) with 1. lra.
  - apply Qlt_alt in E. lra.
  - apply Qgt_alt in E. rewrite inject_Z_plus. change (inject_Z 1) with 1. lra.
Qed.

Lemma round_half_even_Z (z : Z) : round_half_even (inject_Z z) = z.
Proof.
  unfold round_half_even. rewrite Qfloor_Z.
  assert (inject_Z z - inject_Z z == 0) as H by lra.
  rewrite (Qcompare_comp _ _ H _ _ (Qeq_refl (1 # 2))). reflexivity.
Qed.

Lemma round_half_even_mono (a b : Q) :
  a <= b -> (round_half_even a <= round_half_even b)%Z.
Proof.
  intros Hab.
  destruct (Z_le_gt_dec (round_half_even a) (round_half_even b)) as [H|H];
    [exact H|exfalso].
  destruct (round_half_even_near a) as [A1 A2].
  destruct (round_half_even_near b) as [B1 B2].
  assert (round_half_even b + 1 <= round_half_even a)%Z as H' by lia.
  rewrite Zle_Qle, inject_Z_plus in H'. change (inject_Z 1) with 1 in H'.
  assert (a == b) as E by lra.
  rewrite E in H. lia.
Qed.

Lemma round_half_even_between (q : Q) (lo hi : Z) :
  inject_Z lo <= q -> q <= inject_Z hi -> (lo <= round_half_even q <= hi)%Z.
Proof.
  intros H1 H2. split.
  - rewrite <- (round_half_even_Z lo). now apply round_half_even_mono.
  - rewrite <- (round_half_even_Z hi). now apply round_half_even_mono.
Qed.

(** ** Rounding to the precision *)

Lemma ten_cancel (q : Q) (e : Z) : q / 10 ^ e * 10 ^ e == q.
Proof. pose proof (ten_pos e). field. lra. Qed.

(** The scaled value of a non-zero number has 28 digits before the point. *)
Lemma scaled_range (q : Q) :
  ~ q == 0 ->
  let e := (adjusted q - (prec - 1))%Z in
  10 ^ (prec - 1) <= Qabs (q / 10 ^ e) /\ Qabs (q / 10 ^ e) < 10 ^ prec.
Proof.
  intros Hq e. destruct (adjusted_spec q Hq) as [A1 A2].
  pose proof (ten_pos e) as He.
  assert (Qabs (q / 10 ^ e) == Qabs q / 10 ^ e) as Habs.
  { unfold Qdiv. rewrite Qabs_Qmult. rewrite (Qabs_pos (/ 10 ^ e)); [reflexivity|].
    apply Qlt_le_weak, Qinv_lt_0_compat, He. }
  rewrite Habs. split.
  - apply Qle_shift_div_l; [exact He|]. rewrite <- ten_plus.
    now replace (prec - 1 + e)%Z with (adjusted q) by (subst e; lia).
  - apply Qlt_shift_div_r; [exact He|]. rewrite <- ten_plus.
    now replace (prec + e)%Z with (adjusted q + 1)%Z by (subst e; lia).
Qed.

Lemma round_prec_zero (q : Q) : q == 0 -> round_prec q = 0.
Proof.
  intros H. unfold round_prec.
  now replace (Qeq_bool q 0) with true by (symmetry; now apply Qeq_bool_iff).
Qed.

Lemma round_prec_nonzero (q : Q) :
  ~ q == 0 ->
  let e := (adjusted q - (prec - 1))%Z in
  round_prec q == inject_Z (round_half_even (q / 10 ^ e)) * 10 ^ e.
Proof.
  intros H e. unfold round_prec.
  destruct (Qeq_bool q 0) eqn:E; [apply Qeq_bool_iff in E; contradiction|].
  apply Qred_correct.
Qed.

#[export] Instance round_prec_proper : Proper (Qeq ==> Qeq) round_prec.
Proof.
  intros a b Hab. destruct (Qeq_dec a 0) as [Ha|Ha].
  - rewrite (round_prec_zero a Ha), (round_prec_zero b); [reflexivity|].
    now rewrite <- Hab.
  - assert (~ b == 0) as Hb by now rewrite <- Hab.
    rewrite (round_prec_nonzero a Ha), (round_prec_nonzero b Hb).
    cbv zeta. rewrite <- (adjusted_comp a b Hab Ha).
    assert (a / 10 ^ (adjusted a - (prec - 1)) == b / 10 ^ (adjusted a - (prec - 1)))
      as H by (apply Qdiv_comp; [exact Hab | reflexivity]).
    now rewrite (round_half_even_proper _ _ H).
Qed.

(** [m * 10 ^ k] with fewer than 28 digits in [m] is not rounded. *)
Lemma round_prec_fixed (q : Q) (m k : Z) :
  q == inject_Z m * 10 ^ k -> (Z.abs m < 10 ^ prec)%Z -> round_prec q == q.
Proof.
  intros Hq Hm. destruct (Qeq_dec q 0) as [Hz|Hz].
  { now rewrite (round_prec_zero q Hz), Hz. }
  rewrite (round_prec_nonzero q Hz). cbv zeta.
  set (e := (adjusted q - (prec - 1))%Z).
  destruct (adjusted_spec q Hz) as [A1 A2].
  pose proof (ten_pos k) as Hk. pose proof (ten_pos e) as He.
  assert (Qabs q == inject_Z (Z.abs m) * 10 ^ k) as Habs.
  { rewrite Hq, Qabs_Qmult, (Qabs_pos (10 ^ k)) by now apply Qlt_le_weak.
    reflexivity. }
  assert (e <= k)%Z as Hek.
  { assert (10 ^ adjusted q < 10 ^ (prec + k)) as H.
    { eapply Qle_lt_trans; [exact A1|]. rewrite Habs, ten_plus.
      apply Qmult_lt_r; [exact Hk|].
      rewrite <- ten_inject by (unfold prec; lia). now rewrite <- Zlt_Qlt. }
    apply ten_lt_inv in H. subst e. lia. }
  assert (q / 10 ^ e == inject_Z (m * 10 ^ (k - e))) as Hs.
  { rewrite inject_Z_mult, ten_inject by lia. rewrite Hq, ten_minus.
    field. lra. }
  rewrite (round_half_even_proper _ _ Hs), round_half_even_Z, <- Hs.
  apply ten_cancel.
Qed.

Lemma round_prec_0 : round_prec 0 == 0.
Proof. reflexivity. Qed.

(** A non-negative number rounds to a number between the powers of ten
    around it. *)
Lemma round_prec_pos_range (q : Q) :
  0 < q -> 10 ^ adjusted q <= round_prec q /\ round_prec q <= 10 ^ (adjusted q + 1).
Proof.
  intros Hq. assert (~ q == 0) as Hz by lra.
  rewrite (round_prec_nonzero q Hz). cbv zeta.
  set (e := (adjusted q - (prec - 1))%Z).
  destruct (scaled_range q Hz) as [S1 S2]. fold e in S1, S2.
  pose proof (ten_pos e) as He.
  assert (0 <= q / 10 ^ e) as Hs.
  { apply Qle_shift_div_l; [exact He|]. lra. }
  rewrite (Qabs_pos _ Hs) in S1, S2.
  destruct (round_half_even_between (q / 10 ^ e) (10 ^ (prec - 1)) (10 ^ prec))
    as [R1 R2].
  { now rewrite ten_inject by (unfold prec; lia). }
  { rewrite ten_inject by (unfold prec; lia). now apply Qlt_le_weak. }
  rewrite Zle_Qle, ten_inject in R1 by (unfold prec; lia).
  rewrite Zle_Qle, ten_inject in R2 by (unfold prec; lia).
  split.
  - replace (adjusted q) with ((prec - 1) + e)%Z at 1 by (subst e; lia).
    rewrite ten_plus. apply Qmult_le_compat_r; [exact R1 | now apply Qlt_le_weak].
  - replace (adjusted q + 1)%Z with (prec + e)%Z by (subst e; lia).
    rewrite ten_plus. apply Qmult_le_compat_r; [exact R2 | now apply Qlt_le_weak].
Qed.

Lemma round_prec_pos (q : Q) : 0 < q -> 0 < round_prec q.
Proof.
  intros Hq. destruct (round_prec_pos_range q Hq) as [H _].
  eapply Qlt_le_trans; [apply (ten_pos (adjusted q)) | exact H].
Qed.

Lemma round_prec_nonneg (q : Q) : 0 <= q -> 0 <= round_prec q.
Proof.
  intros Hq. destruct (Qeq_dec q 0) as [Hz|Hz].
  - rewrite (round_prec_zero q Hz). lra.
  - apply Qlt_le_weak, round_prec_pos. lra.
Qed.



(** Rounding is monotone on the non-negative numbers. *)
Lemma round_prec_mono (a b : Q) : 0 <= a -> a <= b -> round_prec a <= round_prec b.
Proof.
  intros Ha Hab. destruct (Qeq_dec a 0) as [Hz|Hz].
  { rewrite (round_prec_zero a Hz). apply round_prec_nonneg. lra. }
  assert (0 < a) as Ha' by lra. assert (0 < b) as Hb' by lra.
  assert (~ b == 0) as Hbz by lra.
  destruct (adjusted_spec a Hz) as [A1 A2]. destruct (adjusted_spec b Hbz) as [B1 B2].
  rewrite (Qabs_pos a) in A1, A2 by lra. rewrite (Qabs_pos b) in B1, B2 by lra.
  assert (adjusted a <= adjusted b)%Z as Hadj.
  { assert (10 ^ adjusted a < 10 ^ (adjusted b + 1)) as H by lra.
    apply ten_lt_inv in H. lia. }
  destruct (Z.eq_dec (adjusted a) (adjusted b)) as [E|E].
  - rewrite (round_prec_nonzero a Hz), (round_prec_nonzero b Hbz). cbv zeta.
    rewrite E. set (e := (adjusted b - (prec - 1))%Z).
    pose proof (ten_pos e) as He.
    apply Qmult_le_compat_r; [|now apply Qlt_le_weak].
    rewrite <- Zle_Qle. apply round_half_even_mono.
    apply Qmult_le_compat_r; [exact Hab|].
    apply Qlt_le_weak, Qinv_lt_0_compat, He.
  - destruct (round_prec_pos_range a Ha') as [_ Ra].
    destruct (round_prec_pos_range b Hb') as [Rb _].
    assert (10 ^ (adjusted a + 1) <= 10 ^ adjusted b) as H by (apply ten_le; lia).
    lra.
Qed.

(** A rounded number is not rounded again. *)
Lemma round_prec_idem (q : Q) : round_prec (round_prec q) == round_prec q.
Proof.
  destruct (Qeq_dec q 0) as [Hz|Hz].
  { rewrite (round_prec_zero q Hz). reflexivity. }
  pose proof (round_prec_nonzero q Hz) as Hr. cbv zeta in Hr.
  set (e := (adjusted q - (prec - 1))%Z) in *.
  set (r := round_half_even (q / 10 ^ e)) in *.
  destruct (scaled_range q Hz) as [S1 S2]. fold e in S1, S2.
  apply Qabs_Qlt_condition in S2.
  destruct (round_half_even_between (q / 10 ^ e) (- 10 ^ prec) (10 ^ prec))
    as [R1 R2].
  { rewrite inject_Z_opp, ten_inject by (unfold prec; lia). lra. }
  { rewrite ten_inject by (unfold prec; lia). lra. }
  fold r in R1, R2.
  destruct (Z.eq_dec (Z.abs r) (10 ^ prec)%Z) as [E|E].
  - apply (round_prec_fixed _ (Z.sgn r) (prec + e)).
    + rewrite Hr.
      assert (inject_Z r == inject_Z (Z.sgn r) * 10 ^ prec) as Hsg.
      { rewrite <- ten_inject by (unfold prec; lia).
        rewrite <- inject_Z_mult, <- E, (Z.mul_comm (Z.sgn r)), Z.abs_sgn.
        reflexivity. }
      rewrite Hsg, ten_plus. ring.
    + assert (1 < 10 ^ prec)%Z by (apply Z.pow_gt_1; unfold prec; lia).
      destruct r; simpl; lia.
  - apply (round_prec_fixed _ r e); [exact Hr | lia].
Qed.

(** Rounding changes a non-negative number by less than one part in
    [10 ^ 27]. *)
Lemma round_prec_close (q : Q) :
  0 <= q -> q * (1 - 10 ^ (1 - prec)) <= round_prec q /\
            round_prec q <= q * (1 + 10 ^ (1 - prec)).
Proof.
  intros Hq. destruct (Qeq_dec q 0) as [Hz|Hz].
  { rewrite (round_prec_zero q Hz), Hz. split; ring_simplify; lra. }
  rewrite (round_prec_nonzero q Hz). cbv zeta.
  set (e := (adjusted q - (prec - 1))%Z).
  destruct (scaled_range q Hz) as [S1 _]. fold e in S1.
  pose proof (ten_pos e) as He.
  assert (0 <= q / 10 ^ e) as Hs.
  { apply Qle_shift_div_l; [exact He|]. lra. }
  rewrite (Qabs_pos _ Hs) in S1.
  destruct (round_half_even_near (q / 10 ^ e)) as [N1 N2].
  set (r := inject_Z (round_half_even (q / 10 ^ e))) in *.
  set (s := q / 10 ^ e) in *.
  assert (q == s * 10 ^ e) as Hqs by (subst s; now rewrite ten_cancel).
  assert (10 ^ (1 - prec) * 10 ^ (prec - 1) == 1) as Hinv.
  { rewrite <- ten_plus. now replace (1 - prec + (prec - 1))%Z with 0%Z by lia. }
  pose proof (ten_pos (1 - prec)) as Hp1. pose proof (ten_pos (prec - 1)) as Hp2.
  assert (1 <= s * 10 ^ (1 - prec)) as Hone.
  { rewrite <- Hinv. rewrite (Qmult_comm s).
    apply Qmult_le_l; [exact Hp1 | exact S1]. }
  rewrite Hqs. split.
  - rewrite <- Qmult_assoc, (Qmult_comm (10 ^ e)), Qmult_assoc.
    apply Qmult_le_compat_r; [|now apply Qlt_le_weak].
    revert Hone N1. generalize (10 ^ (1 - prec)). intros; nra.
  - rewrite <- Qmult_assoc, (Qmult_comm (10 ^ e)), Qmult_assoc.
    apply Qmult_le_compat_r; [|now apply Qlt_le_weak].
    revert Hone N2. generalize (10 ^ (1 - prec)). intros; nra.
Qed.

(** ** The operations *)

Lemma round2_ok (q : Decimal) (lo hi : Z) :
  inject_Z lo <= q * 100 -> q * 100 <= inject_Z hi ->
  (- 10 ^ prec < lo)%Z -> (hi < 10 ^ prec)%Z ->
  exists r, round2 q = ok r /\ inject_Z lo / 100 <= r /\ r <= inject_Z hi / 100.
Proof.
  intros H1 H2 Hlo Hhi. unfold round2.
  destruct (round_half_even_between (q * 100) lo hi H1 H2) as [R1 R2].
  set (c := round_half_even (q * 100)) in *.
  assert ((Z.abs c <? 10 ^ prec)%Z = true) as Hc by (apply Z.ltb_lt; lia).
  rewrite Hc. eexists. split; [reflexivity|].
  rewrite (Qmake_Qdiv c 100). change (inject_Z (Z.pos 100)) with 100.
  rewrite Zle_Qle in R1, R2. split.
  - apply Qmult_le_compat_r; [exact R1 | discriminate].
  - apply Qmult_le_compat_r; [exact R2 | discriminate].
Qed.


(** ** Dictionaries *)

Section DictFacts.
Context {A : Type}.
Implicit Types (d : Dict.t A) (k : string) (v : A).

Lemma get_set_eq k v d : Dict.get k (Dict.set k v d) = Some v.
Proof.
  induction d as [|[k' v'] d IH]; simpl.
  - now rewrite String.eqb_refl.
  - destruct (String.eqb k k') eqn:E; simpl; rewrite E; auto.
Qed.

Lemma get_set_ne k k' v d : k <> k' -> Dict.get k' (Dict.set k v d) = Dict.get k' d.
Proof.
  intros Hne. induction d as [|[k0 v0] d IH]; simpl.
  - destruct (String.eqb_spec k' k); congruence.
  - destruct (String.eqb_spec k k0); simpl.
    + subst. destruct (String.eqb_spec k' k0); congruence.
    + destruct (String.eqb k' k0); auto.
Qed.

Lemma get_alter_eq (f : A -> A) k d :
  Dict.get k (Dict.alter f k d) = option_map f (Dict.get k d).
Proof.
  induction d as [|[k' v'] d IH]; simpl; auto.
  destruct (String.eqb k k') eqn:E; simpl; rewrite E; auto.
Qed.

Lemma get_alter_ne (f : A -> A) k k' d :
  k <> k' -> Dict.get k' (Dict.alter f k d) = Dict.get k' d.
Proof.
  intros Hne. induction d as [|[k0 v0] d IH]; simpl; auto.
  destruct (String.eqb_spec k k0); simpl.
  - subst. destruct (String.eqb_spec k' k0); congruence.
  - destruct (String.eqb k' k0); auto.
Qed.

Lemma keys_alter (f : A -> A) k d : Dict.keys (Dict.alter f k d) = Dict.keys d.
Proof.
  unfold Dict.keys. induction d as [|[k' v'] d IH]; simpl; auto.
  destruct (String.eqb k k'); simpl; congruence.
Qed.

Lemma mem_get k d : Dict.mem k d = true <-> exists v, Dict.get k d = Some v.
Proof.
  unfold Dict.mem. destruct (Dict.get k d); split; eauto; try discriminate.
  intros [? ?]; discriminate.
Qed.

Lemma get_elem_of k v d : Dict.get k d = Some v -> (k, v) ∈ d.
Proof.
  induction d as [|[k' v'] d IH]; simpl; [discriminate|].
  destruct (String.eqb_spec k k'); intros H.
  - inversion H; subst. left.
  - right. auto.
Qed.

Lemma get_None_keys k d : Dict.get k d = None <-> k ∉ Dict.keys d.
Proof.
  unfold Dict.keys. induction d as [|[k' v'] d IH]; simpl.
  - split; auto. intros _ H. inversion H.
  - rewrite not_elem_of_cons. destruct (String.eqb_spec k k'); subst.
    + split; [discriminate | intros [H _]; congruence].
    + rewrite IH. tauto.
Qed.

Lemma keys_set k v d :
  Dict.keys (Dict.set k v d) =
  if Dict.mem k d then Dict.keys d else Dict.keys d ++ [k].
Proof.
  unfold Dict.keys, Dict.mem. induction d as [|[k' v'] d IH]; simpl; auto.
  destruct (String.eqb k k'); simpl; auto.
  rewrite IH. destruct (Dict.get k d); auto.
Qed.

Lemma NoDup_keys_set k v d :
  NoDup (Dict.keys d) -> NoDup (Dict.keys (Dict.set k v d)).
Proof.
  intros H. rewrite keys_set. destruct (Dict.mem k d) eqn:E; auto.
  apply NoDup_app; repeat split; auto.
  - intros x Hx Hk%list_elem_of_singleton. subst x.
    assert (Dict.get k d = None) as Hn.
    { unfold Dict.mem in E. destruct (Dict.get k d); congruence. }
    apply get_None_keys in Hn. contradiction.
  - apply NoDup_singleton.
Qed.

Lemma elem_of_get k v d : NoDup (Dict.keys d) -> (k, v) ∈ d -> Dict.get k d = Some v.
Proof.
  unfold Dict.keys. induction d as [|[k' v'] d IH]; simpl.
  - intros _ H. inversion H.
  - intros Hnd Hin. apply NoDup_cons in Hnd as [Hk Hnd].
    apply elem_of_cons in Hin as [Heq|Hin].
    + inversion Heq; subst. now rewrite String.eqb_refl.
    + destruct (String.eqb_spec k k'); subst; auto.
      exfalso. apply Hk. apply list_elem_of_fmap. exists (k', v). auto.
Qed.

Lemma get_map {B} (f : A -> B) k d :
  Dict.get k (map (fun kv => (fst kv, f (snd kv))) d) = option_map f (Dict.get k d).
Proof.
  induction d as [|[k' v'] d IH]; simpl; auto.
  destruct (String.eqb k k'); auto.
Qed.

Lemma keys_map {B} (f : A -> B) d :
  Dict.keys (map (fun kv => (fst kv, f (snd kv))) d) = Dict.keys d.
Proof. unfold Dict.keys. rewrite map_map. reflexivity. Qed.

Lemma Forall_alter (P : A -> Prop) (g : A -> A) k d :
  Forall (fun kv => P (snd kv)) d ->
  (forall x, Dict.get k d = Some x -> P x -> P (g x)) ->
  Forall (fun kv => P (snd kv)) (Dict.alter g k d).
Proof.
  induction d as [|[k' v'] d IH]; simpl; intros Hall Hg; auto.
  inversion Hall as [|? ? Hv Hd]; subst. simpl in Hv.
  destruct (String.eqb k k') eqn:E; constructor; simpl; auto.
Qed.

Lemma Forall_set (P : A -> Prop) k x d :
  Forall (fun kv => P (snd kv)) d -> P x ->
  Forall (fun kv => P (snd kv)) (Dict.set k x d).
Proof.
  induction d as [|[k' v'] d IH]; simpl; intros Hall Hx.
  - constructor; auto.
  - inversion Hall as [|? ? Hv Hd]; subst.
    destruct (String.eqb k k'); constructor; auto.
Qed.

End DictFacts.

(** ** [node_commodity] *)

Lemma node_commodity_loop_same ref currencies :
  Forall (fun c => c = ref) currencies ->
  node_commodity_loop ref currencies = ref.
Proof.
  induction 1 as [|c cs Hc _ IH]; simpl; auto.
  subst. now rewrite String.eqb_refl.
Qed.

Lemma node_commodity_loop_mixed ref currencies :
  node_commodity_loop ref currencies = mixed_commodities ->
  ref = mixed_commodities \/ exists c, c ∈ currencies /\ c <> ref.
Proof.
  induction currencies as [|c cs IH]; simpl; auto.
  destruct (String.eqb_spec c ref) as [->|Hne]; simpl.
  - intros H. destruct (IH H) as [?|(c' & ? & ?)]; auto.
    right. exists c'. split; auto. now right.
  - intros _. right. exists c. split; auto. left.
Qed.

(** C10: on an empty balance [node_commodity] returns the empty string; when
    all the keys of a non-empty balance carry the same currency it returns
    that currency; and, currencies being commodity names of the ledger (none
    of which is the string "mixed_commodities"), it returns
    "mixed_commodities" only when two keys of the balance carry different
    currencies. *)
Theorem node_commodity_cases (node : TreeNode) :
  (balance node = [] -> node_commodity node = EmptyString) /\
  (forall c, balance node <> [] ->
     Forall (fun kv => fst (fst kv) = c) (balance node) ->
     node_commodity node = c) /\
  (Forall (fun kv => fst (fst kv) <> mixed_commodities) (balance node) ->
   node_commodity node = mixed_commodities ->
   exists kv1 kv2, kv1 ∈ balance node /\ kv2 ∈ balance node /\
     fst (fst kv1) <> fst (fst kv2)).
Proof.
  unfold node_commodity. destruct (balance node) as [|kv0 b] eqn:Eb.
  - repeat split; auto; try congruence. simpl. intros _ H. discriminate H.
  - split; [discriminate|]. split.
    + intros c _ Hall. cbn [map].
      assert (c = fst (fst kv0)) as -> by (now inversion Hall).
      apply node_commodity_loop_same.
      change (Forall (fun c => c = fst (fst kv0))
                (map (fun kv => fst (fst kv)) (kv0 :: b))).
      apply Forall_fmap. eapply Forall_impl; [exact Hall|]. simpl. congruence.
    + intros Hvalid. cbn [map]. intros H.
      apply node_commodity_loop_mixed in H as [H|(c & Hc & Hne)].
      * inversion Hvalid; subst. contradiction.
      * change (fst (fst kv0) :: map (fun kv => fst (fst kv)) b)
          with (map (fun kv => fst (fst kv)) (kv0 :: b)) in Hc.
        apply list_elem_of_fmap in Hc as (kv & -> & Hkv).
        exists kv, kv0. repeat split; auto. left.
Qed.

Definition node_usd_eur : TreeNode :=
  mkNode "Assets:Cash" [(("USD", None), 1); (("EUR", None), 2)]%string.
Definition node_usd : TreeNode :=
  mkNode "Assets:Bank" [(("USD", None), 1);
                        (("USD", Some (mkCost 2 "USD" 0 None)), 3)]%string.

Lemma node_commodity_cases_witness :
  node_commodity (mkNode "Assets:Empty" []) = EmptyString /\
  node_commodity node_usd = "USD"%string /\
  exists kv1 kv2, kv1 ∈ balance node_usd_eur /\ kv2 ∈ balance node_usd_eur /\
    fst (fst kv1) <> fst (fst kv2).
Proof.
  split; [|split].
  - apply (proj1 (node_commodity_cases (mkNode "Assets:Empty" []))).
    reflexivity.
  - apply (proj1 (proj2 (node_commodity_cases node_usd))).
    + discriminate.
    + repeat constructor.
  - apply (proj2 (proj2 (node_commodity_cases node_usd_eur))).
    + repeat constructor; discriminate.
    + reflexivity.
Defined.

(** ** Looking into a portfolio tree *)

Definition asset_class_of (commodity_dict : Dict.t (Dict.t string))
  (node : TreeNode) : string :=
  meta_or commodity_dict (node_commodity node) "asset-class" "noclass".

Definition asset_subclass_of (commodity_dict : Dict.t (Dict.t string))
  (node : TreeNode) : string :=
  meta_or commodity_dict (node_commodity node) "asset-subclass" "nosubclass".

Definition find_class (c : string) (t : portfolio_tree) : option class_dict :=
  Dict.get c (asset_classes t).

Definition find_subclass (c s : string) (t : portfolio_tree)
  : option subclass_dict :=
  match find_class c t with
  | Some cd => Dict.get s (asset_subclasses cd)
  | None => None
  end.

Definition find_account (c s a : string) (t : portfolio_tree)
  : option account_data :=
  match find_subclass c s t with
  | Some sd => Dict.get a (accounts sd)
  | None => None
  end.

(** The totals and the accounts below a class and subclass tag, [ZERO] and
    no account where the tree has no such node. *)
Definition class_total_of (c : string) (t : portfolio_tree) : Decimal :=
  match find_class c t with
  | Some cd => asset_class_total cd
  | None => ZERO
  end.

Definition subclass_total_of (c s : string) (t : portfolio_tree) : Decimal :=
  match find_subclass c s t with
  | Some sd => asset_subclass_total sd
  | None => ZERO
  end.

Definition accounts_of (c s : string) (t : portfolio_tree) : Dict.t account_data :=
  match find_subclass c s t with
  | Some sd => accounts sd
  | None => []
  end.

(** Sum of a total over the values of a dictionary. *)
Definition sum_of {A} (f : A -> Decimal) (d : Dict.t A) : Decimal :=
  fold_right (fun kv acc => f (snd kv) + acc) 0 d.

(** Two trees with the same totals and the same accounts under every pair
    of tags; they may differ in class and subclass nodes that hold no
    account and a zero total. *)
Definition same_content (t t' : portfolio_tree) : Prop :=
  portfolio_total t = portfolio_total t' /\
  (forall c, class_total_of c t = class_total_of c t') /\
  (forall c s, subclass_total_of c s t = subclass_total_of c s t') /\
  (forall c s, accounts_of c s t = accounts_of c s t').

(** ** The first loop *)

Section Helpers.
Implicit Types (t : portfolio_tree) (c s a : string).

Lemma find_class_ensure_class c c' t :
  find_class c' (ensure_class c t) =
  match find_class c' t with
  | Some cd => Some cd
  | None => if String.eqb c c' then Some new_class else None
  end.
Proof.
  unfold ensure_class, find_class, Dict.mem.
  destruct (Dict.get c (asset_classes t)) eqn:E; simpl.
  - destruct (Dict.get c' (asset_classes t)) eqn:E'; auto.
    destruct (String.eqb_spec c c'); congruence.
  - destruct (String.eqb_spec c c') as [->|Hne].
    + now rewrite get_set_eq, E.
    + rewrite get_set_ne by auto. now destruct (Dict.get c' (asset_classes t)).
Qed.

Lemma find_class_on_class c c' (f : class_dict -> class_dict) t :
  find_class c' (on_class c f t) =
  if String.eqb c c' then option_map f (find_class c' t) else find_class c' t.
Proof.
  unfold on_class, find_class, set_classes; simpl.
  destruct (String.eqb_spec c c') as [->|Hne].
  - apply get_alter_eq.
  - now apply get_alter_ne.
Qed.

Lemma find_subclass_ensure_class c c' s' t :
  find_subclass c' s' (ensure_class c t) = find_subclass c' s' t.
Proof.
  unfold find_subclass. rewrite find_class_ensure_class.
  destruct (find_class c' t); auto.
  destruct (String.eqb c c'); auto.
Qed.

Lemma find_subclass_ensure_subclass c s c' s' t :
  find_subclass c' s' (ensure_subclass c s t) =
  match find_subclass c' s' t with
  | Some sd => Some sd
  | None =>
      if String.eqb c c' && String.eqb s s' then
        match find_class c t with Some _ => Some new_subclass | None => None end
      else None
  end.
Proof.
  unfold ensure_subclass, subclasses_of, find_subclass, Dict.mem.
  fold (find_class c t).
  destruct (find_class c t) as [cd|] eqn:Ec; simpl.
  - destruct (Dict.get s (asset_subclasses cd)) eqn:Es; simpl.
    + destruct (String.eqb_spec c c') as [<-|Hne]; simpl.
      * rewrite Ec. destruct (String.eqb_spec s s') as [<-|Hne']; simpl.
        -- now rewrite Es.
        -- now destruct (Dict.get s' (asset_subclasses cd)).
      * destruct (find_class c' t) as [cd'|]; auto.
        now destruct (Dict.get s' (asset_subclasses cd')).
    + rewrite find_class_on_class.
      destruct (String.eqb_spec c c') as [<-|Hne]; simpl.
      * rewrite Ec. simpl.
        destruct (String.eqb_spec s s') as [<-|Hne'].
        -- now rewrite get_set_eq, Es.
        -- rewrite get_set_ne by auto.
           now destruct (Dict.get s' (asset_subclasses cd)).
      * destruct (find_class c' t) as [cd'|]; auto.
        now destruct (Dict.get s' (asset_subclasses cd')).
  - rewrite find_class_on_class.
    destruct (String.eqb_spec c c') as [<-|Hne]; simpl.
    + rewrite Ec. simpl. now destruct (String.eqb s s').
    + destruct (find_class c' t) as [cd'|]; auto.
      now destruct (Dict.get s' (asset_subclasses cd')).
Qed.

Lemma find_class_ensure_subclass c s c' t :
  find_class c' (ensure_subclass c s t) =
  match find_class c' t with
  | Some cd =>
      if String.eqb c c' && negb (Dict.mem s (asset_subclasses cd))
      then Some (set_subclasses (Dict.set s new_subclass) cd)
      else Some cd
  | None => None
  end.
Proof.
  unfold ensure_subclass, subclasses_of. fold (find_class c t).
  destruct (negb (Dict.mem s match find_class c t with
                              | Some cd => asset_subclasses cd
                              | None => []
                              end)) eqn:E.
  - rewrite find_class_on_class.
    destruct (String.eqb_spec c c') as [<-|Hne]; simpl.
    + destruct (find_class c t); simpl in *; auto. now rewrite E.
    + now destruct (find_class c' t).
  - destruct (String.eqb_spec c c') as [<-|Hne]; simpl.
    + destruct (find_class c t); simpl in *; auto. now rewrite E.
    + now destruct (find_class c' t).
Qed.

Lemma find_subclass_on_subclass c s c' s' (f : subclass_dict -> subclass_dict) t :
  find_subclass c' s' (on_subclass c s f t) =
  if String.eqb c c' && String.eqb s s'
  then option_map f (find_subclass c' s' t)
  else find_subclass c' s' t.
Proof.
  unfold on_subclass, find_subclass. rewrite find_class_on_class.
  destruct (String.eqb_spec c c') as [<-|Hne]; simpl; auto.
  destruct (find_class c t) as [cd|]; simpl.
  - destruct (String.eqb_spec s s') as [<-|Hne'].
    + apply get_alter_eq.
    + now apply get_alter_ne.
  - now destruct (String.eqb s s').
Qed.

End Helpers.

Ltac case_tags :=
  repeat match goal with
    | |- context [String.eqb ?a ?b] =>
        destruct (String.eqb_spec a b); subst; simpl
    end.

Ltac case_finds :=
  repeat match goal with
    | |- context [match find_subclass ?c ?s ?t with _ => _ end] =>
        destruct (find_subclass c s t) eqn:?; simpl
    | |- context [match find_class ?c ?t with _ => _ end] =>
        destruct (find_class c t) eqn:?; simpl
    | |- context [option_map _ (find_subclass ?c ?s ?t)] =>
        destruct (find_subclass c s t) eqn:?; simpl
    | |- context [option_map _ (find_class ?c ?t)] =>
        destruct (find_class c t) eqn:?; simpl
    end.

Section Observations.
Implicit Types (t : portfolio_tree) (c s a : string).

Lemma find_subclass_class c s t sd :
  find_subclass c s t = Some sd -> exists cd, find_class c t = Some cd.
Proof. unfold find_subclass. destruct (find_class c t); eauto. discriminate. Qed.

Lemma ensure_class_same_content c t : same_content (ensure_class c t) t.
Proof.
  unfold same_content, class_total_of, subclass_total_of, accounts_of.
  repeat split; intros.
  - unfold ensure_class. now destruct (negb _).
  - rewrite find_class_ensure_class. case_finds; auto.
    case_tags; reflexivity.
  - rewrite find_subclass_ensure_class. reflexivity.
  - rewrite find_subclass_ensure_class. reflexivity.
Qed.

Lemma ensure_subclass_same_content c s t : same_content (ensure_subclass c s t) t.
Proof.
  unfold same_content, class_total_of, subclass_total_of, accounts_of.
  repeat split; intros.
  - unfold ensure_subclass. now destruct (negb _).
  - rewrite find_class_ensure_subclass. case_finds; auto.
    now destruct (_ && _).
  - rewrite find_subclass_ensure_subclass. case_finds; auto;
      case_tags; case_finds; reflexivity.
  - rewrite find_subclass_ensure_subclass. case_finds; auto;
      case_tags; case_finds; reflexivity.
Qed.

Lemma ensured c s t :
  exists sd, find_subclass c s (ensure_subclass c s (ensure_class c t)) = Some sd.
Proof.
  rewrite find_subclass_ensure_subclass, find_subclass_ensure_class.
  rewrite find_class_ensure_class, !String.eqb_refl. simpl.
  destruct (find_subclass c s t); eauto.
  destruct (find_class c t); eauto.
Qed.

Lemma insert_account_total c s a d t :
  portfolio_total (insert_account c s a d t) = portfolio_total t.
Proof. reflexivity. Qed.

Lemma insert_account_class_total c s a d c' t :
  class_total_of c' (insert_account c s a d t) = class_total_of c' t.
Proof.
  unfold class_total_of, insert_account, on_subclass.
  rewrite find_class_on_class. case_tags; case_finds; auto.
Qed.

Lemma insert_account_subclass_total c s a d c' s' t :
  subclass_total_of c' s' (insert_account c s a d t) = subclass_total_of c' s' t.
Proof.
  unfold subclass_total_of, insert_account.
  rewrite find_subclass_on_subclass. case_tags; case_finds; auto.
Qed.

Lemma insert_account_accounts c s a d c' s' t sd :
  find_subclass c s t = Some sd ->
  accounts_of c' s' (insert_account c s a d t) =
  if String.eqb c c' && String.eqb s s'
  then Dict.set a d (accounts_of c' s' t)
  else accounts_of c' s' t.
Proof.
  intros H. unfold accounts_of, insert_account.
  rewrite find_subclass_on_subclass. case_tags; auto. now rewrite H.
Qed.

Lemma insert_account_find_subclass c s a d t sd :
  find_subclass c s t = Some sd ->
  exists sd', find_subclass c s (insert_account c s a d t) = Some sd'.
Proof.
  intros H. unfold insert_account. rewrite find_subclass_on_subclass.
  rewrite !String.eqb_refl, H. simpl. eauto.
Qed.

Lemma accumulate_total c s v t :
  portfolio_total (accumulate c s v t) =
  if truthy v then dec_add (portfolio_total t) v else portfolio_total t.
Proof. unfold accumulate. simpl. now destruct (truthy v). Qed.

Lemma accumulate_class_total c s v c' t sd :
  find_subclass c s t = Some sd ->
  class_total_of c' (accumulate c s v t) =
  if String.eqb c c' then dec_add (class_total_of c' t) v else class_total_of c' t.
Proof.
  intros H. destruct (find_subclass_class _ _ _ _ H) as [cd Hcd].
  unfold class_total_of, accumulate, on_subclass.
  rewrite !find_class_on_class.
  assert (forall t0 v0, find_class c' (if truthy v0 then add_portfolio_total v0 t0 else t0)
            = find_class c' t0) as -> by (intros; now destruct (truthy _)).
  case_tags; auto. rewrite Hcd. reflexivity.
Qed.

Lemma find_subclass_add_total v c s t :
  find_subclass c s (if truthy v then add_portfolio_total v t else t)
  = find_subclass c s t.
Proof. now destruct (truthy v). Qed.

Lemma accumulate_find_subclass c s v c' s' t :
  find_subclass c' s' (accumulate c s v t) =
  if String.eqb c c' && String.eqb s s'
  then option_map (add_subclass_total v) (find_subclass c' s' t)
  else find_subclass c' s' t.
Proof.
  unfold accumulate. rewrite find_subclass_on_subclass.
  assert (forall f, find_subclass c' s' (on_class c f
            (if truthy v then add_portfolio_total v t else t))
          = match find_class c' (on_class c f t) with
            | Some cd => Dict.get s' (asset_subclasses cd)
            | None => None
            end) as Hf.
  { intros f. unfold find_subclass. now destruct (truthy v). }
  rewrite Hf, find_class_on_class. unfold find_subclass.
  case_tags; case_finds; auto.
Qed.

Lemma accumulate_subclass_total c s v c' s' t sd :
  find_subclass c s t = Some sd ->
  subclass_total_of c' s' (accumulate c s v t) =
  if String.eqb c c' && String.eqb s s'
  then dec_add (subclass_total_of c' s' t) v else subclass_total_of c' s' t.
Proof.
  intros H. unfold subclass_total_of. rewrite accumulate_find_subclass.
  case_tags; auto. now rewrite H.
Qed.

Lemma accumulate_accounts c s v c' s' t :
  accounts_of c' s' (accumulate c s v t) = accounts_of c' s' t.
Proof.
  unfold accounts_of. rewrite accumulate_find_subclass.
  case_tags; case_finds; auto.
Qed.

End Observations.

(** What a node adds to the totals it is counted in: its market value when
    its cost is in the operating currency, nothing otherwise. *)
Definition contribution (L : Ledger) (operating_currency : string)
  (date : option Z) (node : TreeNode) : Decimal :=
  match balance node with
  | [] => 0
  | _ :: _ =>
      match _convert_cost L operating_currency node date with
      | inr conv =>
          if String.eqb operating_currency (currency conv) then
            match value_account L operating_currency date node (number conv) with
            | inr (_, v) => v
            | inl _ => 0
            end
          else 0
      | inl _ => 0
      end
  end.

(** The tree after an account with the record [d] and the value [v] has
    been entered under the tags [c] and [s]. *)
Definition enter (c s a : string) (d : account_data) (v : Decimal)
  (t : portfolio_tree) : portfolio_tree :=
  accumulate c s v (insert_account c s a d (ensure_subclass c s (ensure_class c t))).

Lemma process_node_unfold L cd op date t e node :
  process_node L cd op date (t, e) node =
  match balance node with
  | [] => ok (t, e)
  | _ :: _ =>
      let c := asset_class_of cd node in
      let s := asset_subclass_of cd node in
      conv <-? _convert_cost L op node date ;
      if String.eqb op (currency conv) then
        '(d, v) <-? value_account L op date node (number conv) ;
        ok (enter c s (name node) d v t, e)
      else
        ok (ensure_subclass c s (ensure_class c t),
            e ++ [not_in_operating_currency (name node) op])
  end.
Proof.
  unfold process_node. destruct (balance node); [reflexivity|].
  cbv zeta. destruct (_convert_cost L op node date) as [x|conv]; [reflexivity|].
  simpl. destruct (String.eqb op (currency conv)); reflexivity.
Qed.

Section Enter.
Implicit Types (t : portfolio_tree) (c s a : string).

Lemma enter_total c s a d v t :
  portfolio_total (enter c s a d v t) =
  if truthy v then dec_add (portfolio_total t) v else portfolio_total t.
Proof.
  unfold enter. rewrite accumulate_total, insert_account_total.
  destruct (ensure_subclass_same_content c s (ensure_class c t)) as [-> _].
  destruct (ensure_class_same_content c t) as [-> _]. reflexivity.
Qed.

Lemma enter_class_total c s a d v c' t :
  class_total_of c' (enter c s a d v t) =
  if String.eqb c c' then dec_add (class_total_of c' t) v else class_total_of c' t.
Proof.
  unfold enter. destruct (ensured c s t) as [sd Hsd].
  destruct (insert_account_find_subclass c s a d _ _ Hsd) as [sd' Hsd'].
  rewrite (accumulate_class_total _ _ _ _ _ _ Hsd'), insert_account_class_total.
  destruct (ensure_subclass_same_content c s (ensure_class c t)) as (_ & -> & _).
  destruct (ensure_class_same_content c t) as (_ & -> & _). reflexivity.
Qed.

Lemma enter_subclass_total c s a d v c' s' t :
  subclass_total_of c' s' (enter c s a d v t) =
  if String.eqb c c' && String.eqb s s'
  then dec_add (subclass_total_of c' s' t) v else subclass_total_of c' s' t.
Proof.
  unfold enter. destruct (ensured c s t) as [sd Hsd].
  destruct (insert_account_find_subclass c s a d _ _ Hsd) as [sd' Hsd'].
  rewrite (accumulate_subclass_total _ _ _ _ _ _ _ Hsd'),
    insert_account_subclass_total.
  destruct (ensure_subclass_same_content c s (ensure_class c t)) as (_ & _ & -> & _).
  destruct (ensure_class_same_content c t) as (_ & _ & -> & _). reflexivity.
Qed.

Lemma enter_accounts c s a d v c' s' t :
  accounts_of c' s' (enter c s a d v t) =
  if String.eqb c c' && String.eqb s s'
  then Dict.set a d (accounts_of c' s' t) else accounts_of c' s' t.
Proof.
  unfold enter. destruct (ensured c s t) as [sd Hsd].
  rewrite accumulate_accounts, (insert_account_accounts _ _ _ _ _ _ _ _ Hsd).
  destruct (ensure_subclass_same_content c s (ensure_class c t)) as (_ & _ & _ & ->).
  destruct (ensure_class_same_content c t) as (_ & _ & _ & ->). reflexivity.
Qed.

Lemma enter_same_content c s a d v t t' :
  same_content t t' -> same_content (enter c s a d v t) (enter c s a d v t').
Proof.
  intros (H1 & H2 & H3 & H4). repeat split; intros.
  - now rewrite !enter_total, H1.
  - now rewrite !enter_class_total, H2.
  - now rewrite !enter_subclass_total, H3.
  - now rewrite !enter_accounts, H4.
Qed.

Lemma same_content_refl t : same_content t t.
Proof. repeat split. Qed.

Lemma same_content_sym t t' : same_content t t' -> same_content t' t.
Proof. intros (H1 & H2 & H3 & H4). repeat split; intros; congruence. Qed.

Lemma same_content_trans t1 t2 t3 :
  same_content t1 t2 -> same_content t2 t3 -> same_content t1 t3.
Proof.
  intros (H1 & H2 & H3 & H4) (G1 & G2 & G3 & G4).
  repeat split; intros; congruence.
Qed.

End Enter.

Section FirstLoop.
Context (L : Ledger) (cd : Dict.t (Dict.t string)) (op : string)
  (date : option Z).

Lemma process_nodes_app st xs ys :
  process_nodes L cd op date st (xs ++ ys) =
  (st' <-? process_nodes L cd op date st xs ;
   process_nodes L cd op date st' ys).
Proof.
  revert st. induction xs as [|x xs IH]; intros st; simpl; auto.
  destruct (process_node L cd op date st x); simpl; auto.
Qed.

(** The outcome of a node does not depend on the tree it is entered in:
    on trees with the same content it fails alike, or succeeds alike and
    appends the same errors. *)
Lemma process_node_same_content t t' e e' node :
  same_content t t' ->
  match process_node L cd op date (t, e) node with
  | inl x => process_node L cd op date (t', e') node = inl x
  | inr (t1, e1) =>
      exists t1' x, e1 = e ++ x /\
        process_node L cd op date (t', e') node = ok (t1', e' ++ x) /\
        same_content t1 t1'
  end.
Proof.
  intros Hsame. rewrite !process_node_unfold.
  destruct (balance node).
  { exists t', []. rewrite !app_nil_r. auto. }
  cbv zeta. destruct (_convert_cost L op node date) as [x|conv]; simpl; auto.
  destruct (String.eqb op (currency conv)).
  - destruct (value_account L op date node (number conv)) as [x|[d v]]; simpl; auto.
    eexists _, []. rewrite !app_nil_r.
    split; [reflexivity|]. split; [reflexivity|].
    now apply enter_same_content.
  - eexists _, _. split; [reflexivity|]. split; [reflexivity|].
    eapply same_content_trans; [apply ensure_subclass_same_content|].
    eapply same_content_trans; [apply ensure_class_same_content|].
    eapply same_content_trans; [exact Hsame|].
    apply same_content_sym.
    eapply same_content_trans; [apply ensure_subclass_same_content|].
    apply ensure_class_same_content.
Qed.

Lemma process_nodes_same_content nodes : forall t t' e e',
  same_content t t' ->
  match process_nodes L cd op date (t, e) nodes with
  | inl x => process_nodes L cd op date (t', e') nodes = inl x
  | inr (t1, e1) =>
      exists t1' x, e1 = e ++ x /\
        process_nodes L cd op date (t', e') nodes = ok (t1', e' ++ x) /\
        same_content t1 t1'
  end.
Proof.
  induction nodes as [|n nodes IH]; intros t t' e e' Hsame; cbn [process_nodes].
  - exists t', []. rewrite !app_nil_r. auto.
  - pose proof (process_node_same_content t t' e e' n Hsame) as Hn.
    destruct (process_node L cd op date (t, e) n) as [x|[t1 e1]]; cbn [rbind].
    + now rewrite Hn.
    + destruct Hn as (t1' & x & -> & -> & Hsame1). cbn [rbind].
      specialize (IH t1 t1' (e ++ x) (e' ++ x) Hsame1).
      destruct (process_nodes L cd op date (t1, e ++ x) nodes) as [y|[t2 e2]]; auto.
      destruct IH as (t2' & y & -> & -> & Hsame2).
      exists t2', (x ++ y). rewrite !app_assoc. auto.
Qed.

(** A node whose cost is not in the operating currency adds the warning
    and leaves the content of the tree as it is. *)
Lemma process_node_mismatch t e node conv :
  balance node <> [] ->
  _convert_cost L op node date = ok conv ->
  currency conv <> op ->
  exists t1,
    process_node L cd op date (t, e) node =
      ok (t1, e ++ [not_in_operating_currency (name node) op]) /\
    same_content t1 t.
Proof.
  intros Hb Hc Hne. rewrite process_node_unfold.
  destruct (balance node); [congruence|]. cbv zeta. rewrite Hc. simpl.
  destruct (String.eqb_spec op (currency conv)); [congruence|].
  eexists. split; [reflexivity|].
  eapply same_content_trans; [apply ensure_subclass_same_content|].
  apply ensure_class_same_content.
Qed.

End FirstLoop.

(** ** No key occurs twice in a dictionary of the tree *)

Definition distinct_subclass (sd : subclass_dict) : Prop :=
  NoDup (Dict.keys (accounts sd)).

Definition distinct_class (cls : class_dict) : Prop :=
  NoDup (Dict.keys (asset_subclasses cls)) /\
  Forall (fun kv => distinct_subclass (snd kv)) (asset_subclasses cls).

Definition distinct_keys (t : portfolio_tree) : Prop :=
  NoDup (Dict.keys (asset_classes t)) /\
  Forall (fun kv => distinct_class (snd kv)) (asset_classes t).

Section Distinct.
Context (L : Ledger) (cd : Dict.t (Dict.t string)) (op : string)
  (date : option Z).
Implicit Types (t : portfolio_tree) (c s a : string).

Lemma distinct_on_class c (f : class_dict -> class_dict) t :
  (forall cls, distinct_class cls -> distinct_class (f cls)) ->
  distinct_keys t -> distinct_keys (on_class c f t).
Proof.
  intros Hf [H1 H2]. unfold on_class, set_classes.
  split; cbn [asset_classes].
  - now rewrite keys_alter.
  - apply Forall_alter; auto.
Qed.

Lemma distinct_on_subclass c s (f : subclass_dict -> subclass_dict) t :
  (forall sd, distinct_subclass sd -> distinct_subclass (f sd)) ->
  distinct_keys t -> distinct_keys (on_subclass c s f t).
Proof.
  intros Hf. apply distinct_on_class. intros cls [H1 H2].
  unfold set_subclasses. split; cbn [asset_subclasses].
  - now rewrite keys_alter.
  - apply Forall_alter; auto.
Qed.

Lemma distinct_ensure_class c t : distinct_keys t -> distinct_keys (ensure_class c t).
Proof.
  intros [H1 H2]. unfold ensure_class. destruct (negb _); [|now split].
  unfold set_classes. split; cbn [asset_classes].
  - now apply NoDup_keys_set.
  - apply Forall_set; auto. split; cbn; constructor.
Qed.

Lemma distinct_ensure_subclass c s t :
  distinct_keys t -> distinct_keys (ensure_subclass c s t).
Proof.
  intros H. unfold ensure_subclass. destruct (negb _); [|exact H].
  apply distinct_on_class; [|exact H]. intros cls [H1 H2].
  unfold set_subclasses. split; cbn [asset_subclasses].
  - now apply NoDup_keys_set.
  - apply Forall_set; auto. unfold distinct_subclass. cbn. constructor.
Qed.

Lemma distinct_enter c s a d v t : distinct_keys t -> distinct_keys (enter c s a d v t).
Proof.
  intros H. unfold enter, accumulate, insert_account.
  apply distinct_on_subclass; [auto|].
  apply distinct_on_class; [intros cls Hc; exact Hc|].
  assert (forall t', distinct_keys t' ->
            distinct_keys (if truthy v then add_portfolio_total v t' else t'))
    as Hadd by (intros t' Ht'; now destruct (truthy v)).
  apply Hadd. apply distinct_on_subclass.
  - intros sd Hsd. unfold distinct_subclass, set_accounts in *.
    cbn [accounts]. now apply NoDup_keys_set.
  - now apply distinct_ensure_subclass, distinct_ensure_class.
Qed.

Lemma distinct_process_node t e t' e' node :
  process_node L cd op date (t, e) node = ok (t', e') ->
  distinct_keys t -> distinct_keys t'.
Proof.
  rewrite process_node_unfold.
  destruct (balance node); [now inversion 1|]. cbv zeta.
  destruct (_convert_cost L op node date) as [x|conv]; [discriminate|]. cbn [rbind].
  destruct (String.eqb op (currency conv)).
  - destruct (value_account L op date node (number conv)) as [x|[d v]];
      [discriminate|]. cbn [rbind]. inversion 1; subst. apply distinct_enter.
  - inversion 1; subst. intros Hd.
    now apply distinct_ensure_subclass, distinct_ensure_class.
Qed.

Lemma distinct_process_nodes nodes : forall t e t' e',
  process_nodes L cd op date (t, e) nodes = ok (t', e') ->
  distinct_keys t -> distinct_keys t'.
Proof.
  induction nodes as [|n nodes IH]; intros t e t' e'; cbn [process_nodes].
  - now inversion 1.
  - destruct (process_node L cd op date (t, e) n) as [x|[t1 e1]] eqn:E;
      cbn [rbind]; [discriminate|].
    intros H Hd. eapply IH; [exact H|]. eapply distinct_process_node; eauto.
Qed.

End Distinct.

(** ** The second loop *)

Definition succeeds {A} (r : result A) : Prop :=
  match r with inr _ => True | inl _ => False end.

(** What an allocation evaluates to when it does not raise. *)
Definition allocation_value (part total : Decimal) : Decimal :=
  match allocation part total with inr v => v | inl _ => ZERO end.

(** The tree with every allocation filled in: what the second loop makes
    of a tree when none of its allocations raises. *)
Definition filled_account (portfolio_total class_total subclass_total : Decimal)
  (account_dict : account_data) : account_data :=
  let v := balance_market_value account_dict in
  mkAccount v (income_gain_loss account_dict) (gain_loss_percentage account_dict)
    (latest_price_date account_dict)
    (Some (allocation_value v portfolio_total))
    (Some (allocation_value v class_total))
    (Some (allocation_value v subclass_total)).

Definition filled_subclass (portfolio_total class_total : Decimal)
  (asset_subclass_dict : subclass_dict) : subclass_dict :=
  let subclass_total := asset_subclass_total asset_subclass_dict in
  mkSubclass subclass_total
    (allocation_value subclass_total portfolio_total)
    (asset_subclass_asset_class_allocation asset_subclass_dict)
    (map (fun kv => (fst kv,
            filled_account portfolio_total class_total subclass_total (snd kv)))
       (accounts asset_subclass_dict))
    (Some (allocation_value subclass_total class_total)).

Definition filled_class (portfolio_total : Decimal)
  (asset_class_dict : class_dict) : class_dict :=
  let class_total := asset_class_total asset_class_dict in
  mkClass (allocation_value class_total portfolio_total) class_total
    (map (fun kv => (fst kv, filled_subclass portfolio_total class_total (snd kv)))
       (asset_subclasses asset_class_dict)).

Definition filled (t : portfolio_tree) : portfolio_tree :=
  mkTree (portfolio_total t)
    (map (fun kv => (fst kv, filled_class (portfolio_total t) (snd kv)))
       (asset_classes t)).

(** None of the allocations of the second loop raises. *)
Definition allocatable (t : portfolio_tree) : Prop :=
  forall c s,
    succeeds (allocation (class_total_of c t) (portfolio_total t)) /\
    succeeds (allocation (subclass_total_of c s t) (portfolio_total t)) /\
    succeeds (allocation (subclass_total_of c s t) (class_total_of c t)) /\
    forall a acc, Dict.get a (accounts_of c s t) = Some acc ->
      succeeds (allocation (balance_market_value acc) (portfolio_total t)) /\
      succeeds (allocation (balance_market_value acc) (class_total_of c t)) /\
      succeeds (allocation (balance_market_value acc) (subclass_total_of c s t)).

(** A step of the second loop [f], what it assigns when it does not raise
    [g], and when it does not raise [P]. *)
Definition step_spec {A} (f : A -> result A) (g : A -> A) (P : A -> Prop) : Prop :=
  forall x,
    match f x with
    | inr y => y = g x /\ P x
    | inl e => e = InvalidOperation /\ ~ P x
    end.

Section SecondLoop.
Implicit Types (t : portfolio_tree) (c s a : string).

Lemma allocation_spec (part total : Decimal) :
  match allocation part total with
  | inr v => v = allocation_value part total
  | inl e => e = InvalidOperation
  end.
Proof.
  unfold allocation_value. destruct (allocation part total) as [e|v] eqn:E;
    [|reflexivity].
  unfold allocation, dec_div in E. destruct (Qeq_bool total ZERO); [discriminate|].
  cbn [rbind] in E. unfold round2 in E.
  destruct (Z.abs _ <? _)%Z; now inversion E.
Qed.

Lemma allocation_succeeds (part total : Decimal) :
  succeeds (allocation part total) ->
  allocation part total = ok (allocation_value part total).
Proof.
  unfold allocation_value. now destruct (allocation part total).
Qed.

Lemma allocation_fails (part total : Decimal) :
  ~ succeeds (allocation part total) ->
  allocation part total = raise InvalidOperation.
Proof.
  pose proof (allocation_spec part total) as H.
  destruct (allocation part total); [now subst | intros []; exact I].
Qed.

(** Nothing of a total of zero is allocated without an exception. *)
Lemma allocation_of_zero (total : Decimal) : succeeds (allocation ZERO total).
Proof.
  unfold allocation, dec_div. destruct (Qeq_bool total ZERO) eqn:E; [exact I|].
  cbn [rbind].
  rewrite (round_prec_zero (ZERO / total)) by (unfold ZERO, Qdiv; apply Qmult_0_l).
  vm_compute. exact I.
Qed.

Lemma for_values_spec {A} (f : A -> result A) (g : A -> A) (P : A -> Prop)
  (d : Dict.t A) :
  step_spec f g P ->
  match for_values f d with
  | inr d' => d' = map (fun kv => (fst kv, g (snd kv))) d /\
              Forall (fun kv => P (snd kv)) d
  | inl e => e = InvalidOperation /\ ~ Forall (fun kv => P (snd kv)) d
  end.
Proof.
  intros Hf. induction d as [|[k x] d IH]; cbn [for_values map fst snd].
  - split; [reflexivity | constructor].
  - specialize (Hf x). destruct (f x) as [e|y]; cbn [rbind].
    + destruct Hf as [-> Hn]. split; [reflexivity|].
      intros H. apply Forall_cons in H as [H _]. now apply Hn.
    + destruct Hf as [-> Hx].
      destruct (for_values f d) as [e|d']; cbn [rbind].
      * destruct IH as [-> Hn]. split; [reflexivity|].
        intros H. apply Forall_cons in H as [_ H]. now apply Hn.
      * destruct IH as [-> Hd]. split; [reflexivity|].
        apply Forall_cons. now split.
Qed.

(** The conditions under which the loop over the accounts of a subclass,
    over the subclasses of a class and over the classes goes through. *)
Definition account_allocatable (pt ct st : Decimal) (acc : account_data) : Prop :=
  succeeds (allocation (balance_market_value acc) pt) /\
  succeeds (allocation (balance_market_value acc) ct) /\
  succeeds (allocation (balance_market_value acc) st).

Definition subclass_allocatable (pt ct : Decimal) (sd : subclass_dict) : Prop :=
  succeeds (allocation (asset_subclass_total sd) pt) /\
  succeeds (allocation (asset_subclass_total sd) ct) /\
  Forall (fun kv => account_allocatable pt ct (asset_subclass_total sd) (snd kv))
    (accounts sd).

Definition class_allocatable (pt : Decimal) (cls : class_dict) : Prop :=
  succeeds (allocation (asset_class_total cls) pt) /\
  Forall (fun kv => subclass_allocatable pt (asset_class_total cls) (snd kv))
    (asset_subclasses cls).

Ltac allocation_step p t :=
  let H := fresh "H" in
  pose proof (allocation_spec p t) as H;
  destruct (allocation p t) as [?e|?v]; cbn [rbind succeeds];
  [subst; split; [reflexivity | tauto] | subst].

Lemma allocate_account_spec pt ct st :
  step_spec (allocate_account pt ct st) (filled_account pt ct st)
    (account_allocatable pt ct st).
Proof.
  intros acc. unfold allocate_account, filled_account, account_allocatable.
  cbv zeta.
  allocation_step (balance_market_value acc) pt.
  allocation_step (balance_market_value acc) ct.
  allocation_step (balance_market_value acc) st.
  repeat split.
Qed.

Lemma allocate_subclass_spec pt ct :
  step_spec (allocate_subclass pt ct) (filled_subclass pt ct)
    (subclass_allocatable pt ct).
Proof.
  intros sd. unfold allocate_subclass, filled_subclass, subclass_allocatable.
  cbv zeta.
  allocation_step (asset_subclass_total sd) pt.
  allocation_step (asset_subclass_total sd) ct.
  pose proof (for_values_spec _ _ _ (accounts sd)
                (allocate_account_spec pt ct (asset_subclass_total sd))) as H.
  destruct (for_values _ (accounts sd)) as [e|accs]; cbn [rbind].
  - destruct H as [-> Hn]. split; [reflexivity | tauto].
  - destruct H as [-> Hall]. repeat split. exact Hall.
Qed.

Lemma allocate_class_spec pt :
  step_spec (allocate_class pt) (filled_class pt) (class_allocatable pt).
Proof.
  intros cls. unfold allocate_class, filled_class, class_allocatable. cbv zeta.
  allocation_step (asset_class_total cls) pt.
  pose proof (for_values_spec _ _ _ (asset_subclasses cls)
                (allocate_subclass_spec pt (asset_class_total cls))) as H.
  destruct (for_values _ (asset_subclasses cls)) as [e|subs]; cbn [rbind].
  - destruct H as [-> Hn]. split; [reflexivity | tauto].
  - destruct H as [-> Hall]. repeat split. exact Hall.
Qed.

Lemma allocate_spec t :
  match allocate t with
  | inr t' =>
      t' = filled t /\
      Forall (fun kv => class_allocatable (portfolio_total t) (snd kv))
        (asset_classes t)
  | inl e =>
      e = InvalidOperation /\
      ~ Forall (fun kv => class_allocatable (portfolio_total t) (snd kv))
          (asset_classes t)
  end.
Proof.
  unfold allocate, filled.
  pose proof (for_values_spec _ _ _ (asset_classes t)
                (allocate_class_spec (portfolio_total t))) as H.
  destruct (for_values _ (asset_classes t)) as [e|classes]; cbn [rbind].
  - exact H.
  - destruct H as [-> Hall]. now split.
Qed.

(** The classes, subclasses and accounts the loops visit are those the
    lookups find. *)
Lemma classes_allocatable t :
  allocatable t ->
  Forall (fun kv => distinct_class (snd kv)) (asset_classes t) ->
  NoDup (Dict.keys (asset_classes t)) ->
  Forall (fun kv => class_allocatable (portfolio_total t) (snd kv))
    (asset_classes t).
Proof.
  intros Hall Hdist Hnd. apply Forall_forall. intros [c cls] Hc.
  pose proof (proj1 (Forall_forall _ _) Hdist _ Hc) as [Hnd2 Hdist2].
  cbn [snd] in *.
  apply elem_of_get in Hc; [|exact Hnd].
  assert (class_total_of c t = asset_class_total cls) as Hct.
  { unfold class_total_of, find_class. now rewrite Hc. }
  split.
  - destruct (Hall c EmptyString) as (H & _). now rewrite Hct in H.
  - apply Forall_forall. intros [s sd] Hs.
    pose proof (proj1 (Forall_forall _ _) Hdist2 _ Hs) as Hnd3.
    unfold distinct_subclass in Hnd3. cbn [snd] in *.
    apply elem_of_get in Hs; [|exact Hnd2].
    assert (find_subclass c s t = Some sd) as Hfs.
    { unfold find_subclass, find_class. now rewrite Hc. }
    destruct (Hall c s) as (_ & H1 & H2 & H3).
    unfold subclass_total_of, accounts_of in H1, H2, H3.
    rewrite Hfs in H1, H2, H3. rewrite Hct in H2, H3.
    split; [exact H1|]. split; [exact H2|].
    apply Forall_forall. intros [a acc] Ha. cbn [snd].
    apply elem_of_get in Ha; [|exact Hnd3].
    exact (H3 _ _ Ha).
Qed.

Lemma allocatable_classes t :
  Forall (fun kv => class_allocatable (portfolio_total t) (snd kv))
    (asset_classes t) ->
  allocatable t.
Proof.
  intros Hall c s. rewrite Forall_forall in Hall.
  unfold class_total_of, subclass_total_of, accounts_of, find_subclass, find_class.
  destruct (Dict.get c (asset_classes t)) as [cls|] eqn:Hc.
  - apply get_elem_of in Hc. destruct (Hall _ Hc) as [H1 H2]. cbn [snd] in *.
    rewrite Forall_forall in H2.
    destruct (Dict.get s (asset_subclasses cls)) as [sd|] eqn:Hs.
    + apply get_elem_of in Hs. destruct (H2 _ Hs) as (G1 & G2 & G3).
      cbn [snd] in *. rewrite Forall_forall in G3.
      repeat split; auto; apply get_elem_of in H; apply (G3 _ H).
    + repeat split; auto using allocation_of_zero; discriminate.
  - repeat split; auto using allocation_of_zero; discriminate.
Qed.

(** The second loop returns the tree with its allocations filled in, or
    raises [InvalidOperation]. *)
Lemma allocate_ok t t' : allocate t = ok t' -> t' = filled t /\ allocatable t.
Proof.
  intros H. pose proof (allocate_spec t) as Hs. rewrite H in Hs.
  destruct Hs as [-> Hall]. split; [reflexivity|].
  now apply allocatable_classes.
Qed.

Lemma allocate_allocatable t :
  distinct_keys t -> allocatable t -> allocate t = ok (filled t).
Proof.
  intros [Hnd Hdist] Hall. pose proof (allocate_spec t) as Hs.
  destruct (allocate t) as [e|t'].
  - destruct Hs as [_ Hn]. exfalso. apply Hn.
    now apply classes_allocatable.
  - now destruct Hs as [-> _].
Qed.

Lemma allocate_raises t x :
  distinct_keys t -> allocate t = raise x ->
  x = InvalidOperation /\ ~ allocatable t.
Proof.
  intros [Hnd Hdist] H. pose proof (allocate_spec t) as Hs. rewrite H in Hs.
  destruct Hs as [-> Hn]. split; [reflexivity|].
  intros Hall. apply Hn. now apply classes_allocatable.
Qed.

Lemma find_class_filled c t :
  find_class c (filled t) =
  option_map (filled_class (portfolio_total t)) (find_class c t).
Proof. unfold find_class, filled. simpl. apply get_map. Qed.

Lemma class_total_filled c t :
  class_total_of c (filled t) = class_total_of c t.
Proof.
  unfold class_total_of. rewrite find_class_filled.
  now destruct (find_class c t).
Qed.

Lemma find_subclass_filled c s t :
  find_subclass c s (filled t) =
  option_map (filled_subclass (portfolio_total t) (class_total_of c t))
    (find_subclass c s t).
Proof.
  unfold find_subclass, class_total_of. rewrite find_class_filled.
  destruct (find_class c t) as [cls|]; simpl; auto.
  apply get_map.
Qed.

Lemma subclass_total_filled c s t :
  subclass_total_of c s (filled t) = subclass_total_of c s t.
Proof.
  unfold subclass_total_of. rewrite find_subclass_filled.
  now destruct (find_subclass c s t).
Qed.

Lemma accounts_filled c s t :
  accounts_of c s (filled t) =
  map (fun kv => (fst kv,
         filled_account (portfolio_total t) (class_total_of c t)
           (subclass_total_of c s t) (snd kv)))
    (accounts_of c s t).
Proof.
  unfold accounts_of, subclass_total_of. rewrite find_subclass_filled.
  now destruct (find_subclass c s t).
Qed.

Lemma find_account_filled c s a t :
  find_account c s a (filled t) =
  option_map (filled_account (portfolio_total t) (class_total_of c t)
                (subclass_total_of c s t))
    (find_account c s a t).
Proof.
  unfold find_account, subclass_total_of. rewrite find_subclass_filled.
  destruct (find_subclass c s t) as [sd|]; simpl; auto.
  apply get_map.
Qed.

Lemma filled_same_content t t' :
  same_content t t' -> same_content (filled t) (filled t').
Proof.
  intros (H1 & H2 & H3 & H4). repeat split; intros.
  - exact H1.
  - now rewrite !class_total_filled.
  - now rewrite !subclass_total_filled.
  - now rewrite !accounts_filled, H1, H2, H3, H4.
Qed.

Lemma allocatable_same_content t t' :
  same_content t t' -> allocatable t -> allocatable t'.
Proof.
  intros (H1 & H2 & H3 & H4) Hall c s.
  rewrite <- H1, <- H2, <- H3, <- H4. apply Hall.
Qed.

(** Two trees with the same content are allocated alike. *)
Lemma allocate_same_content t t' :
  distinct_keys t -> distinct_keys t' -> same_content t t' ->
  match allocate t with
  | inl x => allocate t' = raise x
  | inr u => exists u', allocate t' = ok u' /\ same_content u u'
  end.
Proof.
  intros Hd Hd' Hsame.
  destruct (allocate t) as [x|u] eqn:E.
  - pose proof (allocate_spec t) as Hs. rewrite E in Hs. destruct Hs as [-> Hn].
    destruct (allocate t') as [y|u'] eqn:E'.
    + pose proof (allocate_spec t') as Hs. rewrite E' in Hs. now destruct Hs as [-> _].
    + exfalso. apply Hn. destruct Hd as [Hnd Hdist].
      apply classes_allocatable; auto.
      apply (allocatable_same_content t'); [now apply same_content_sym|].
      now apply allocate_ok in E'.
  - apply allocate_ok in E as [-> Hall].
    exists (filled t'). split.
    + apply allocate_allocatable; [exact Hd'|].
      now apply (allocatable_same_content t).
    + now apply filled_same_content.
Qed.

End SecondLoop.

(** The second loop in a hypothesis [H] went through. *)
Ltac second_loop H :=
  match type of H with
  | context [allocate ?t] =>
      let x := fresh "x" in
      let u := fresh "u" in
      let E := fresh "Hallocatable" in
      destruct (allocate t) as [x|u] eqn:E; cbn [rbind] in H; [discriminate|];
      apply allocate_ok in E as [-> E]
  end.

(** What a call of [_portfolio_data] that returns has done. *)
Lemma portfolio_data_ok L cd nodes date tree tys errors :
  _portfolio_data L cd nodes date = ok (tree, tys, errors) ->
  exists op others t,
    options_operating_currency L = op :: others /\
    process_nodes L cd op date (empty_tree, []) nodes = ok (t, errors) /\
    tree = filled t /\ tys = types /\ allocatable t /\ distinct_keys t.
Proof.
  unfold _portfolio_data. intros Hrun.
  destruct (options_operating_currency L) as [|op others]; [discriminate|].
  destruct (process_nodes L cd op date (empty_tree, []) nodes)
    as [x|[t e]] eqn:Hloop; cbn [rbind] in Hrun; [discriminate|].
  second_loop Hrun. inversion Hrun; subst tree tys errors; clear Hrun.
  exists op, others, t. split; [reflexivity|]. split; [exact Hloop|].
  do 2 (split; [reflexivity|]). split; [exact Hallocatable|].
  eapply distinct_process_nodes; [exact Hloop|]. split; constructor.
Qed.

(** ** Accounts without a price, accounts in another currency *)

Section Accounts.
Context (L : Ledger) (cd : Dict.t (Dict.t string)) (op : string)
  (date : option Z).
Implicit Types (t : portfolio_tree) (c s a : string).

Lemma find_account_accounts_of c s a t :
  find_account c s a t = Dict.get a (accounts_of c s t).
Proof. unfold find_account, accounts_of. now destruct (find_subclass c s t). Qed.

Lemma find_account_enter c s a d v t :
  find_account c s a (enter c s a d v t) = Some d.
Proof.
  rewrite find_account_accounts_of, enter_accounts, !String.eqb_refl. simpl.
  apply get_set_eq.
Qed.

Lemma find_account_enter_other c s a c' s' a' d v t :
  a' <> a ->
  find_account c s a (enter c' s' a' d v t) = find_account c s a t.
Proof.
  intros Hne. rewrite !find_account_accounts_of, enter_accounts.
  destruct (_ && _); auto. now apply get_set_ne.
Qed.


Lemma find_account_same_content c s a t t' :
  same_content t t' -> find_account c s a t = find_account c s a t'.
Proof. intros (_ & _ & _ & H). now rewrite !find_account_accounts_of, H. Qed.

(** A later node with another name leaves the record of an account. *)
Lemma process_node_other_account c s a t e t' e' node :
  name node <> a ->
  process_node L cd op date (t, e) node = ok (t', e') ->
  find_account c s a t' = find_account c s a t.
Proof.
  intros Hne. rewrite process_node_unfold.
  destruct (balance node); [now inversion 1|]. cbv zeta.
  destruct (_convert_cost L op node date) as [x|conv]; [discriminate|]. simpl.
  destruct (String.eqb op (currency conv)).
  - destruct (value_account L op date node (number conv)) as [x|[d v]];
      [discriminate|]. simpl. inversion 1; subst.
    now apply find_account_enter_other.
  - inversion 1; subst. apply find_account_same_content.
    eapply same_content_trans; [apply ensure_subclass_same_content|].
    apply ensure_class_same_content.
Qed.


Lemma process_nodes_other_accounts c s a nodes : forall t e t' e',
  Forall (fun n => name n <> a) nodes ->
  process_nodes L cd op date (t, e) nodes = ok (t', e') ->
  find_account c s a t' = find_account c s a t.
Proof.
  induction nodes as [|n nodes IH]; intros t e t' e' Hall; cbn [process_nodes].
  - now inversion 1.
  - inversion Hall as [|? ? Hn Hrest]; subst.
    destruct (process_node L cd op date (t, e) n) as [x|[t1 e1]] eqn:E;
      cbn [rbind]; [discriminate|].
    intros H. rewrite (IH _ _ _ _ Hrest H).
    eapply process_node_other_account; eauto.
Qed.


(** Every error of the first loop is the warning of one of its nodes. *)
Lemma process_nodes_errors nodes : forall t e t' e',
  process_nodes L cd op date (t, e) nodes = ok (t', e') ->
  exists x, e' = e ++ x /\
    Forall (fun m => exists n, n ∈ nodes /\
              m = not_in_operating_currency (name n) op) x.
Proof.
  induction nodes as [|n nodes IH]; intros t e t' e'; cbn [process_nodes].
  - inversion 1; subst. exists []. now rewrite app_nil_r.
  - destruct (process_node L cd op date (t, e) n) as [x|[t1 e1]] eqn:E;
      cbn [rbind]; [discriminate|].
    intros H. destruct (IH _ _ _ _ H) as (y & -> & Hy).
    assert (exists x, e1 = e ++ x /\
              Forall (fun m => m = not_in_operating_currency (name n) op) x)
      as (x & -> & Hx).
    { revert E. rewrite process_node_unfold.
      destruct (balance n); [inversion 1; subst; exists []; now rewrite app_nil_r|].
      cbv zeta.
      destruct (_convert_cost L op n date) as [?|conv]; [discriminate|]. simpl.
      destruct (String.eqb op (currency conv)).
      - destruct (value_account L op date n (number conv)) as [?|[d v]];
          [discriminate|]. simpl. inversion 1; subst.
        exists []. now rewrite app_nil_r.
      - inversion 1; subst. eexists. split; [reflexivity|]. now constructor. }
    exists (x ++ y). rewrite app_assoc. split; auto.
    apply Forall_app. split.
    + eapply Forall_impl; [exact Hx|]. intros m ->. exists n. split; auto. left.
    + eapply Forall_impl; [exact Hy|]. intros m (n' & ? & ->).
      exists n'. split; auto. now right.
Qed.

End Accounts.

Lemma append_length (a b : string) :
  String.length (a ++ b) = (String.length a + String.length b)%nat.
Proof.
  induction a as [|c a IH]; [reflexivity|].
  change (S (String.length (a ++ b)) = S (String.length a + String.length b)).
  now rewrite IH.
Qed.

Lemma append_inj_l (a b r : string) : (a ++ r = b ++ r)%string -> a = b.
Proof.
  revert b. induction a as [|x a IH]; intros [|y b] H; auto.
  - apply (f_equal String.length) in H.
    rewrite !append_length in H. cbn in H. lia.
  - apply (f_equal String.length) in H.
    rewrite !append_length in H. cbn in H. lia.
  - change (String x (a ++ r) = String y (b ++ r)) in H.
    inversion H; subst. f_equal. auto.
Qed.

Lemma append_inj_r (p a b : string) : (p ++ a = p ++ b)%string -> a = b.
Proof.
  induction p as [|c p IH]; intros H; [exact H|].
  change (String c (p ++ a) = String c (p ++ b)) in H.
  inversion H; auto.
Qed.

Lemma not_in_operating_currency_inj (a b op : string) :
  not_in_operating_currency a op = not_in_operating_currency b op -> a = b.
Proof.
  unfold not_in_operating_currency. intros H.
  apply append_inj_r in H. now apply append_inj_l in H.
Qed.

(** With a known price and a zero cost, [_asset_info] does divide by
    zero: the division is not guarded there. *)
Lemma asset_info_zero_cost_raises L op node date conv :
  _convert_cost L op node date = ok conv ->
  number conv == 0 ->
  _asset_info L op node date = raise DivisionByZero \/
  _asset_info L op node date = raise InvalidOperation.
Proof.
  intros Hc Hz. unfold _asset_info. rewrite Hc. cbn [rbind].
  assert (Qeq_bool (number conv) 0 = true) as Hz' by now apply Qeq_bool_iff.
  unfold dec_div, ZERO. rewrite Hz'.
  match goal with |- context [Qeq_bool ?a 0] => destruct (Qeq_bool a 0) end;
    [right | left]; reflexivity.
Qed.

(** An account without a known price is entered with its cost as market
    value and no gain or loss; [_asset_info] is not called. *)
Lemma process_node_without_price
  (L : Ledger) (cd : Dict.t (Dict.t string)) (op : string) (date : option Z)
  (t : portfolio_tree) (e : list string) (node : TreeNode) (conv : Amount)
  (latest_price : option (option Z * option Decimal)) :
  balance node <> [] ->
  _convert_cost L op node date = ok conv ->
  currency conv = op ->
  _account_latest_price L node = ok latest_price ->
  no_latest_price latest_price = true ->
  let record := mkAccount (number conv) None None None None None None in
  value_account L op date node (number conv) = ok (record, number conv) /\
  process_node L cd op date (t, e) node =
    ok (enter (asset_class_of cd node) (asset_subclass_of cd node) (name node)
          record (number conv) t, e).
Proof.
  intros Hb Hc Hcur Hlp Hno record.
  assert (value_account L op date node (number conv) = ok (record, number conv))
    as Hv.
  { unfold value_account. rewrite Hlp. cbn [rbind]. now rewrite Hno. }
  split; [exact Hv|].
  rewrite process_node_unfold.
  destruct (balance node); [congruence|]. cbv zeta. rewrite Hc. cbn [rbind].
  rewrite Hcur, String.eqb_refl, Hv. reflexivity.
Qed.

(** C6: for an account whose cost basis is 0 and for which no latest price
    is known, entering the account raises nothing: the record is built
    without calling [_asset_info], the only place that divides by the cost,
    and its gain/loss percentage is [None]. *)
Theorem zero_cost_without_price_does_not_divide
  (L : Ledger) (cd : Dict.t (Dict.t string)) (op : string) (date : option Z)
  (t : portfolio_tree) (e : list string) (node : TreeNode) (conv : Amount)
  (latest_price : option (option Z * option Decimal)) :
  balance node <> [] ->
  _convert_cost L op node date = ok conv ->
  currency conv = op ->
  number conv == 0 ->
  _account_latest_price L node = ok latest_price ->
  no_latest_price latest_price = true ->
  let record := mkAccount (number conv) None None None None None None in
  value_account L op date node (number conv) = ok (record, number conv) /\
  exists t',
    process_node L cd op date (t, e) node = ok (t', e) /\
    find_account (asset_class_of cd node) (asset_subclass_of cd node)
      (name node) t' = Some record.
Proof.
  intros Hb Hc Hcur _ Hlp Hno record.
  destruct (process_node_without_price L cd op date t e node conv latest_price
              Hb Hc Hcur Hlp Hno) as [Hv Hstep].
  split; [exact Hv|].
  eexists. split; [exact Hstep|]. apply find_account_enter.
Qed.


(** C5: an account whose cost is in the operating currency and for which no
    latest price is known ends up, in the tree [_portfolio_data] returns,
    with a record whose market value is its cost, whose unrealized gain/loss,
    gain/loss percentage and latest price date are [None], and no warning
    about it is among the errors.  (Account names are those of a ledger:
    no two nodes share one.) *)
Theorem account_without_price_is_valued_at_cost
  (L : Ledger) (cd : Dict.t (Dict.t string)) (nodes : list TreeNode)
  (date : option Z) (tree : portfolio_tree) (tys : list coltype)
  (errors : list string) (op : string) (others : list string)
  (node : TreeNode) (conv : Amount)
  (latest_price : option (option Z * option Decimal)) :
  options_operating_currency L = op :: others ->
  _portfolio_data L cd nodes date = ok (tree, tys, errors) ->
  NoDup (map name nodes) ->
  node ∈ nodes ->
  balance node <> [] ->
  _convert_cost L op node date = ok conv ->
  currency conv = op ->
  _account_latest_price L node = ok latest_price ->
  no_latest_price latest_price = true ->
  exists record,
    find_account (asset_class_of cd node) (asset_subclass_of cd node)
      (name node) tree = Some record /\
    balance_market_value record = number conv /\
    income_gain_loss record = None /\
    gain_loss_percentage record = None /\
    latest_price_date record = None /\
    not_in_operating_currency (name node) op ∉ errors.
Proof.
  intros Hop Hrun Hnd Hin Hb Hc Hcur Hlp Hno.
  unfold _portfolio_data in Hrun. rewrite Hop in Hrun.
  destruct (process_nodes L cd op date (empty_tree, []) nodes)
    as [x|[t e]] eqn:Hloop; cbn [rbind] in Hrun; [discriminate|].
  second_loop Hrun. inversion Hrun; subst tree tys errors; clear Hrun.
  apply list_elem_of_split in Hin as (pre & post & ->).
  rewrite process_nodes_app in Hloop.
  destruct (process_nodes L cd op date (empty_tree, []) pre)
    as [x|[t1 e1]] eqn:Hpre; cbn [rbind] in Hloop; [discriminate|].
  cbn [process_nodes] in Hloop.
  destruct (process_node_without_price L cd op date t1 e1 node conv latest_price
              Hb Hc Hcur Hlp Hno) as [_ Hstep].
  rewrite Hstep in Hloop. cbn [rbind] in Hloop.
  rewrite map_app in Hnd. cbn [map] in Hnd.
  apply NoDup_app in Hnd as (_ & Hpre_ne & Hnd).
  apply NoDup_cons in Hnd as (Hpost_ne & _).
  assert (Forall (fun n => name n <> name node) post) as Hpost.
  { apply Forall_forall. intros n Hn Heq. apply Hpost_ne.
    rewrite <- Heq. apply list_elem_of_fmap. eauto. }
  pose proof (process_nodes_other_accounts L cd op date
                (asset_class_of cd node) (asset_subclass_of cd node) (name node)
                post _ _ _ _ Hpost Hloop) as Hfind.
  rewrite find_account_enter in Hfind.
  eexists. rewrite find_account_filled, Hfind. cbn [option_map].
  repeat (split; [reflexivity|]).
  destruct (process_nodes_errors L cd op date pre _ _ _ _ Hpre)
    as (x1 & -> & Hx1).
  destruct (process_nodes_errors L cd op date post _ _ _ _ Hloop)
    as (x2 & -> & Hx2).
  cbn [app]. rewrite not_elem_of_app. split.
  - intros Hm. rewrite Forall_forall in Hx1.
    destruct (Hx1 _ Hm) as (n & Hn & Heq).
    apply not_in_operating_currency_inj in Heq.
    apply (Hpre_ne (name node)); [|left].
    rewrite Heq. apply list_elem_of_fmap. eauto.
  - intros Hm. rewrite Forall_forall in Hx2.
    destruct (Hx2 _ Hm) as (n & Hn & Heq).
    apply not_in_operating_currency_inj in Heq.
    apply Hpost_ne. rewrite Heq. apply list_elem_of_fmap. eauto.
Qed.

(** ** Totals are sums *)



Section Sums.
Context {A : Type} (f : A -> Decimal).
Implicit Types (d : Dict.t A) (k : string).






End Sums.

Lemma truthy_false (v : Decimal) : truthy v = false -> v == 0.
Proof.
  unfold truthy, ZERO. destruct (Qeq_bool v 0) eqn:E; [|discriminate].
  intros _. now apply Qeq_bool_iff.
Qed.

Section TreeSums.
Implicit Types (t : portfolio_tree) (c s a : string).





(** The additions of [accumulate] are exact: none of the three sums is
    rounded. *)
Definition exact_step (c s : string) (v : Decimal) (t : portfolio_tree) : Prop :=
  dec_add (portfolio_total t) v == portfolio_total t + v /\
  dec_add (class_total_of c t) v == class_total_of c t + v /\
  dec_add (subclass_total_of c s t) v == subclass_total_of c s t + v.


Lemma entering_same_content c s a d t :
  same_content (insert_account c s a d (ensure_subclass c s (ensure_class c t))) t ->
  forall v, exact_step c s v t ->
  exact_step c s v (insert_account c s a d (ensure_subclass c s (ensure_class c t))).
Proof.
  intros (H1 & H2 & H3 & _) v. unfold exact_step. now rewrite H1, H2, H3.
Qed.



End TreeSums.


Definition in_class (cd : Dict.t (Dict.t string)) (c : string) (n : TreeNode)
  : bool :=
  String.eqb (asset_class_of cd n) c.

Definition in_subclass (cd : Dict.t (Dict.t string)) (c s : string) (n : TreeNode)
  : bool :=
  String.eqb (asset_class_of cd n) c && String.eqb (asset_subclass_of cd n) s.

(** The node is entered in the tree and in the totals: it has a balance
    and its cost is in the operating currency. *)
Definition entered (L : Ledger) (op : string) (date : option Z) (n : TreeNode)
  : bool :=
  match balance n with
  | [] => false
  | _ :: _ =>
      match _convert_cost L op n date with
      | inr conv => String.eqb op (currency conv)
      | inl _ => false
      end
  end.

(** A total as the loop computes it: the values of the nodes selected by
    [P] added one after the other, each sum rounded. *)
Definition running_total (L : Ledger) (op : string) (date : option Z)
  (P : TreeNode -> bool) (nodes : list TreeNode) (start : Decimal) : Decimal :=
  fold_left (fun total n =>
               if P n then dec_add total (contribution L op date n) else total)
    nodes start.


Section ClosedForm.
Context (L : Ledger) (cd : Dict.t (Dict.t string)) (op : string)
  (date : option Z).






(** Every total is the running total of the nodes entered under it. *)
Lemma process_node_running t e t' e' node :
  process_node L cd op date (t, e) node = ok (t', e') ->
  portfolio_total t' =
    (if truthy (contribution L op date node)
     then dec_add (portfolio_total t) (contribution L op date node)
     else portfolio_total t) /\
  (forall c, class_total_of c t' =
     if entered L op date node && in_class cd c node
     then dec_add (class_total_of c t) (contribution L op date node)
     else class_total_of c t) /\
  (forall c s, subclass_total_of c s t' =
     if entered L op date node && in_subclass cd c s node
     then dec_add (subclass_total_of c s t) (contribution L op date node)
     else subclass_total_of c s t).
Proof.
  rewrite process_node_unfold.
  unfold contribution, entered, in_class, in_subclass.
  destruct (balance node).
  { inversion 1; subst. repeat split. }
  cbv zeta.
  destruct (_convert_cost L op node date) as [x|conv]; [discriminate|].
  cbn [rbind].
  destruct (String.eqb op (currency conv)).
  - destruct (value_account L op date node (number conv)) as [x|[d v]];
      [discriminate|]. cbn [rbind]. inversion 1; subst.
    split; [apply enter_total|].
    split; intros; [apply enter_class_total | apply enter_subclass_total].
  - inversion 1; subst.
    assert (same_content (ensure_subclass (asset_class_of cd node)
               (asset_subclass_of cd node)
               (ensure_class (asset_class_of cd node) t)) t)
      as (H1 & H2 & H3 & _).
    { eapply same_content_trans; [apply ensure_subclass_same_content|].
      apply ensure_class_same_content. }
    cbn [andb]. repeat split; auto.
Qed.

Lemma process_nodes_running nodes : forall t e t' e',
  process_nodes L cd op date (t, e) nodes = ok (t', e') ->
  portfolio_total t' =
    running_total L op date (fun n => truthy (contribution L op date n)) nodes
      (portfolio_total t) /\
  (forall c, class_total_of c t' =
     running_total L op date (fun n => entered L op date n && in_class cd c n)
       nodes (class_total_of c t)) /\
  (forall c s, subclass_total_of c s t' =
     running_total L op date
       (fun n => entered L op date n && in_subclass cd c s n)
       nodes (subclass_total_of c s t)).
Proof.
  induction nodes as [|n nodes IH]; intros t e t' e'; cbn [process_nodes].
  - inversion 1; subst. repeat split.
  - destruct (process_node L cd op date (t, e) n) as [x|[t1 e1]] eqn:E;
      cbn [rbind]; [discriminate|].
    intros H. destruct (IH _ _ _ _ H) as (H1 & H2 & H3).
    destruct (process_node_running _ _ _ _ _ E) as (G1 & G2 & G3).
    cbn [running_total fold_left]. fold (running_total L op date).
    split; [|split]; intros.
    + rewrite H1, G1. reflexivity.
    + rewrite H2, G2. reflexivity.
    + rewrite H3, G3. reflexivity.
Qed.


(** ** Sums that are not rounded *)









End ClosedForm.




(** ** Allocations *)

Lemma allocation_guard (part total : Decimal) :
  (total == 0 -> allocation part total = ok ZERO) /\
  (~ total == 0 ->
   allocation part total =
     round2 (dec_mul (round_prec (part / total)) (100 # 1))).
Proof.
  unfold allocation, dec_div, ZERO. destruct (Qeq_bool total 0) eqn:E; split; auto.
  - apply Qeq_bool_iff in E. tauto.
  - intros H. apply Qeq_bool_iff in H. congruence.
Qed.

(** C3, as the code has it: at each of the four levels the allocation is
    [ZERO] whenever the ancestor total is zero and otherwise
    [round(part / total * 100, 2)], computed with the rounding of the
    decimal context after the division and after the multiplication, the
    zero test being made at every level on that level's own ancestor
    total.  (An allocation can be zero over a non-zero total: see
    [zero_allocation_of_nonzero_total].) *)
Theorem allocations_are_guarded_ratios
  (L : Ledger) (cd : Dict.t (Dict.t string)) (nodes : list TreeNode)
  (date : option Z) (tree : portfolio_tree) (tys : list coltype)
  (errors : list string) :
  _portfolio_data L cd nodes date = ok (tree, tys, errors) ->
  (forall part total,
     (total == 0 -> allocation part total = ok ZERO) /\
     (~ total == 0 ->
      allocation part total =
        round2 (dec_mul (round_prec (part / total)) (100 # 1)))) /\
  (forall c cls, (c, cls) ∈ asset_classes tree ->
     allocation (asset_class_total cls) (portfolio_total tree) =
       ok (cls_portfolio_allocation cls) /\
     forall s sub, (s, sub) ∈ asset_subclasses cls ->
       allocation (asset_subclass_total sub) (portfolio_total tree) =
         ok (sub_portfolio_allocation sub) /\
       (exists ca,
          sub_asset_class_allocation sub = Some ca /\
          allocation (asset_subclass_total sub) (asset_class_total cls) = ok ca) /\
       forall a acc, (a, acc) ∈ accounts sub ->
         exists pa ca sa,
           acc_portfolio_allocation acc = Some pa /\
           acc_asset_class_allocation acc = Some ca /\
           acc_asset_subclass_allocation acc = Some sa /\
           allocation (balance_market_value acc) (portfolio_total tree) = ok pa /\
           allocation (balance_market_value acc) (asset_class_total cls) = ok ca /\
           allocation (balance_market_value acc) (asset_subclass_total sub) = ok sa).
Proof.
  intros Hrun. split; [exact allocation_guard|].
  unfold _portfolio_data in Hrun.
  destruct (options_operating_currency L) as [|op others]; [discriminate|].
  destruct (process_nodes L cd op date (empty_tree, []) nodes)
    as [x|[t e]]; cbn [rbind] in Hrun; [discriminate|].
  pose proof (allocate_spec t) as Hspec.
  destruct (allocate t) as [x|u]; cbn [rbind] in Hrun; [discriminate|].
  destruct Hspec as [-> Hall].
  inversion Hrun; subst tree tys errors; clear Hrun.
  rewrite Forall_forall in Hall.
  intros c cls Hc. unfold filled in Hc. cbn [asset_classes] in Hc.
  apply list_elem_of_fmap in Hc as ([c0 cls0] & Heq & Hin0).
  cbn [fst snd] in Heq. inversion Heq; subst c cls; clear Heq.
  destruct (Hall _ Hin0) as [Hc1 Hc2]. cbn [snd] in Hc1, Hc2.
  rewrite Forall_forall in Hc2.
  cbn [filled portfolio_total filled_class cls_portfolio_allocation
         asset_class_total asset_subclasses].
  split; [now apply allocation_succeeds|].
  intros s sub Hs.
  apply list_elem_of_fmap in Hs as ([s0 sub0] & Heq & Hin1).
  cbn [fst snd] in Heq. inversion Heq; subst s sub; clear Heq.
  destruct (Hc2 _ Hin1) as (Hs1 & Hs2 & Hs3). cbn [snd] in Hs1, Hs2, Hs3.
  rewrite Forall_forall in Hs3.
  cbn [filled_subclass sub_portfolio_allocation sub_asset_class_allocation
         asset_subclass_total accounts].
  split; [now apply allocation_succeeds|].
  split; [eexists; split; [reflexivity | now apply allocation_succeeds]|].
  intros a acc Ha.
  apply list_elem_of_fmap in Ha as ([a0 acc0] & Heq & Hin2).
  cbn [fst snd] in Heq. inversion Heq; subst a acc; clear Heq.
  destruct (Hs3 _ Hin2) as (Ha1 & Ha2 & Ha3). cbn [snd] in Ha1, Ha2, Ha3.
  cbn [filled_account acc_portfolio_allocation acc_asset_class_allocation
         acc_asset_subclass_allocation balance_market_value].
  eexists _, _, _. do 3 (split; [reflexivity|]).
  split; [|split]; now apply allocation_succeeds.
Qed.

(** ** Accounts in another currency *)

(** C4: an account whose cost is in a currency other than the operating
    currency (with a non-zero amount) gets the warning
    ["account <name> has balances not in operating currency <X>"], with its
    name and the operating currency, appended to the errors, and the rest
    is as without that account: the computation fails or succeeds alike,
    the other errors are the same, and so are the portfolio total, every
    class and subclass total and every account record. *)
Theorem account_in_other_currency_is_skipped
  (L : Ledger) (cd : Dict.t (Dict.t string)) (pre post : list TreeNode)
  (node : TreeNode) (date : option Z) (op : string) (others : list string)
  (conv : Amount) :
  options_operating_currency L = op :: others ->
  balance node <> [] ->
  _convert_cost L op node date = ok conv ->
  currency conv <> op ->
  ~ number conv == 0 ->
  match _portfolio_data L cd (pre ++ post) date with
  | inl x => _portfolio_data L cd (pre ++ node :: post) date = inl x
  | inr (tree', tys, errors') =>
      exists tree e1 e2,
        _portfolio_data L cd (pre ++ node :: post) date =
          ok (tree, tys,
              e1 ++ ("account " ++ name node
                       ++ " has balances not in operating currency " ++ op)%string
                 :: e2) /\
        errors' = e1 ++ e2 /\
        same_content tree tree'
  end.
Proof.
  intros Hop Hb Hc Hcur _. unfold _portfolio_data. rewrite Hop.
  rewrite !process_nodes_app.
  destruct (process_nodes L cd op date (empty_tree, []) pre)
    as [x|[t1 e1]] eqn:Hpre; cbn [rbind]; [reflexivity|].
  assert (distinct_keys t1) as Hd1.
  { eapply distinct_process_nodes; [exact Hpre|]. split; constructor. }
  cbn [process_nodes].
  destruct (process_node_mismatch L cd op date t1 e1 node conv Hb Hc Hcur)
    as (t1' & Hstep & Hsame).
  assert (distinct_keys t1') as Hd1'.
  { eapply distinct_process_node; [exact Hstep | exact Hd1]. }
  rewrite Hstep. cbn [rbind].
  pose proof (process_nodes_same_content L cd op date post t1 t1' e1
                (e1 ++ [not_in_operating_currency (name node) op])
                (same_content_sym _ _ Hsame)) as Hpost.
  destruct (process_nodes L cd op date (t1, e1) post) as [x|[t2 e2]] eqn:Hrun;
    cbn [rbind].
  - now rewrite Hpost.
  - destruct Hpost as (t2' & x & Heq & Hrun' & Hsame2). rewrite Hrun'. cbn [rbind].
    assert (distinct_keys t2) as Hd2.
    { eapply distinct_process_nodes; [exact Hrun | exact Hd1]. }
    assert (distinct_keys t2') as Hd2'.
    { eapply distinct_process_nodes; [exact Hrun' | exact Hd1']. }
    pose proof (allocate_same_content t2 t2' Hd2 Hd2' Hsame2) as Ha.
    destruct (allocate t2) as [y|u]; cbn [rbind].
    + now rewrite Ha.
    + destruct Ha as (u' & -> & Hsu). cbn [rbind].
      exists u', e1, x. split; [|split].
      * now rewrite <- app_assoc.
      * exact Heq.
      * now apply same_content_sym.
Qed.

(** ** A small ledger *)

Module Example.

(** [str.capitalize] on ASCII letters. *)
Definition upper (c : ascii) : ascii :=
  let n := nat_of_ascii c in
  if (97 <=? n)%nat && (n <=? 122)%nat then ascii_of_nat (n - 32) else c.

Definition lower (c : ascii) : ascii :=
  let n := nat_of_ascii c in
  if (65 <=? n)%nat && (n <=? 90)%nat then ascii_of_nat (n + 32) else c.

Fixpoint lowered (s : string) : string :=
  match s with
  | EmptyString => EmptyString
  | String c rest => String (lower c) (lowered rest)
  end.

Definition capitalized (s : string) : string :=
  match s with
  | EmptyString => EmptyString
  | String c rest => String (upper c) (lowered rest)
  end.

(** The price map: a bond at 12 USD, a stock at 20 USD or 3 points, points
    that are worth nothing; and the inverse rates, zero for a rate of
    zero. *)
Definition price (base quote : string) : option Decimal :=
  if String.eqb base quote then Some 1
  else if String.eqb base "BND" && String.eqb quote "USD" then Some 12
  else if String.eqb base "USD" && String.eqb quote "BND" then Some (1 # 12)
  else if String.eqb base "STK" && String.eqb quote "USD" then Some 20
  else if String.eqb base "USD" && String.eqb quote "STK" then Some (1 # 20)
  else if String.eqb base "STK" && String.eqb quote "PTS" then Some 3
  else if String.eqb base "PTS" && String.eqb quote "STK" then Some (1 # 3)
  else if String.eqb base "PTS" && String.eqb quote "USD" then Some 0
  else if String.eqb base "USD" && String.eqb quote "PTS" then Some 0
  else None.

(** [convert.convert_amount]: at the rate of the price map, and the amount
    itself where there is no rate. *)
Definition convert (amt : Amount) (target : string) : Amount :=
  match price (currency amt) target with
  | Some rate => mkAmount (dec_mul (number amt) rate) target
  | None => amt
  end.

(** [Inventory.reduce]: the amounts are added up by currency, and a sum of
    zero is dropped. *)
Definition counter_add (key : string) (number : Decimal) (counter : Dict.t Decimal)
  : Dict.t Decimal :=
  let new_num :=
    dec_add number
      (match Dict.get key counter with Some n => n | None => ZERO end) in
  if Qeq_bool new_num ZERO
  then filter (fun kv => negb (String.eqb (fst kv) key)) counter
  else Dict.set key new_num counter.

Definition reduce (reducer : inventory_key * Decimal -> Amount) (node : TreeNode)
  : Dict.t Decimal :=
  fold_left (fun counter pos =>
               counter_add (currency (reducer pos)) (number (reducer pos)) counter)
    (balance node) [].

(** [convert.get_cost]: the units at their cost, or the units themselves
    when they are held without cost. *)
Definition get_cost (pos : inventory_key * Decimal) : Amount :=
  match fst pos with
  | (cur, None) => mkAmount (snd pos) cur
  | (_, Some c) => mkAmount (dec_mul (cost_number c) (snd pos)) (cost_currency c)
  end.

(** [convert.convert_position] *)
Definition convert_position (target : string) (pos : inventory_key * Decimal)
  : Amount :=
  convert (mkAmount (snd pos) (fst (fst pos))) target.

Definition cash : TreeNode :=
  mkNode "Assets:Cash" [(("USD", None), 100)]%string.
(** points, which convert to nothing *)
Definition points : TreeNode :=
  mkNode "Assets:Points" [(("PTS", None), 500)]%string.
Definition bond : TreeNode :=
  mkNode "Assets:Bond" [(("BND", Some (mkCost 10 "USD" 0 None)), 3)]%string.
Definition euro : TreeNode :=
  mkNode "Assets:Euro" [(("EUR", None), 50)]%string.
(** a stock received for nothing: its cost, zero, is dropped *)
Definition stock : TreeNode :=
  mkNode "Assets:Stock" [(("STK", Some (mkCost 0 "USD" 0 None)), 5)]%string.
(** a stock bought with points: it has a price, and a cost of zero *)
Definition gift : TreeNode :=
  mkNode "Assets:Gift" [(("STK", Some (mkCost 10 "PTS" 0 None)), 5)]%string.

Definition L : Ledger :=
  mkLedger
    ["USD"%string]
    [("PTS", [("asset-class", "points")]);
     ("BND", [("asset-class", "bond"); ("asset-subclass", "gov")]);
     ("DST", [("asset-class", "dust")])]%string
    (reduce get_cost)
    (fun amt target _ => convert amt target)
    (fun node target => reduce (convert_position target) node)
    (fun pair => match price (fst pair) (snd pair) with
                 | Some rate => (Some 738000%Z, Some rate)
                 | None => (None, None)
                 end)
    (fun _ _ => [("Assets:Cash", cash); ("Assets:Points", points);
                 ("Assets:Bond", bond); ("Assets:Euro", euro)]%string)
    [("Assets:Cash", [("portfolio", MStr "liquid")]);
     ("Assets:Bond", [("portfolio", MStr "long"); ("since", MOther)])]%string
    (fun pattern => Some (String.prefix pattern))
    capitalized.

Definition cd : Dict.t (Dict.t string) := load_report L.

Definition nodes : list TreeNode := [cash; points; bond; euro].

(** What [_portfolio_data] returns for these nodes. *)
Definition tree : portfolio_tree :=
  Eval vm_compute in
    match _portfolio_data L cd nodes None with
    | inr (t, _, _) => t
    | inl _ => empty_tree
    end.

Definition errors : list string :=
  ["account Assets:Euro has balances not in operating currency USD"%string].

Lemma portfolio_data_nodes :
  _portfolio_data L cd nodes None = ok (tree, types, errors).
Proof. vm_compute. reflexivity. Qed.

(** The values of the nodes are whole numbers. *)
Definition units (n : TreeNode) : Z := Qfloor (contribution L "USD" None n).


(** Nodes whose values are rounded away in the portfolio total: a hundred
    million in cash and two holdings of 0.00000000000000000004 each. *)
Definition dust1 : TreeNode :=
  mkNode "Assets:Dust1"
    [(("DST", Some (mkCost (4 # 100000000000000000000) "USD" 0 None)), 1)]%string.
Definition dust2 : TreeNode :=
  mkNode "Assets:Dust2"
    [(("DST", Some (mkCost (4 # 100000000000000000000) "USD" 0 None)), 1)]%string.
Definition million : TreeNode :=
  mkNode "Assets:Million" [(("USD", None), 100000000)]%string.

Definition dusty : list TreeNode := [million; dust1; dust2].

End Example.

Lemma zero_cost_without_price_witness :
  exists t',
    process_node Example.L Example.cd "USD" None (empty_tree, []) Example.points
      = ok (t', []) /\
    find_account "points" "nosubclass" "Assets:Points" t'
      = Some (mkAccount 0 None None None None None None).
Proof.
  apply (zero_cost_without_price_does_not_divide Example.L Example.cd "USD"
           None empty_tree [] Example.points (mkAmount 0 "USD") None).
  - discriminate.
  - vm_compute. reflexivity.
  - reflexivity.
  - reflexivity.
  - reflexivity.
  - reflexivity.
Defined.

Lemma account_without_price_witness :
  exists record,
    find_account "noclass" "nosubclass" "Assets:Cash" Example.tree
      = Some record /\
    balance_market_value record = 100 /\
    income_gain_loss record = None /\
    gain_loss_percentage record = None /\
    latest_price_date record = None /\
    not_in_operating_currency "Assets:Cash" "USD" ∉ Example.errors.
Proof.
  apply (account_without_price_is_valued_at_cost Example.L Example.cd
           Example.nodes None Example.tree types Example.errors "USD" []
           Example.cash (mkAmount 100 "USD") None).
  - reflexivity.
  - exact Example.portfolio_data_nodes.
  - apply (bool_decide_unpack _). vm_compute. exact I.
  - left.
  - discriminate.
  - vm_compute. reflexivity.
  - reflexivity.
  - reflexivity.
  - reflexivity.
Defined.


(** C2, as stated, fails: with a hundred million in cash and two holdings
    of 0.00000000000000000004, the additions to the portfolio total are
    rounded away, so that it is 100000000, while the class totals are
    100000000 and 0.00000000000000000008: their sum is not the portfolio
    total, whether it is taken exactly or in the arithmetic of the
    context. *)
Lemma rounded_total_is_not_the_sum_of_the_class_totals :
  exists tree noclass dust,
    _portfolio_data Example.L Example.cd Example.dusty None
      = ok (tree, types, []) /\
    asset_classes tree = [("noclass"%string, noclass); ("dust"%string, dust)] /\
    portfolio_total tree == 100000000 /\
    asset_class_total noclass == 100000000 /\
    asset_class_total dust == 8 # 100000000000000000000 /\
    ~ portfolio_total tree == sum_of asset_class_total (asset_classes tree) /\
    ~ portfolio_total tree ==
        dec_add (asset_class_total noclass) (asset_class_total dust).
Proof.
  eexists _, _, _. split; [vm_compute; reflexivity|].
  split; [reflexivity|].
  split; [vm_compute; reflexivity|].
  split; [vm_compute; reflexivity|].
  split; [vm_compute; reflexivity|].
  split; vm_compute; discriminate.
Qed.

Lemma allocations_are_guarded_ratios_witness :
  exists cls,
    Dict.get "bond" (asset_classes Example.tree) = Some cls /\
    allocation (asset_class_total cls) (portfolio_total Example.tree) =
      ok (cls_portfolio_allocation cls).
Proof.
  destruct (Dict.get "bond" (asset_classes Example.tree)) as [cls|] eqn:E;
    [|vm_compute in E; discriminate].
  exists cls. split; [reflexivity|].
  destruct (allocations_are_guarded_ratios Example.L Example.cd Example.nodes
              None Example.tree types Example.errors
              Example.portfolio_data_nodes) as [_ H].
  destruct (H "bond"%string cls (get_elem_of _ _ _ E)) as [H1 _].
  exact H1.
Defined.

(** C3, as stated, fails: the class "points" of the example holds one
    account, whose points convert to nothing, so its allocation is zero,
    while the total of the portfolio it is measured against is 136. *)
Lemma zero_allocation_of_nonzero_total :
  exists cls,
    _portfolio_data Example.L Example.cd Example.nodes None
      = ok (Example.tree, types, Example.errors) /\
    Dict.get "points" (asset_classes Example.tree) = Some cls /\
    cls_portfolio_allocation cls == 0 /\
    portfolio_total Example.tree == 136 /\
    ~ portfolio_total Example.tree == 0.
Proof.
  eexists. split; [exact Example.portfolio_data_nodes|].
  split; [vm_compute; reflexivity|].
  split; [vm_compute; reflexivity|].
  split; [vm_compute; reflexivity|].
  vm_compute. discriminate.
Qed.

Lemma account_in_other_currency_witness :
  exists tree e1 e2,
    _portfolio_data Example.L Example.cd
      ([Example.cash; Example.points; Example.bond] ++ [Example.euro]) None =
      ok (tree, types,
          e1 ++ "account Assets:Euro has balances not in operating currency USD"%string
             :: e2) /\
    [] = e1 ++ e2 /\
    same_content tree
      match _portfolio_data Example.L Example.cd
              [Example.cash; Example.points; Example.bond] None with
      | inr (tree', _, _) => tree'
      | inl _ => empty_tree
      end.
Proof.
  pose proof (account_in_other_currency_is_skipped Example.L Example.cd
                [Example.cash; Example.points; Example.bond] [] Example.euro
                None "USD" [] (mkAmount 50 "EUR")) as H.
  rewrite app_nil_r in H.
  assert (_portfolio_data Example.L Example.cd
            [Example.cash; Example.points; Example.bond] None =
          ok (match _portfolio_data Example.L Example.cd
                      [Example.cash; Example.points; Example.bond] None with
              | inr (tree', _, _) => tree'
              | inl _ => empty_tree
              end, types, [])) as Hrun by (vm_compute; reflexivity).
  rewrite Hrun in H at 1.
  apply H.
  - reflexivity.
  - discriminate.
  - reflexivity.
  - discriminate.
  - vm_compute. discriminate.
Defined.

(** ** The report *)

Lemma portfolios_loop_app L cd tree end_ xs ys : forall acc s,
  portfolios_loop L cd tree end_ (xs ++ ys) acc s =
  match portfolios_loop L cd tree end_ xs acc s with
  | (ps, Some e, s') => (ps, Some e, s')
  | (ps, None, s') => portfolios_loop L cd tree end_ ys ps s'
  end.
Proof.
  induction xs as [|x xs IH]; intros acc s; cbn [app portfolios_loop]; auto.
  destruct (portfolio_of_option L cd tree end_ x s) as [[e|p] s']; auto.
Qed.

Lemma invalid_option_raises L cd tree end_ option s :
  fst option <> "account_name_pattern"%string ->
  fst option <> "account_open_metadata_pattern"%string ->
  portfolio_of_option L cd tree end_ option s = (raise FavaAPIError, s).
Proof.
  intros H1 H2. unfold portfolio_of_option, bind, lift.
  destruct (String.eqb_spec (fst option) "account_name_pattern"); [congruence|].
  destruct (String.eqb_spec (fst option) "account_open_metadata_pattern");
    [congruence|].
  reflexivity.
Qed.

(** C8, as the code has it: when a configured view fails, the exception is
    logged and the list returned holds the portfolios of the views
    configured before it, and nothing else; the failed view and every view
    configured after it are absent.  An option of an unrecognized kind is
    such a view: it raises [FavaAPIError]. *)
Theorem failing_view_ends_the_report
  (L : Ledger) (pre post : list config_option) (view : config_option)
  (begin end_ : option Z) (s s1 : store) (ps : list portfolio) :
  portfolio_accounts L pre begin end_ s = (ps, None, s1) ->
  (forall x s2,
     portfolio_of_option L (load_report L) (account_tree L begin end_) end_
       view s1 = (raise x, s2) ->
     portfolio_accounts L (pre ++ view :: post) begin end_ s = (ps, Some x, s2)) /\
  (fst view <> "account_name_pattern"%string ->
   fst view <> "account_open_metadata_pattern"%string ->
   portfolio_accounts L (pre ++ view :: post) begin end_ s
     = (ps, Some FavaAPIError, s1)).
Proof.
  unfold portfolio_accounts. intros Hpre.
  assert (forall x s2,
     portfolio_of_option L (load_report L) (account_tree L begin end_) end_
       view s1 = (raise x, s2) ->
     portfolios_loop L (load_report L) (account_tree L begin end_) end_
       (pre ++ view :: post) [] s = (ps, Some x, s2)) as Hgen.
  { intros x s2 Hview. rewrite portfolios_loop_app, Hpre.
    cbn [portfolios_loop]. now rewrite Hview. }
  split; [exact Hgen|].
  intros H1 H2. apply Hgen. now apply invalid_option_raises.
Qed.

Definition config_valid : list config_option :=
  [("account_name_pattern", ArgStr "Assets:C")]%string.
Definition config_invalid_first : list config_option :=
  [("unknown_pattern", ArgStr "x"); ("account_name_pattern", ArgStr "Assets:C")]%string.

Lemma failing_view_ends_the_report_witness :
  exists p s1,
    portfolio_accounts Example.L config_valid None None [] = ([p], None, s1) /\
    portfolio_accounts Example.L
      (config_valid ++ ("unknown_pattern"%string, ArgStr "x") :: config_valid)
      None None []
      = ([p], Some FavaAPIError, s1).
Proof.
  eexists _, _.
  assert (portfolio_accounts Example.L config_valid None None [] = (_, None, _))
    as Hpre by (vm_compute; reflexivity).
  split; [exact Hpre|].
  apply (failing_view_ends_the_report Example.L config_valid config_valid
           ("unknown_pattern"%string, ArgStr "x") None None [] _ _ Hpre).
  - discriminate.
  - discriminate.
Defined.

(** C8, as stated, fails: with the unrecognized option first, the valid view
    configured after it is dropped from the report, although on its own it
    yields a portfolio. *)
Lemma view_after_failing_view_is_dropped :
  fst (fst (portfolio_accounts Example.L config_invalid_first None None [])) = []
  /\ snd (fst (portfolio_accounts Example.L config_invalid_first None None []))
     = Some FavaAPIError
  /\ length (fst (fst (portfolio_accounts Example.L config_valid None None [])))
     = 1%nat.
Proof. vm_compute. repeat split. Qed.

(** * Further properties of the builder and the report *)

(** ** [load_report] *)

Lemma find_snoc {A} (f : A -> bool) (l : list A) (x : A) :
  find f (l ++ [x]) =
  match find f l with
  | Some y => Some y
  | None => if f x then Some x else None
  end.
Proof.
  induction l as [|y l IH]; simpl; [reflexivity|].
  destruct (f y); auto.
Qed.

Lemma load_fold (c : string) (es : list (string * Dict.t string)) :
  forall d,
    Dict.get c (fold_left (fun d entry => Dict.set (fst entry) (snd entry) d) es d) =
    match find (fun e => String.eqb c (fst e)) (rev es) with
    | Some e => Some (snd e)
    | None => Dict.get c d
    end.
Proof.
  induction es as [|e es IH]; intros d; simpl; [reflexivity|].
  rewrite IH, find_snoc.
  destruct (find (fun e0 => String.eqb c (fst e0)) (rev es)); [reflexivity|].
  destruct (String.eqb_spec c (fst e)) as [->|Hne].
  - apply get_set_eq.
  - apply get_set_ne. congruence.
Qed.

(** X1: the commodity dictionary maps a currency to the metadata of the
    last [Commodity] directive for it, and has no entry for a currency
    without directive. *)
Theorem load_report_keeps_the_last_directive (L : Ledger) (c : string) :
  Dict.get c (load_report L) =
  option_map snd
    (find (fun e => String.eqb c (fst e)) (rev (all_entries_Commodity L))).
Proof.
  unfold load_report. rewrite load_fold.
  now destruct (find _ _).
Qed.

(** ** [_portfolio_data]: the nodes that count *)

(** [node.balance != {}] *)
Definition has_balance (n : TreeNode) : bool :=
  match balance n with
  | [] => false
  | _ :: _ => true
  end.

(** The nodes the first loop reports as not in the operating currency. *)
Definition skipped (L : Ledger) (op : string) (date : option Z)
  (n : TreeNode) : bool :=
  has_balance n &&
  match _convert_cost L op n date with
  | inr conv => negb (String.eqb op (currency conv))
  | inl _ => false
  end.

Section Selection.
Context (L : Ledger) (cd : Dict.t (Dict.t string)) (op : string)
  (date : option Z).

Lemma process_nodes_has_balance nodes : forall st,
  process_nodes L cd op date st (List.filter has_balance nodes) =
  process_nodes L cd op date st nodes.
Proof.
  induction nodes as [|n nodes IH]; intros [t e]; [reflexivity|].
  cbn [List.filter process_nodes]. unfold has_balance at 1.
  destruct (balance n) eqn:Hb.
  - rewrite IH, process_node_unfold, Hb. reflexivity.
  - cbn [process_nodes].
    destruct (process_node L cd op date (t, e) n) as [x|st']; cbn [rbind]; auto.
Qed.

Lemma process_nodes_skipped nodes : forall t e t' e',
  process_nodes L cd op date (t, e) nodes = ok (t', e') ->
  e' = e ++ map (fun n => not_in_operating_currency (name n) op)
              (List.filter (skipped L op date) nodes).
Proof.
  induction nodes as [|n nodes IH]; intros t e t' e'; cbn [process_nodes].
  - inversion 1; subst. simpl. now rewrite app_nil_r.
  - rewrite process_node_unfold. cbn [List.filter]. unfold skipped at 1, has_balance.
    destruct (balance n).
    { cbn [rbind andb]. apply IH. }
    cbv zeta.
    destruct (_convert_cost L op n date) as [x|conv]; [discriminate|].
    cbn [rbind andb].
    destruct (String.eqb op (currency conv)); cbn [negb].
    + destruct (value_account L op date n (number conv)) as [x|[d v]];
        [discriminate|]. cbn [rbind]. apply IH.
    + cbn [rbind]. intros H. apply IH in H. rewrite H.
      cbn [map]. now rewrite <- app_assoc.
Qed.

End Selection.

(** X2: an account whose balance is empty is passed over: the table for a
    list of nodes is the table for the nodes that hold something. *)
Theorem accounts_without_balance_are_passed_over
  (L : Ledger) (cd : Dict.t (Dict.t string)) (nodes : list TreeNode)
  (date : option Z) :
  _portfolio_data L cd (List.filter has_balance nodes) date =
  _portfolio_data L cd nodes date.
Proof.
  unfold _portfolio_data.
  destruct (options_operating_currency L) as [|op ops]; [reflexivity|].
  now rewrite process_nodes_has_balance.
Qed.

(** X3: the list of errors [_portfolio_data] returns holds, in the order of
    the nodes, one message for each node that has a balance and whose
    converted cost is not in the operating currency, and nothing else; the
    column types returned are the fixed list of thirteen columns. *)
Theorem errors_name_the_accounts_left_out
  (L : Ledger) (cd : Dict.t (Dict.t string)) (nodes : list TreeNode)
  (date : option Z) (op : string) (ops : list string)
  (t : portfolio_tree) (tys : list coltype) (errors : list string) :
  options_operating_currency L = op :: ops ->
  _portfolio_data L cd nodes date = ok (t, tys, errors) ->
  tys = types /\
  errors = map (fun n => not_in_operating_currency (name n) op)
             (List.filter (skipped L op date) nodes).
Proof.
  intros Hop Hrun.
  destruct (portfolio_data_ok _ _ _ _ _ _ _ Hrun)
    as (op0 & ops0 & t1 & Hop0 & E & _ & -> & _).
  rewrite Hop in Hop0. inversion Hop0; subst op0 ops0.
  split; [reflexivity|].
  now apply process_nodes_skipped in E.
Qed.

Lemma errors_name_the_accounts_left_out_witness :
  types = types /\
  Example.errors =
    map (fun n => not_in_operating_currency (name n) "USD")
      (List.filter (skipped Example.L "USD" None) Example.nodes).
Proof.
  apply (errors_name_the_accounts_left_out Example.L Example.cd Example.nodes
           None "USD" [] Example.tree types Example.errors).
  - reflexivity.
  - exact Example.portfolio_data_nodes.
Defined.

(** ** [_portfolio_data]: when it raises *)

(** A latest price is known for the first position of the node. *)
Definition priced (L : Ledger) (n : TreeNode) : bool :=
  match balance n with
  | ((base, Some cost), _) :: _ =>
      match get_latest_price L (cost_currency cost, base) with
      | (Some _, _) => true
      | (None, _) => false
      end
  | _ => false
  end.

(** The nodes the first loop cannot value: a node with a balance whose
    cost inventory is empty, or whose cost, converted, is a zero amount of
    the operating currency while a latest price is known. *)
Definition breaks (L : Ledger) (op : string) (date : option Z) (n : TreeNode)
  : bool :=
  has_balance n &&
  match reduce_get_cost L n with
  | [] => true
  | (cur, num) :: _ =>
      let conv := convert_amount L (mkAmount num cur) op date in
      String.eqb op (currency conv) && priced L n && Qeq_bool (number conv) 0
  end.

(** What the valuation of a node can raise. *)
Definition valuation_error (x : exn) : Prop :=
  x = IndexError \/ x = DivisionByZero \/ x = InvalidOperation.

Section Failure.
Context (L : Ledger) (cd : Dict.t (Dict.t string)) (op : string)
  (date : option Z).

Lemma no_latest_price_priced n lp :
  _account_latest_price L n = ok lp -> no_latest_price lp = negb (priced L n).
Proof.
  unfold _account_latest_price, priced.
  destruct (balance n) as [|[[base [cost|]] units] rest]; simpl;
    [discriminate| |]; inversion 1; subst; simpl; auto.
  now destruct (get_latest_price L (cost_currency cost, base)) as [[d|] p].
Qed.

Lemma latest_price_of_balance n :
  balance n <> [] -> exists lp, _account_latest_price L n = ok lp.
Proof.
  unfold _account_latest_price.
  destruct (balance n) as [|[[base [cost|]] units] rest]; simpl;
    [congruence| |]; eauto.
Qed.

Lemma process_node_breaks t e n :
  match process_node L cd op date (t, e) n with
  | inl x => breaks L op date n = true /\ valuation_error x
  | inr _ => breaks L op date n = false
  end.
Proof.
  rewrite process_node_unfold. unfold breaks, has_balance.
  destruct (balance n) as [|kv rest] eqn:Hb; [reflexivity|]. cbv zeta.
  unfold _convert_cost.
  destruct (reduce_get_cost L n) as [|[cur num] costs] eqn:Hc; cbn [rbind andb].
  { split; [reflexivity | now left]. }
  set (conv := convert_amount L (mkAmount num cur) op date).
  destruct (String.eqb op (currency conv)); cbn [andb]; [|reflexivity].
  unfold value_account.
  destruct (latest_price_of_balance n) as [lp Hlp]; [congruence|].
  rewrite Hlp. cbn [rbind]. rewrite (no_latest_price_priced _ _ Hlp).
  destruct (priced L n); cbn [negb andb]; [|reflexivity].
  unfold _asset_info, _convert_cost. rewrite Hc. cbn [rbind]. fold conv.
  unfold dec_div, ZERO.
  destruct (Qeq_bool (number conv) 0) eqn:Hz.
  - match goal with |- context [Qeq_bool ?a 0] =>
      destruct (Qeq_bool a 0) end; cbn [rbind];
      (split; [reflexivity | right; auto]).
  - reflexivity.
Qed.

Lemma process_nodes_breaks nodes : forall t e,
  match process_nodes L cd op date (t, e) nodes with
  | inl x => (exists n, n ∈ nodes /\ breaks L op date n = true) /\ valuation_error x
  | inr _ => Forall (fun n => breaks L op date n = false) nodes
  end.
Proof.
  induction nodes as [|n nodes IH]; intros t e; cbn [process_nodes].
  - constructor.
  - pose proof (process_node_breaks t e n) as Hn.
    destruct (process_node L cd op date (t, e) n) as [x|[t1 e1]]; cbn [rbind].
    + destruct Hn as [Hb Hx]. split; auto. exists n. split; auto. left.
    + specialize (IH t1 e1).
      destruct (process_nodes L cd op date (t1, e1) nodes) as [x|st].
      * destruct IH as [(m & Hm & Hb) Hx]. split; auto.
        exists m. split; auto. now right.
      * now constructor.
Qed.

End Failure.

(** X4: with an operating currency declared, [_portfolio_data] raises
    whenever one of the nodes has a balance and either an empty cost
    inventory or, with a latest price known, a zero cost in the operating
    currency; the exception is then an [IndexError] or one of the two
    division errors of the decimal module.  When no node is such a node,
    the first loop goes through, and the only exception left is the
    [InvalidOperation] of a [round] in the second loop, raised exactly when
    one of its allocations needs more digits than the context has. *)
Theorem portfolio_data_raises_on_unvaluable_nodes
  (L : Ledger) (cd : Dict.t (Dict.t string)) (nodes : list TreeNode)
  (date : option Z) (op : string) (ops : list string) :
  options_operating_currency L = op :: ops ->
  ((exists n, n ∈ nodes /\ breaks L op date n = true) ->
   exists x, _portfolio_data L cd nodes date = raise x /\ valuation_error x) /\
  ((forall n, n ∈ nodes -> breaks L op date n = false) ->
   exists t e,
     process_nodes L cd op date (empty_tree, []) nodes = ok (t, e) /\
     (allocatable t -> _portfolio_data L cd nodes date = ok (filled t, types, e)) /\
     (~ allocatable t ->
      _portfolio_data L cd nodes date = raise InvalidOperation)) /\
  (forall x, _portfolio_data L cd nodes date = raise x -> valuation_error x).
Proof.
  unfold _portfolio_data. intros ->.
  pose proof (process_nodes_breaks L cd op date nodes empty_tree []) as H.
  destruct (process_nodes L cd op date (empty_tree, []) nodes) as [x|[t e]] eqn:E;
    cbn [rbind].
  - destruct H as [Hn Hx]. split; [|split].
    + intros _. eauto.
    + intros Hno. destruct Hn as (n & Hn & Hb). rewrite (Hno n Hn) in Hb.
      discriminate.
    + now inversion 1; subst.
  - assert (distinct_keys t) as Hd.
    { eapply distinct_process_nodes; [exact E|]. split; constructor. }
    split; [|split].
    + intros (n & Hn & Hb). rewrite Forall_forall in H. apply H in Hn. congruence.
    + intros _. exists t, e. split; [reflexivity|]. split.
      * intros Hall. now rewrite (allocate_allocatable t Hd Hall).
      * intros Hno. destruct (allocate t) as [x|u] eqn:Ha; cbn [rbind].
        -- now apply allocate_raises in Ha as [-> _].
        -- apply allocate_ok in Ha as [_ Hall]. contradiction.
    + intros x. destruct (allocate t) as [y|u] eqn:Ha; cbn [rbind]; [|discriminate].
      inversion 1; subst y. apply allocate_raises in Ha as [-> _]; [|exact Hd].
      right. right. reflexivity.
Qed.

Lemma portfolio_data_raises_witness :
  exists x,
    _portfolio_data Example.L Example.cd [Example.cash; Example.gift] None
      = raise x /\
    valuation_error x.
Proof.
  apply (proj1 (portfolio_data_raises_on_unvaluable_nodes
                  Example.L Example.cd [Example.cash; Example.gift] None "USD" []
                  eq_refl)).
  exists Example.gift. split.
  - right. left.
  - vm_compute. reflexivity.
Defined.

(** ** [_asset_info] *)

Section AssetInfo.
Context (L : Ledger) (op : string) (date : option Z) (node : TreeNode).


End AssetInfo.







(** A ledger in which positions are not converted to the operating
    currency. *)
Definition unconverted : Ledger :=
  mkLedger (options_operating_currency Example.L)
    (all_entries_Commodity Example.L) (reduce_get_cost Example.L)
    (convert_amount Example.L)
    (fun node _ => map (fun kv => (fst (fst kv), snd kv)) (balance node))
    (get_latest_price Example.L) (account_tree Example.L)
    (all_entries_Open Example.L) (re_compile Example.L) (capitalize Example.L).


(** A ledger that hands over a cost of 29 digits, unrounded. *)
Definition long_ledger : Ledger :=
  mkLedger (options_operating_currency Example.L)
    (all_entries_Commodity Example.L)
    (fun _ => [("USD"%string, 10000000000000000000000000001)])
    (fun amt _ _ => amt)
    (reduce_convert_position unconverted)
    (get_latest_price Example.L) (account_tree Example.L)
    (all_entries_Open Example.L) (re_compile Example.L) (capitalize Example.L).

(** With such a cost the loss reported is the cost rounded, and the
    percentage is not -100. *)
Lemma loss_of_a_long_cost :
  _convert_cost long_ledger "USD" Example.bond None
    = ok (mkAmount 10000000000000000000000000001 "USD") /\
  Dict.get "USD" (reduce_convert_position long_ledger Example.bond "USD") = None /\
  match _asset_info long_ledger "USD" Example.bond None with
  | inr (value, income, percentage) =>
      value == 0 /\ income == 10000000000000000000000000000 /\
      percentage == - (9999999999999999999999999999 # 100000000000000000000000000)
  | inl _ => False
  end.
Proof.
  split; [reflexivity|]. split; [reflexivity|].
  vm_compute. repeat split.
Qed.

(** ** Subclass totals and the accounts below them *)


Section AccountSums.
Context (L : Ledger) (cd : Dict.t (Dict.t string)) (op : string)
  (date : option Z).

Lemma value_account_market_value node cost d v :
  value_account L op date node cost = ok (d, v) -> balance_market_value d = v.
Proof.
  unfold value_account.
  destruct (_account_latest_price L node) as [x|lp]; [discriminate|]. cbn [rbind].
  destruct (no_latest_price lp); [now inversion 1|].
  destruct (_asset_info L op node date) as [x|[[mv income] pct]]; [discriminate|].
  cbn [rbind]. now inversion 1.
Qed.







End AccountSums.



(** ** The rows of the table *)

Section Rows.
Context (L : Ledger) (cd : Dict.t (Dict.t string)) (op : string)
  (date : option Z).
Implicit Types (t : portfolio_tree) (c s a : string).

Lemma is_Some_option_map {A B} (f : A -> B) (o : option A) :
  is_Some (option_map f o) <-> is_Some o.
Proof. destruct o; simpl; split; intros [x Hx]; eauto; discriminate. Qed.

Lemma is_Some_get_set {A} (k k' : string) (v : A) (d : Dict.t A) :
  is_Some (Dict.get k' (Dict.set k v d)) <-> is_Some (Dict.get k' d) \/ k = k'.
Proof.
  destruct (String.eqb_spec k k') as [->|Hne].
  - rewrite get_set_eq. split; eauto.
  - rewrite get_set_ne by exact Hne. split; [auto | intros [H|H]; [auto|contradiction]].
Qed.

Lemma find_class_ensured c s c' t :
  is_Some (find_class c' (ensure_subclass c s (ensure_class c t))) <->
  is_Some (find_class c' t) \/ c = c'.
Proof.
  rewrite find_class_ensure_subclass, find_class_ensure_class.
  destruct (find_class c' t) as [cls|].
  - destruct (_ && _); split; eauto.
  - destruct (String.eqb_spec c c') as [->|Hne].
    + destruct (_ && _); split; eauto.
    + split; [intros [x Hx]; discriminate|].
      intros [[x Hx]|H]; [discriminate | contradiction].
Qed.

Lemma find_subclass_ensured c s c' s' t :
  is_Some (find_subclass c' s' (ensure_subclass c s (ensure_class c t))) <->
  is_Some (find_subclass c' s' t) \/ (c = c' /\ s = s').
Proof.
  rewrite find_subclass_ensure_subclass, find_subclass_ensure_class,
    find_class_ensure_class.
  destruct (find_subclass c' s' t) as [sd|]; [split; eauto|].
  destruct (String.eqb_spec c c') as [->|Hc]; cbn [andb].
  - destruct (String.eqb_spec s s') as [->|Hs].
    + rewrite String.eqb_refl. destruct (find_class c' t); split; eauto.
    + split; [intros [x Hx]; discriminate|].
      intros [[x Hx]|[_ H]]; [discriminate | contradiction].
  - split; [intros [x Hx]; discriminate|].
    intros [[x Hx]|[H _]]; [discriminate | contradiction].
Qed.

Lemma find_class_enter c s a d v c' t :
  is_Some (find_class c' (enter c s a d v t)) <->
  is_Some (find_class c' t) \/ c = c'.
Proof.
  rewrite <- (find_class_ensured c s c' t). unfold enter, accumulate, insert_account.
  set (t1 := ensure_subclass c s (ensure_class c t)).
  unfold on_subclass. rewrite !find_class_on_class.
  assert (forall t2, find_class c'
            (if truthy v then add_portfolio_total v t2 else t2) = find_class c' t2)
    as Hadd by (intros t2; now destruct (truthy v)).
  rewrite Hadd, find_class_on_class.
  destruct (String.eqb c c'); [|reflexivity].
  now rewrite !is_Some_option_map.
Qed.

Lemma find_subclass_enter c s a d v c' s' t :
  is_Some (find_subclass c' s' (enter c s a d v t)) <->
  is_Some (find_subclass c' s' t) \/ (c = c' /\ s = s').
Proof.
  rewrite <- (find_subclass_ensured c s c' s' t). unfold enter, insert_account.
  rewrite accumulate_find_subclass, find_subclass_on_subclass.
  destruct (_ && _); [|reflexivity].
  now rewrite !is_Some_option_map.
Qed.

Lemma find_account_entered c s a d v c' s' a' t :
  is_Some (find_account c' s' a' (enter c s a d v t)) <->
  is_Some (find_account c' s' a' t) \/ (c = c' /\ s = s' /\ a = a').
Proof.
  rewrite !find_account_accounts_of, enter_accounts.
  destruct (String.eqb_spec c c') as [->|Hc]; cbn [andb].
  - destruct (String.eqb_spec s s') as [->|Hs].
    + rewrite is_Some_get_set. tauto.
    + tauto.
  - tauto.
Qed.

(** What one node adds to the tree. *)
Definition adds_class (c : string) (n : TreeNode) : Prop :=
  has_balance n = true /\ asset_class_of cd n = c.

Definition adds_subclass (c s : string) (n : TreeNode) : Prop :=
  has_balance n = true /\ asset_class_of cd n = c /\ asset_subclass_of cd n = s.

Definition adds_account (c s a : string) (n : TreeNode) : Prop :=
  has_balance n = true /\ skipped L op date n = false /\
  asset_class_of cd n = c /\ asset_subclass_of cd n = s /\ name n = a.

Definition grows_by (nodes : list TreeNode) (t t' : portfolio_tree) : Prop :=
  (forall c, is_Some (find_class c t') <->
     is_Some (find_class c t) \/ exists n, n ∈ nodes /\ adds_class c n) /\
  (forall c s, is_Some (find_subclass c s t') <->
     is_Some (find_subclass c s t) \/ exists n, n ∈ nodes /\ adds_subclass c s n) /\
  (forall c s a, is_Some (find_account c s a t') <->
     is_Some (find_account c s a t) \/ exists n, n ∈ nodes /\ adds_account c s a n).

Lemma exists_singleton (P : TreeNode -> Prop) (n : TreeNode) :
  (exists m, m ∈ [n] /\ P m) <-> P n.
Proof.
  split.
  - intros (m & Hm & HP). apply list_elem_of_singleton in Hm. now subst.
  - intros HP. exists n. split; [left | exact HP].
Qed.

Lemma process_node_grows t e t' e' node :
  process_node L cd op date (t, e) node = ok (t', e') ->
  grows_by [node] t t'.
Proof.
  rewrite process_node_unfold. unfold grows_by.
  setoid_rewrite exists_singleton.
  unfold adds_class, adds_subclass, adds_account, skipped, has_balance.
  destruct (balance node).
  { inversion 1; subst. split; [|split]; intros; split;
      intuition (try discriminate; auto). }
  cbv zeta.
  destruct (_convert_cost L op node date) as [x|conv]; [discriminate|].
  cbn [rbind andb].
  destruct (String.eqb op (currency conv)); cbn [negb].
  - destruct (value_account L op date node (number conv)) as [x|[d v]];
      [discriminate|]. cbn [rbind]. inversion 1; subst.
    split; [|split]; intros.
    + rewrite find_class_enter. intuition (try discriminate; auto).
    + rewrite find_subclass_enter. intuition (try discriminate; auto).
    + rewrite find_account_entered. intuition (try discriminate; auto).
  - inversion 1; subst.
    assert (same_content (ensure_subclass (asset_class_of cd node)
               (asset_subclass_of cd node)
               (ensure_class (asset_class_of cd node) t)) t) as Hsame.
    { eapply same_content_trans; [apply ensure_subclass_same_content|].
      apply ensure_class_same_content. }
    split; [|split]; intros.
    + rewrite find_class_ensured. intuition (try discriminate; auto).
    + rewrite find_subclass_ensured. intuition (try discriminate; auto).
    + rewrite (find_account_same_content _ _ _ _ _ Hsame).
      intuition (try discriminate; auto).
Qed.

Lemma grows_by_nil t : grows_by [] t t.
Proof.
  repeat split; intros; auto; destruct H as [?|(n & Hn & _)]; auto; inversion Hn.
Qed.

Lemma grows_by_cons n nodes t t1 t' :
  grows_by [n] t t1 -> grows_by nodes t1 t' -> grows_by (n :: nodes) t t'.
Proof.
  unfold grows_by. setoid_rewrite exists_singleton.
  intros (A1 & A2 & A3) (B1 & B2 & B3).
  repeat split; intros.
  - apply B1 in H as [H|(m & Hm & HP)].
    + apply A1 in H as [H|H]; auto. right. exists n. split; [left|auto].
    + right. exists m. split; [now right | auto].
  - apply B1. destruct H as [H|(m & Hm & HP)].
    + left. apply A1. auto.
    + apply elem_of_cons in Hm as [->|Hm]; [left; apply A1; auto | eauto].
  - apply B2 in H as [H|(m & Hm & HP)].
    + apply A2 in H as [H|H]; auto. right. exists n. split; [left|auto].
    + right. exists m. split; [now right | auto].
  - apply B2. destruct H as [H|(m & Hm & HP)].
    + left. apply A2. auto.
    + apply elem_of_cons in Hm as [->|Hm]; [left; apply A2; auto | eauto].
  - apply B3 in H as [H|(m & Hm & HP)].
    + apply A3 in H as [H|H]; auto. right. exists n. split; [left|auto].
    + right. exists m. split; [now right | auto].
  - apply B3. destruct H as [H|(m & Hm & HP)].
    + left. apply A3. auto.
    + apply elem_of_cons in Hm as [->|Hm]; [left; apply A3; auto | eauto].
Qed.

Lemma process_nodes_grow nodes : forall t e t' e',
  process_nodes L cd op date (t, e) nodes = ok (t', e') ->
  grows_by nodes t t'.
Proof.
  induction nodes as [|n nodes IH]; intros t e t' e'; cbn [process_nodes].
  - inversion 1; subst. apply grows_by_nil.
  - destruct (process_node L cd op date (t, e) n) as [x|[t1 e1]] eqn:E;
      cbn [rbind]; [discriminate|].
    intros H. eapply grows_by_cons.
    + eapply process_node_grows; eauto.
    + eapply IH; eauto.
Qed.

End Rows.

(** X12: the tree [_portfolio_data] returns has a class for exactly the
    class tags of the nodes with a balance, a subclass below a class for
    exactly the pairs of tags of those nodes, and an account below them for
    exactly the nodes with a balance whose cost is in the operating
    currency.  A node left out for its currency still gets its class and
    subclass. *)
Theorem rows_of_the_portfolio_tree
  (L : Ledger) (cd : Dict.t (Dict.t string)) (nodes : list TreeNode)
  (date : option Z) (op : string) (ops : list string)
  (t : portfolio_tree) (tys : list coltype) (errors : list string) :
  options_operating_currency L = op :: ops ->
  _portfolio_data L cd nodes date = ok (t, tys, errors) ->
  (forall c, is_Some (find_class c t) <->
     exists n, n ∈ nodes /\ has_balance n = true /\ asset_class_of cd n = c) /\
  (forall c s, is_Some (find_subclass c s t) <->
     exists n, n ∈ nodes /\ has_balance n = true /\
       asset_class_of cd n = c /\ asset_subclass_of cd n = s) /\
  (forall c s a, is_Some (find_account c s a t) <->
     exists n, n ∈ nodes /\ has_balance n = true /\
       skipped L op date n = false /\
       asset_class_of cd n = c /\ asset_subclass_of cd n = s /\ name n = a).
Proof.
  intros Hop Hrun.
  destruct (portfolio_data_ok _ _ _ _ _ _ _ Hrun)
    as (op0 & ops0 & t1 & Hop0 & E & -> & -> & _).
  rewrite Hop in Hop0. inversion Hop0; subst op0 ops0.
  destruct (process_nodes_grow L cd op date nodes _ _ _ _ E) as (H1 & H2 & H3).
  split; [|split]; intros.
  - rewrite find_class_filled, is_Some_option_map, H1.
    split; [intros [[x Hx]|Hc]; [discriminate | exact Hc] | now right].
  - rewrite find_subclass_filled, is_Some_option_map, H2.
    split; [intros [[x Hx]|Hc]; [discriminate | exact Hc] | now right].
  - rewrite find_account_filled, is_Some_option_map, H3.
    split; [intros [[x Hx]|Hc]; [discriminate | exact Hc] | now right].
Qed.

Lemma rows_of_the_portfolio_tree_witness :
  is_Some (find_class "noclass" Example.tree) /\
  ~ is_Some (find_account "noclass" "nosubclass" "Assets:Euro" Example.tree).
Proof.
  destruct (rows_of_the_portfolio_tree Example.L Example.cd Example.nodes None
              "USD" [] Example.tree types Example.errors eq_refl
              Example.portfolio_data_nodes) as (H1 & _ & H3).
  split.
  - apply H1. exists Example.euro. split; [|split; reflexivity].
    unfold Example.nodes. do 3 right. left.
  - intros H. apply H3 in H as (n & Hn & _ & Hs & _ & _ & Hname).
    repeat (apply elem_of_cons in Hn as [->|Hn]);
      try (cbn [name Example.cash Example.points Example.bond] in Hname;
           discriminate Hname).
    + vm_compute in Hs. discriminate Hs.
    + inversion Hn.
Defined.

(** ** Allocations are percentages *)

Lemma round2_between (q lo hi : Q) :
  lo <= q * 100 -> q * 100 <= hi ->
  (- 10 ^ prec < round_half_even lo)%Z -> (round_half_even hi < 10 ^ prec)%Z ->
  exists r, round2 q = ok r /\
    inject_Z (round_half_even lo) / 100 <= r /\
    r <= inject_Z (round_half_even hi) / 100.
Proof.
  intros H1 H2 Hlo Hhi. unfold round2.
  pose proof (round_half_even_mono _ _ H1) as R1.
  pose proof (round_half_even_mono _ _ H2) as R2.
  set (c := round_half_even (q * 100)) in *.
  assert ((Z.abs c <? 10 ^ prec)%Z = true) as Hc by (apply Z.ltb_lt; lia).
  rewrite Hc. eexists. split; [reflexivity|].
  rewrite (Qmake_Qdiv c 100). change (inject_Z (Z.pos 100)) with 100.
  rewrite Zle_Qle in R1, R2. split.
  - apply Qmult_le_compat_r; [exact R1 | discriminate].
  - apply Qmult_le_compat_r; [exact R2 | discriminate].
Qed.

(** What rounding to the precision can take from a number: one part in
    [10 ^ 27]. *)
Definition slack : Q := 1 # 1000000000000000000000000000.

Lemma slack_power : 10 ^ (1 - prec) == slack.
Proof. reflexivity. Qed.

(** A part that is not negative and, but for the rounding, at most the
    total it is measured against is allocated a percentage between 0 and
    100, and [round] does not raise. *)
Lemma allocation_percentage (part total : Decimal) :
  0 <= part -> part * (1 - slack) <= total ->
  exists v, allocation part total = ok v /\ 0 <= v /\ v <= 100.
Proof.
  intros H0 Hle. unfold allocation, dec_div, ZERO.
  destruct (Qeq_bool total 0) eqn:E; [exists 0; repeat split; lra|].
  assert (~ total == 0) as Hne by (intros H; apply Qeq_bool_iff in H; congruence).
  assert (0 < slack /\ slack < 1) as [Hs0 Hs1] by (split; reflexivity).
  assert (0 <= part * (1 - slack)) as Hp by (apply Qmult_le_0_compat; lra).
  assert (0 < total) as Hpos by lra.
  cbn [rbind].
  set (x := part / total).
  assert (0 <= x) as Hx0.
  { apply Qle_shift_div_l; [exact Hpos | lra]. }
  assert (x <= 1 + 2 * slack) as Hx1.
  { apply Qle_shift_div_r; [exact Hpos|].
    assert (part <= part * (1 - slack) * (1 + 2 * slack)) as H1.
    { assert (part * (1 - slack) * (1 + 2 * slack) ==
              part + part * (slack * (1 - 2 * slack))) as -> by ring.
      assert (0 <= part * (slack * (1 - 2 * slack))).
      { apply Qmult_le_0_compat; [exact H0|].
        apply Qmult_le_0_compat; [lra|]. vm_compute. discriminate. }
      lra. }
    assert (part * (1 - slack) * (1 + 2 * slack) <= total * (1 + 2 * slack)) as H2.
    { apply Qmult_le_compat_r; [exact Hle | lra]. }
    lra. }
  assert (0 <= round_prec x) as Hr0 by now apply round_prec_nonneg.
  assert (round_prec x <= 1 + 2 * slack) as Hr1.
  { rewrite <- (round_prec_fixed (1 + 2 * slack)
                  1000000000000000000000000002 (-27)); [|reflexivity|reflexivity].
    now apply round_prec_mono. }
  unfold dec_mul.
  set (y := round_prec (round_prec x * (100 # 1))).
  assert (0 <= y) as Hy0.
  { apply round_prec_nonneg. apply Qmult_le_0_compat; [exact Hr0 | discriminate]. }
  assert (y <= (1 + 2 * slack) * 100) as Hy1.
  { rewrite <- (round_prec_fixed ((1 + 2 * slack) * 100)
                  1000000000000000000000000002 (-25)); [|reflexivity|reflexivity].
    apply round_prec_mono.
    - apply Qmult_le_0_compat; [exact Hr0 | discriminate].
    - apply Qmult_le_compat_r; [exact Hr1 | discriminate]. }
  destruct (round2_between y 0 ((1 + 2 * slack) * 100 * 100)) as (r & Hr & R1 & R2).
  - apply Qmult_le_0_compat; [exact Hy0 | discriminate].
  - apply Qmult_le_compat_r; [exact Hy1 | discriminate].
  - vm_compute. reflexivity.
  - vm_compute. reflexivity.
  - exists r. split; [exact Hr|]. split.
    + eapply Qle_trans; [|exact R1]. vm_compute. discriminate.
    + eapply Qle_trans; [exact R2|]. vm_compute. discriminate.
Qed.

Definition percentage (d : Decimal) : Prop := 0 <= d /\ d <= 100.

Definition percentage_opt (o : option Decimal) : Prop :=
  exists d, o = Some d /\ percentage d.

Lemma allocation_value_percentage (part total : Decimal) :
  0 <= part -> part * (1 - slack) <= total ->
  succeeds (allocation part total) /\ percentage (allocation_value part total).
Proof.
  intros H0 Hle. destruct (allocation_percentage part total H0 Hle) as (v & Hv & Hb).
  unfold allocation_value. rewrite Hv. split; [exact I | exact Hb].
Qed.

Section Percentages.
Context (L : Ledger) (cd : Dict.t (Dict.t string)) (op : string)
  (date : option Z).

(** Every record of the tree is the record of one of the nodes, entered
    under the tags of that node with the value the node contributes. *)
Definition recorded (nodes : list TreeNode) (t : portfolio_tree) : Prop :=
  forall c s a rec,
    find_account c s a t = Some rec ->
    exists n, n ∈ nodes /\ entered L op date n = true /\
      in_subclass cd c s n = true /\
      balance_market_value rec = contribution L op date n.

Lemma process_node_recorded t e t' e' node c s a rec :
  process_node L cd op date (t, e) node = ok (t', e') ->
  find_account c s a t' = Some rec ->
  find_account c s a t = Some rec \/
  (entered L op date node = true /\ in_subclass cd c s node = true /\
   balance_market_value rec = contribution L op date node).
Proof.
  rewrite process_node_unfold. unfold contribution, in_subclass, entered.
  destruct (balance node); [inversion 1; subst; auto|]. cbv zeta.
  destruct (_convert_cost L op node date) as [x|conv]; [discriminate|].
  cbn [rbind].
  destruct (String.eqb op (currency conv)).
  - destruct (value_account L op date node (number conv)) as [x|[d v]] eqn:Hv;
      [discriminate|]. cbn [rbind]. inversion 1; subst.
    rewrite !find_account_accounts_of, enter_accounts.
    destruct (_ && _); [|auto].
    destruct (String.eqb_spec (name node) a) as [->|Hne].
    + rewrite get_set_eq. inversion 1; subst. right.
      split; [reflexivity|]. split; [reflexivity|].
      eapply value_account_market_value; eauto.
    + rewrite get_set_ne by exact Hne. auto.
  - inversion 1; subst. intros Hrec. left. rewrite <- Hrec.
    apply find_account_same_content. apply same_content_sym.
    eapply same_content_trans; [apply ensure_subclass_same_content|].
    apply ensure_class_same_content.
Qed.

Lemma process_nodes_recorded nodes : forall t e t' e' c s a rec,
  process_nodes L cd op date (t, e) nodes = ok (t', e') ->
  find_account c s a t' = Some rec ->
  find_account c s a t = Some rec \/
  exists n, n ∈ nodes /\ entered L op date n = true /\
    in_subclass cd c s n = true /\
    balance_market_value rec = contribution L op date n.
Proof.
  induction nodes as [|n nodes IH]; intros t e t' e' c s a rec;
    cbn [process_nodes].
  - inversion 1; subst. auto.
  - destruct (process_node L cd op date (t, e) n) as [x|[t1 e1]] eqn:E;
      cbn [rbind]; [discriminate|].
    intros H Hrec. destruct (IH _ _ _ _ _ _ _ _ H Hrec) as [H1|(m & Hm & HP)].
    + destruct (process_node_recorded _ _ _ _ _ _ _ _ _ E H1) as [H0|HP]; auto.
      right. exists n. split; [left | exact HP].
    + right. exists m. split; [now right | exact HP].
Qed.

(** Running totals of values that are not negative. *)
Lemma running_total_bounds P nodes : forall start,
  (forall n, n ∈ nodes -> 0 <= contribution L op date n) ->
  0 <= start -> round_prec start == start ->
  start <= running_total L op date P nodes start.
Proof.
  induction nodes as [|n nodes IH]; intros start Hpos H0 Hr; cbn; [lra|].
  assert (0 <= contribution L op date n) as Hn by (apply Hpos; left).
  assert (forall m, m ∈ nodes -> 0 <= contribution L op date m) as Hpos'
    by (intros m Hm; apply Hpos; now right).
  destruct (P n).
  - assert (start <= dec_add start (contribution L op date n)) as Hs.
    { rewrite <- Hr at 1. unfold dec_add. apply round_prec_mono; lra. }
    eapply Qle_trans; [exact Hs|].
    apply IH; [exact Hpos' | lra | apply round_prec_idem].
  - now apply IH.
Qed.

Lemma running_total_le P Q nodes : forall a b,
  (forall n, n ∈ nodes -> 0 <= contribution L op date n) ->
  (forall n, P n = true -> Q n = true \/ contribution L op date n == 0) ->
  0 <= a -> a <= b -> round_prec a == a -> round_prec b == b ->
  running_total L op date P nodes a <= running_total L op date Q nodes b.
Proof.
  induction nodes as [|n nodes IH]; intros a b Hpos HPQ H0 Hab Ha Hb; cbn;
    [exact Hab|].
  assert (0 <= contribution L op date n) as Hn by (apply Hpos; left).
  assert (forall m, m ∈ nodes -> 0 <= contribution L op date m) as Hpos'
    by (intros m Hm; apply Hpos; now right).
  set (v := contribution L op date n) in *.
  assert (b <= dec_add b v) as Hbv.
  { rewrite <- Hb at 1. unfold dec_add. apply round_prec_mono; lra. }
  destruct (P n) eqn:HP, (Q n) eqn:HQ.
  - apply IH; auto.
    + unfold dec_add. apply round_prec_nonneg. lra.
    + unfold dec_add. apply round_prec_mono; lra.
    + apply round_prec_idem.
    + apply round_prec_idem.
  - destruct (HPQ n HP) as [HQ'|Hz]; [congruence|]. fold v in Hz.
    assert (dec_add a v == a) as Hav.
    { unfold dec_add. assert (a + v == a) as -> by (rewrite Hz; lra). exact Ha. }
    apply IH; auto.
    + rewrite Hav. exact H0.
    + rewrite Hav. exact Hab.
    + apply round_prec_idem.
  - apply IH; auto.
    + lra.
    + apply round_prec_idem.
  - apply IH; auto.
Qed.

Lemma running_total_member P nodes n : forall start,
  (forall n, n ∈ nodes -> 0 <= contribution L op date n) ->
  n ∈ nodes -> P n = true ->
  0 <= start -> round_prec start == start ->
  contribution L op date n * (1 - slack) <= running_total L op date P nodes start.
Proof.
  induction nodes as [|m nodes IH]; intros start Hpos Hn HP H0 Hr;
    [inversion Hn|].
  assert (0 <= contribution L op date m) as Hm by (apply Hpos; left).
  assert (forall k, k ∈ nodes -> 0 <= contribution L op date k) as Hpos'
    by (intros k Hk; apply Hpos; now right).
  cbn. apply elem_of_cons in Hn as [->|Hn].
  - rewrite HP.
    set (v := contribution L op date m) in *.
    assert (v * (1 - slack) <= dec_add start v) as Hv.
    { destruct (round_prec_close v Hm) as [Hc _]. rewrite slack_power in Hc.
      eapply Qle_trans; [exact Hc|].
      unfold dec_add. apply round_prec_mono; lra. }
    eapply Qle_trans; [exact Hv|].
    apply running_total_bounds; [exact Hpos' | | apply round_prec_idem].
    unfold dec_add. apply round_prec_nonneg. lra.
  - destruct (P m).
    + apply IH; auto.
      * unfold dec_add. apply round_prec_nonneg. lra.
      * apply round_prec_idem.
    + apply IH; auto.
Qed.

(** After the first loop over nodes of values that are not negative: the
    totals are not negative, the total of a subclass is at most that of
    its class and this at most that of the portfolio, and the value of an
    account is, but for the rounding, at most the total of its subclass. *)
Lemma process_nodes_bounds nodes t e :
  (forall n, n ∈ nodes -> 0 <= contribution L op date n) ->
  process_nodes L cd op date (empty_tree, []) nodes = ok (t, e) ->
  forall c s,
    0 <= subclass_total_of c s t /\
    subclass_total_of c s t <= class_total_of c t /\
    class_total_of c t <= portfolio_total t /\
    forall a rec, Dict.get a (accounts_of c s t) = Some rec ->
      0 <= balance_market_value rec /\
      balance_market_value rec * (1 - slack) <= subclass_total_of c s t.
Proof.
  intros Hpos E c s.
  destruct (process_nodes_running L cd op date _ _ _ _ _ E) as (R1 & R2 & R3).
  rewrite R1, R2, R3. cbn [portfolio_total empty_tree].
  change (class_total_of c empty_tree) with ZERO.
  change (subclass_total_of c s empty_tree) with ZERO.
  assert (round_prec ZERO == ZERO) as Hz by reflexivity.
  assert (0 <= ZERO) as Hz0 by (unfold ZERO; lra).
  split; [|split; [|split]].
  - eapply Qle_trans; [exact Hz0|]. now apply running_total_bounds.
  - apply running_total_le;
      [exact Hpos | | exact Hz0 | unfold ZERO; lra | exact Hz | exact Hz].
    intros n Hn. left. unfold in_subclass, in_class in *.
    apply andb_true_iff in Hn as [-> Hn]. now apply andb_true_iff in Hn as [-> _].
  - apply running_total_le;
      [exact Hpos | | exact Hz0 | unfold ZERO; lra | exact Hz | exact Hz].
    intros n Hn. destruct (truthy (contribution L op date n)) eqn:Ht; [now left|].
    right. now apply truthy_false.
  - intros a rec Ha.
    assert (find_account c s a t = Some rec) as Hrec.
    { rewrite find_account_accounts_of. exact Ha. }
    destruct (process_nodes_recorded nodes _ _ _ _ _ _ _ _ E Hrec)
      as [H0|(n & Hn & Hen & Hin & Hv)]; [discriminate|].
    rewrite Hv. split; [now apply Hpos|].
    apply running_total_member; auto. now rewrite Hen, Hin.
Qed.

Lemma process_nodes_allocatable nodes t e :
  (forall n, n ∈ nodes -> 0 <= contribution L op date n) ->
  process_nodes L cd op date (empty_tree, []) nodes = ok (t, e) ->
  allocatable t.
Proof.
  intros Hpos E c s.
  destruct (process_nodes_bounds nodes t e Hpos E c s) as (B1 & B2 & B3 & B4).
  assert (0 < slack /\ slack < 1) as [Hs0 Hs1] by (split; reflexivity).
  assert (forall p q, 0 <= p -> p <= q -> p * (1 - slack) <= q) as Hslack.
  { intros p q Hp Hpq.
    assert (0 <= p * slack) by (apply Qmult_le_0_compat; lra).
    assert (p * (1 - slack) == p - p * slack) as -> by ring. lra. }
  split; [|split; [|split]].
  - apply allocation_value_percentage; [lra | apply Hslack; lra].
  - apply allocation_value_percentage; [lra | apply Hslack; lra].
  - apply allocation_value_percentage; [lra | apply Hslack; lra].
  - intros a acc Ha. destruct (B4 a acc Ha) as [V0 V1].
    split; [|split]; apply allocation_value_percentage; auto; lra.
Qed.

End Percentages.

(** X13: when no node contributes a negative value, every allocation of
    the tree [_portfolio_data] returns is a percentage between 0 and 100:
    that of each class, the two of each subclass and the three of each
    account. *)
Theorem allocations_are_percentages
  (L : Ledger) (cd : Dict.t (Dict.t string)) (nodes : list TreeNode)
  (date : option Z) (op : string) (ops : list string)
  (t : portfolio_tree) (tys : list coltype) (errors : list string) :
  options_operating_currency L = op :: ops ->
  (forall n, n ∈ nodes -> 0 <= contribution L op date n) ->
  _portfolio_data L cd nodes date = ok (t, tys, errors) ->
  forall c cls, Dict.get c (asset_classes t) = Some cls ->
    percentage (cls_portfolio_allocation cls) /\
    forall s sd, Dict.get s (asset_subclasses cls) = Some sd ->
      percentage (sub_portfolio_allocation sd) /\
      percentage_opt (sub_asset_class_allocation sd) /\
      forall a rec, Dict.get a (accounts sd) = Some rec ->
        percentage_opt (acc_portfolio_allocation rec) /\
        percentage_opt (acc_asset_class_allocation rec) /\
        percentage_opt (acc_asset_subclass_allocation rec).
Proof.
  intros Hop Hpos Hrun.
  destruct (portfolio_data_ok _ _ _ _ _ _ _ Hrun)
    as (op0 & ops0 & t1 & Hop0 & E & -> & -> & _).
  rewrite Hop in Hop0. inversion Hop0; subst op0 ops0.
  assert (0 < slack /\ slack < 1) as [Hsl0 Hsl1] by (split; reflexivity).
  assert (forall p q, 0 <= p -> p <= q -> p * (1 - slack) <= q) as Hslack.
  { intros p q Hp Hpq.
    assert (0 <= p * slack) by (apply Qmult_le_0_compat; lra).
    assert (p * (1 - slack) == p - p * slack) as -> by ring. lra. }
  intros c cls Hc. unfold filled in Hc. cbn [asset_classes] in Hc.
  rewrite get_map in Hc.
  destruct (Dict.get c (asset_classes t1)) as [cls1|] eqn:Hc1; [|discriminate].
  inversion Hc; subst cls. clear Hc.
  assert (class_total_of c t1 = asset_class_total cls1) as HCT.
  { unfold class_total_of, find_class. now rewrite Hc1. }
  pose proof (process_nodes_bounds L cd op date nodes t1 errors Hpos E c) as HB.
  rewrite HCT in HB.
  cbn [filled_class cls_portfolio_allocation asset_subclasses].
  split.
  { destruct (HB EmptyString) as (B1 & B2 & B3 & _).
    apply allocation_value_percentage; [lra | apply Hslack; lra]. }
  intros s sd Hs. rewrite get_map in Hs.
  destruct (Dict.get s (asset_subclasses cls1)) as [sd1|] eqn:Hs1; [|discriminate].
  inversion Hs; subst sd. clear Hs.
  assert (find_subclass c s t1 = Some sd1) as Hfs.
  { unfold find_subclass, find_class. now rewrite Hc1. }
  destruct (HB s) as (B1 & B2 & B3 & B4).
  unfold subclass_total_of, accounts_of in B1, B2, B4. rewrite Hfs in B1, B2, B4.
  cbn [filled_subclass sub_portfolio_allocation sub_asset_class_allocation
       accounts].
  split; [apply allocation_value_percentage; [lra | apply Hslack; lra]|].
  split; [eexists; split; [reflexivity|];
          apply allocation_value_percentage; [lra | apply Hslack; lra]|].
  intros a rec Ha. rewrite get_map in Ha.
  destruct (Dict.get a (accounts sd1)) as [rec1|] eqn:Ha1; [|discriminate].
  inversion Ha; subst rec. clear Ha.
  destruct (B4 a rec1 Ha1) as [V0 V1].
  cbn [filled_account acc_portfolio_allocation acc_asset_class_allocation
       acc_asset_subclass_allocation balance_market_value].
  split; [|split]; (eexists; split; [reflexivity|]);
    apply allocation_value_percentage; auto; lra.
Qed.

Lemma allocations_are_percentages_witness :
  exists cls,
    Dict.get "bond" (asset_classes Example.tree) = Some cls /\
    percentage (cls_portfolio_allocation cls).
Proof.
  destruct (Dict.get "bond" (asset_classes Example.tree)) as [cls|] eqn:Hc;
    [|vm_compute in Hc; discriminate].
  exists cls. split; [reflexivity|].
  assert (forall n, n ∈ Example.nodes -> 0 <= contribution Example.L "USD" None n)
    as Hpos.
  { intros n Hn. apply list_elem_of_In in Hn. cbn [Example.nodes In] in Hn.
    destruct Hn as [<-|[<-|[<-|[<-|[]]]]]; vm_compute; discriminate. }
  exact (proj1 (allocations_are_percentages Example.L Example.cd Example.nodes
                  None "USD" [] Example.tree types Example.errors eq_refl Hpos
                  Example.portfolio_data_nodes "bond"%string cls Hc)).
Defined.

(** X17: when every node can be valued and none contributes a negative
    value, [_portfolio_data] returns: no [round] of the second loop
    raises. *)
Theorem portfolio_data_of_nonnegative_values_returns
  (L : Ledger) (cd : Dict.t (Dict.t string)) (nodes : list TreeNode)
  (date : option Z) (op : string) (ops : list string) :
  options_operating_currency L = op :: ops ->
  (forall n, n ∈ nodes -> breaks L op date n = false) ->
  (forall n, n ∈ nodes -> 0 <= contribution L op date n) ->
  exists t errors, _portfolio_data L cd nodes date = ok (t, types, errors).
Proof.
  intros Hop Hno Hpos. unfold _portfolio_data. rewrite Hop.
  pose proof (process_nodes_breaks L cd op date nodes empty_tree []) as H.
  destruct (process_nodes L cd op date (empty_tree, []) nodes) as [x|[t e]] eqn:E;
    cbn [rbind].
  - destruct H as [(n & Hn & Hb) _]. rewrite (Hno n Hn) in Hb. discriminate.
  - exists (filled t), e. rewrite (allocate_allocatable t); [reflexivity| |].
    + eapply distinct_process_nodes; [exact E|]. split; constructor.
    + exact (process_nodes_allocatable L cd op date nodes t e Hpos E).
Qed.

Lemma portfolio_data_of_nonnegative_values_witness :
  exists t errors,
    _portfolio_data Example.L Example.cd Example.nodes None = ok (t, types, errors).
Proof.
  assert (forall n, n ∈ Example.nodes -> breaks Example.L "USD" None n = false)
    as Hno.
  { intros n Hn. apply list_elem_of_In in Hn. cbn [Example.nodes In] in Hn.
    destruct Hn as [<-|[<-|[<-|[<-|[]]]]]; vm_compute; reflexivity. }
  assert (forall n, n ∈ Example.nodes -> 0 <= contribution Example.L "USD" None n)
    as Hpos.
  { intros n Hn. apply list_elem_of_In in Hn. cbn [Example.nodes In] in Hn.
    destruct Hn as [<-|[<-|[<-|[<-|[]]]]]; vm_compute; discriminate. }
  exact (portfolio_data_of_nonnegative_values_returns Example.L Example.cd
           Example.nodes None "USD" [] eq_refl Hno Hpos).
Defined.

(** ** Selecting the accounts of a view *)

Section Selecting.
Context (tree : Dict.t TreeNode).


Lemma select_nodes_entries (sub : list (string * TreeNode)) :
  Forall (fun kv => Dict.get (fst kv) tree = Some (snd kv)) sub ->
  select_nodes tree (map fst sub) = ok (map snd sub).
Proof.
  induction 1 as [|[k n] sub Hk Hsub IH]; [reflexivity|].
  cbn [map select_nodes fst snd] in *. now rewrite Hk, IH.
Qed.

Lemma selected_by_name (regexer : string -> bool) (names : list string) :
  forall selected,
    NoDup (selected ++ names) ->
    fold_left (fun selected acct =>
                 if regexer acct && negb (existsb (String.eqb acct) selected)
                 then selected ++ [acct] else selected)
      names selected
    = selected ++ List.filter regexer names.
Proof.
  induction names as [|a names IH]; intros selected Hnd; cbn [fold_left List.filter].
  - now rewrite app_nil_r.
  - assert (existsb (String.eqb a) selected = false) as Hnew.
    { apply not_true_is_false. intros H. apply existsb_exists in H as (b & Hb & Hab).
      apply String.eqb_eq in Hab. subst b.
      apply NoDup_app in Hnd as (_ & Hd & _).
      apply (Hd a); [now apply list_elem_of_In | left]. }
    rewrite Hnew, andb_true_r.
    destruct (regexer a).
    + rewrite IH; [now rewrite <- app_assoc|].
      now rewrite <- app_assoc.
    + apply IH. apply NoDup_app in Hnd as (H1 & H2 & H3).
      apply NoDup_cons in H3 as [_ H3].
      apply NoDup_app. repeat split; auto.
      intros x Hx Hx'. apply (H2 x Hx). now right.
Qed.

Lemma filter_keys (regexer : string -> bool) (d : Dict.t TreeNode) :
  List.filter regexer (Dict.keys d) =
  map fst (List.filter (fun kv => regexer (fst kv)) d).
Proof.
  unfold Dict.keys. induction d as [|[k n] d IH]; [reflexivity|].
  cbn [map List.filter fst]. destruct (regexer k); cbn [map fst]; congruence.
Qed.

End Selecting.

(** X7: [_account_name_pattern] selects the accounts of the tree whose name
    the pattern matches, each once and in the order of the tree, and
    returns the table [_portfolio_data] builds for their nodes, with the
    capitalized pattern as title; looking the selected names up in the
    tree never fails. *)
Theorem name_pattern_selects_the_matching_accounts
  (L : Ledger) (cd : Dict.t (Dict.t string)) (tree : Dict.t TreeNode)
  (date : option Z) (pattern : string) (regexer : string -> bool) :
  NoDup (Dict.keys tree) ->
  re_compile L pattern = Some regexer ->
  _account_name_pattern L cd tree date pattern =
  (portfolio_data <-?
     _portfolio_data L cd
       (map snd (List.filter (fun kv => regexer (fst kv)) tree)) date ;
   ok (capitalize L pattern,
       ("Account names matching: '" ++ pattern ++ "'")%string,
       portfolio_data)).
Proof.
  intros Hnd Hre. unfold _account_name_pattern, regex. rewrite Hre. cbn [rbind].
  rewrite (selected_by_name regexer (Dict.keys tree) []) by exact Hnd.
  cbn [app]. rewrite filter_keys, select_nodes_entries; [reflexivity|].
  apply Forall_forall. intros [k n] Hin. cbn [fst snd].
  apply elem_of_get; [exact Hnd|].
  apply list_elem_of_In. apply list_elem_of_In in Hin.
  now apply filter_In in Hin as [Hin _].
Qed.

Lemma name_pattern_witness :
  _account_name_pattern Example.L Example.cd (account_tree Example.L None None)
    None "Assets:C" =
  (portfolio_data <-?
     _portfolio_data Example.L Example.cd
       (map snd (List.filter (fun kv => String.prefix "Assets:C" (fst kv))
                   (account_tree Example.L None None))) None ;
   ok ("Assets:c"%string, "Account names matching: 'Assets:C'"%string,
       portfolio_data)).
Proof.
  assert (NoDup (Dict.keys (account_tree Example.L None None))) as Hnd
    by (apply (bool_decide_unpack _); vm_compute; exact I).
  exact (name_pattern_selects_the_matching_accounts Example.L Example.cd
           (account_tree Example.L None None) None "Assets:C"
           (String.prefix "Assets:C") Hnd eq_refl).
Defined.






(** ** The report, continued *)

Section Report.
Context (L : Ledger) (cd : Dict.t (Dict.t string)) (tree : Dict.t TreeNode)
  (end_ : option Z).

Lemma portfolio_data_without_currency nodes date :
  options_operating_currency L = [] ->
  _portfolio_data L cd nodes date = raise IndexError.
Proof. unfold _portfolio_data. now intros ->. Qed.

Lemma portfolio_of_option_without_currency option s :
  options_operating_currency L = [] ->
  exists x, portfolio_of_option L cd tree end_ option s = (raise x, s).
Proof.
  intros Hop. unfold portfolio_of_option, bind, lift.
  destruct (String.eqb (fst option) "account_name_pattern").
  - destruct (arg_pattern (snd option)) as [x|pattern]; cbn [rbind]; eauto.
    unfold _account_name_pattern.
    destruct (regex L pattern) as [x|regexer]; cbn [rbind]; eauto.
    destruct (select_nodes tree _) as [x|nodes]; cbn [rbind]; eauto.
    rewrite portfolio_data_without_currency by exact Hop. cbn [rbind]. eauto.
  - destruct (String.eqb (fst option) "account_open_metadata_pattern"); eauto.
    destruct (arg_pair (snd option)) as [x|[key pattern]]; cbn [rbind]; eauto.
    unfold _account_metadata_pattern.
    destruct (regex L pattern) as [x|regexer]; cbn [rbind]; eauto.
    destruct (select_by_metadata regexer key (all_entries_Open L) [])
      as [x|selected]; cbn [rbind]; eauto.
    destruct (select_nodes tree _) as [x|nodes]; cbn [rbind]; eauto.
    rewrite portfolio_data_without_currency by exact Hop. cbn [rbind]. eauto.
Qed.

Lemma portfolios_loop_length config : forall acc s,
  let r := portfolios_loop L cd tree end_ config acc s in
  (length acc <= length (fst (fst r)) <= length acc + length config)%nat /\
  (snd (fst r) = None <->
   length (fst (fst r)) = (length acc + length config)%nat).
Proof.
  induction config as [|option config IH]; intros acc s; cbn [portfolios_loop].
  - cbn. split; [lia|]. split; auto; lia.
  - destruct (portfolio_of_option L cd tree end_ option s) as [[x|p] s'].
    + cbn. split; [lia|]. split; [discriminate | lia].
    + specialize (IH (acc ++ [p]) s'). cbv zeta in IH |- *.
      rewrite length_app in IH. cbn [length] in IH |- *.
      destruct IH as [IH1 IH2]. split; [lia|].
      rewrite IH2. split; lia.
Qed.

End Report.

(** X9: in a ledger that declares no operating currency no view can be
    computed: whatever the configuration, [portfolio_accounts] returns the
    empty list and leaves the store as it was; unless the configuration is
    empty, an exception has been caught. *)
Theorem no_operating_currency_no_portfolio
  (L : Ledger) (config : list config_option) (begin end_ : option Z) (s : store) :
  options_operating_currency L = [] ->
  exists logged,
    portfolio_accounts L config begin end_ s = ([], logged, s) /\
    (config <> [] -> logged <> None).
Proof.
  intros Hop. unfold portfolio_accounts.
  destruct config as [|option config]; cbn [portfolios_loop].
  - exists None. split; [reflexivity | congruence].
  - destruct (portfolio_of_option_without_currency L (load_report L)
                (account_tree L begin end_) end_ option s Hop) as [x ->].
    exists (Some x). split; [reflexivity | discriminate].
Qed.

(** The example ledger without its operating currency. *)
Definition without_currency : Ledger :=
  mkLedger [] (all_entries_Commodity Example.L) (reduce_get_cost Example.L)
    (convert_amount Example.L) (reduce_convert_position Example.L)
    (get_latest_price Example.L) (account_tree Example.L)
    (all_entries_Open Example.L) (re_compile Example.L) (capitalize Example.L).

Lemma no_operating_currency_witness :
  exists logged,
    portfolio_accounts without_currency config_valid None None []
      = ([], logged, []) /\
    (config_valid <> [] -> logged <> None).
Proof.
  apply (no_operating_currency_no_portfolio without_currency config_valid
           None None []).
  reflexivity.
Defined.

(** X10: the list [portfolio_accounts] returns never holds more entries
    than the configuration has views, and it holds one for every view
    exactly when no exception was caught. *)
Theorem report_is_complete_unless_an_exception_was_caught
  (L : Ledger) (config : list config_option) (begin end_ : option Z) (s : store) :
  let r := portfolio_accounts L config begin end_ s in
  (length (fst (fst r)) <= length config)%nat /\
  (snd (fst r) = None <-> length (fst (fst r)) = length config).
Proof.
  unfold portfolio_accounts.
  pose proof (portfolios_loop_length L (load_report L)
                (account_tree L begin end_) end_ config [] s) as H.
  cbv zeta in H |- *. cbn [length] in H. destruct H as [H1 H2].
  split; [lia | exact H2].
Qed.

(** * Flattening *)

(** ** Values in the store that are trees

    [own s v t F]: in the store [s] the value [v] is the tree [t], its
    dictionaries are the objects at the locations [F], and no object occurs
    twice in it.  Every dictionary has each key once. *)

Inductive own (s : store) : val -> pval -> gset nat -> Prop :=
| own_none : own s VNone PNone ∅
| own_dec d : own s (VDec d) (PDec d) ∅
| own_date d : own s (VDate d) (PDate d) ∅
| own_int n : own s (VInt n) (PInt n) ∅
| own_tuple a b ta tb Fa Fb :
    own s a ta Fa -> own s b tb Fb -> Fa ## Fb ->
    own s (VTuple a b) (PTuple ta tb) (Fa ∪ Fb)
| own_ref l vs d F :
    s !! l = Some vs -> NoDup (Dict.keys vs) -> owns s vs d F -> l ∉ F ->
    own s (VRef l) (PDict d) ({[l]} ∪ F)
with owns (s : store) : Dict.t val -> list (string * pval) -> gset nat -> Prop :=
| owns_nil : owns s [] [] ∅
| owns_cons k v t vs d F1 F2 :
    own s v t F1 -> owns s vs d F2 -> F1 ## F2 ->
    owns s ((k, v) :: vs) ((k, t) :: d) (F1 ∪ F2).

Scheme own_mut := Induction for own Sort Prop
  with owns_mut := Induction for owns Sort Prop.

(** The cell [{"rowspan": n}]. *)
Definition pspan (n : Z) : pval := PDict [("rowspan"%string, PInt n)].

(** ** The flattening of a tree, as a function on trees

    The same steps as [rows_loop], on the entries of [new_data]: the row of
    a key is the first component of its entry (it is [data[key]] itself). *)

Definition pget (t : pval) (k : string) : option pval :=
  match t with PDict d => Dict.get k d | _ => None end.

Definition pset (t : pval) (k : string) (v : pval) : option pval :=
  match t with PDict d => Some (PDict (Dict.set k v d)) | _ => None end.

Definition pfst (t : pval) : option pval :=
  match t with PTuple a _ => Some a | _ => None end.

Definition psnd (t : pval) : option pval :=
  match t with PTuple _ b => Some b | _ => None end.

Fixpoint map_values {A B} (f : A -> option B) (d : list (string * A))
  : option (list (string * B)) :=
  match d with
  | [] => Some []
  | (k, x) :: d' =>
      match f x, map_values f d' with
      | Some y, Some d'' => Some ((k, y) :: d'')
      | _, _ => None
      end
  end.

(** [rowsum] of the entries of a flattened mapping. *)
Fixpoint span_sum (rowsum : Z) (entries : list (string * pval)) : option Z :=
  match entries with
  | [] => Some rowsum
  | (_, cell) :: rest =>
      match psnd cell with
      | Some sp =>
          match pget sp "rowspan" with
          | Some (PInt n) => span_sum (rowsum + n)%Z rest
          | _ => None
          end
      | None => None
      end
  end.

(** A scalar column of one entry. *)
Definition wrap_cell (c : string) (cell : pval) : option pval :=
  match cell with
  | PTuple row sp =>
      match pget row c with
      | Some x =>
          match pset row c (PTuple x (pspan 1)) with
          | Some row' => Some (PTuple row' sp)
          | None => None
          end
      | None => None
      end
  | _ => None
  end.

(** The span handed back to an earlier column of a row. *)
Definition respan (rowsum : Z) (row : option pval) (prior : coltype)
  : option pval :=
  match row with
  | Some row =>
      match pget row (fst prior) with
      | Some old =>
          match pfst old with
          | Some v => pset row (fst prior) (PTuple v (pspan rowsum))
          | None => None
          end
      | None => None
      end
  | None => None
  end.

(** The first group column of one entry, [flat] being the flattening of
    the nested mapping with the columns after it. *)
Definition group_cell (flat : pval -> option pval) (c : string)
  (priors : list coltype) (cell : pval) : option pval :=
  match cell with
  | PTuple row _ =>
      match pget row c with
      | Some sub =>
          match flat sub with
          | Some (PDict inner) =>
              match pset row c (PDict inner), span_sum 0 inner with
              | Some row1, Some rowsum =>
                  match fold_left (respan rowsum) priors (Some row1) with
                  | Some row2 => Some (PTuple row2 (pspan rowsum))
                  | None => None
                  end
              | _, _ => None
              end
          | _ => None
          end
      | None => None
      end
  | _ => None
  end.

(** The entries of [new_data] after the reformatting loop. *)
Definition reformatted (rows : list (string * pval)) : list (string * pval) :=
  map (fun kv => (fst kv, PTuple (snd kv) (pspan 1))) rows.

Fixpoint flat_loop (coltypes : list coltype) (colcount : nat)
  (remaining : list coltype) (entries : list (string * pval)) {struct remaining}
  : option (list (string * pval)) :=
  match remaining with
  | [] => Some entries
  | coltype :: rest =>
      if is_dict_or_accounts coltype then
        map_values
          (group_cell
             (fun sub =>
                match sub with
                | PDict rows =>
                    option_map PDict (flat_loop rest 0 rest (reformatted rows))
                | _ => None
                end)
             (fst coltype) (firstn colcount coltypes))
          entries
      else
        match map_values (wrap_cell (fst coltype)) entries with
        | Some entries' => flat_loop coltypes (S colcount) rest entries'
        | None => None
        end
  end.

(** The tree [insert_rowspans(data, coltypes, False)] returns. *)
Definition flat_rows (coltypes : list coltype) (data : pval) : option pval :=
  match data with
  | PDict rows =>
      option_map PDict (flat_loop coltypes 0 coltypes (reformatted rows))
  | _ => None
  end.

Local Close Scope Q_scope.
Local Close Scope Z_scope.
#[local] Set Warnings "-clear-no-such-hyp".

(** ** Running the primitives *)

Lemma bind_ok {A B} (m : M A) (k : A -> M B) (s s' : store) (a : A) :
  m s = (ok a, s') -> bind m k s = k a s'.
Proof. unfold bind. now intros ->. Qed.

Lemma getitem_ref l k d v (s : store) :
  s !! l = Some d -> Dict.get k d = Some v ->
  getitem (VRef l) k s = (ok v, s).
Proof.
  intros Hl Hk. unfold getitem, bind, deref. rewrite Hl. simpl. now rewrite Hk.
Qed.

Lemma setitem_ref l k d v (s : store) :
  s !! l = Some d ->
  setitem (VRef l) k v s = (ok tt, <[l := Dict.set k v d]> s).
Proof. intros Hl. unfold setitem, bind, deref. now rewrite Hl. Qed.

Lemma keys_ref l d (s : store) :
  s !! l = Some d -> keys (VRef l) s = (ok (Dict.keys d), s).
Proof. intros Hl. unfold keys, bind, deref. now rewrite Hl. Qed.

Lemma values_ref l d (s : store) :
  s !! l = Some d -> values (VRef l) s = (ok (Dict.values d), s).
Proof. intros Hl. unfold values, bind, deref. now rewrite Hl. Qed.

Lemma lookup_new (s : store) d : (s ++ [d]) !! length s = Some d.
Proof. rewrite lookup_app_r by lia. now rewrite Nat.sub_diag. Qed.

Lemma lookup_old (s : store) d x : x < length s -> (s ++ [d]) !! x = s !! x.
Proof. intros H. now apply lookup_app_l. Qed.

(** ** Ownership *)

Section Own.
Implicit Types (s : store) (F : gset nat).

Lemma own_bound s v t F : own s v t F -> forall x, x ∈ F -> x < length s.
Proof.
  induction 1 using own_mut
    with (P0 := fun vs d F _ => forall x, x ∈ F -> x < length s);
    intros x Hx.
  - apply elem_of_empty in Hx as [].
  - apply elem_of_empty in Hx as [].
  - apply elem_of_empty in Hx as [].
  - apply elem_of_empty in Hx as [].
  - apply elem_of_union in Hx as [Hx|Hx]; auto.
  - apply elem_of_union in Hx as [Hx|Hx]; auto.
    apply elem_of_singleton in Hx as ->. eapply lookup_lt_Some; eauto.
  - apply elem_of_empty in Hx as [].
  - apply elem_of_union in Hx as [Hx|Hx]; auto.
Qed.

Lemma owns_bound s vs d F : owns s vs d F -> forall x, x ∈ F -> x < length s.
Proof.
  induction 1 as [|k v t vs d F1 F2 Hv Hvs IH Hdisj]; intros x Hx.
  - apply elem_of_empty in Hx as [].
  - apply elem_of_union in Hx as [Hx|Hx]; auto. eapply own_bound; eauto.
Qed.

Lemma own_frame s s' v t F :
  own s v t F -> (forall x, x ∈ F -> s' !! x = s !! x) -> own s' v t F.
Proof.
  induction 1 using own_mut
    with (P0 := fun vs d F _ =>
            (forall x, x ∈ F -> s' !! x = s !! x) -> owns s' vs d F);
    intros Hs.
  - constructor.
  - constructor.
  - constructor.
  - constructor.
  - constructor; auto.
    + apply IHown1. intros x Hx. apply Hs. set_solver.
    + apply IHown2. intros x Hx. apply Hs. set_solver.
  - apply own_ref with (vs := vs); auto.
    + rewrite Hs by set_solver. auto.
    + apply IHown. intros x Hx. apply Hs. set_solver.
  - constructor.
  - constructor; auto.
    + apply IHown. intros x Hx. apply Hs. set_solver.
    + apply IHown0. intros x Hx. apply Hs. set_solver.
Qed.

Lemma owns_frame s s' vs d F :
  owns s vs d F -> (forall x, x ∈ F -> s' !! x = s !! x) -> owns s' vs d F.
Proof.
  induction 1 as [|k v t vs d F1 F2 Hv Hvs IH Hdisj]; intros Hs; constructor; auto.
  - eapply own_frame; eauto. set_solver.
  - apply IH. set_solver.
Qed.

Lemma owns_keys s vs d F : owns s vs d F -> Dict.keys vs = Dict.keys d.
Proof. induction 1; simpl; auto. unfold Dict.keys in *. simpl. congruence. Qed.

(** Growing the store keeps what is owned. *)
Lemma own_grow s v t F d : own s v t F -> own (s ++ [d]) v t F.
Proof.
  intros H. eapply own_frame; eauto. intros x Hx.
  apply lookup_old. eapply own_bound; eauto.
Qed.

Lemma owns_grow s vs t F d : owns s vs t F -> owns (s ++ [d]) vs t F.
Proof.
  intros H. eapply owns_frame; eauto. intros x Hx.
  apply lookup_old. eapply owns_bound; eauto.
Qed.

Lemma own_span s n : own (s ++ [rowspan n]) (VRef (length s)) (pspan n) {[length s]}.
Proof.
  replace ({[length s]} : gset nat) with ({[length s]} ∪ (∅ ∪ ∅) : gset nat)
    by set_solver.
  econstructor.
  - apply lookup_new.
  - unfold rowspan, Dict.keys. simpl. apply NoDup_singleton.
  - unfold rowspan. constructor; [constructor | constructor | set_solver].
  - set_solver.
Qed.

End Own.

(** ** Entries by key and by position *)

Section Positions.
Context {A : Type}.
Implicit Types (d : Dict.t A) (k : string).

Lemma get_lookup k v d i :
  NoDup (Dict.keys d) -> d !! i = Some (k, v) -> Dict.get k d = Some v.
Proof.
  intros Hnd Hi. apply elem_of_get; auto.
  apply list_elem_of_lookup. eauto.
Qed.

Lemma get_lookup_ex k v d :
  Dict.get k d = Some v -> exists i, d !! i = Some (k, v).
Proof. intros H. apply list_elem_of_lookup. now apply get_elem_of. Qed.

Lemma set_insert k v v' d i :
  NoDup (Dict.keys d) -> d !! i = Some (k, v) ->
  Dict.set k v' d = <[i := (k, v')]> d.
Proof.
  unfold Dict.keys. revert i.
  induction d as [|[k0 v0] d IH]; intros i Hnd Hi; [discriminate|].
  simpl in Hnd. apply NoDup_cons in Hnd as [Hk0 Hnd]. destruct i as [|i]; simpl in *.
  - inversion Hi; subst. now rewrite String.eqb_refl.
  - destruct (String.eqb_spec k k0) as [->|Hne].
    + exfalso. apply Hk0. apply list_elem_of_fmap. exists (k0, v).
      split; auto. apply list_elem_of_lookup. eauto.
    + f_equal. eauto.
Qed.

Lemma set_new k v d : Dict.get k d = None -> Dict.set k v d = d ++ [(k, v)].
Proof.
  induction d as [|[k0 v0] d IH]; simpl; auto.
  destruct (String.eqb k k0); [discriminate|]. intros H. f_equal. auto.
Qed.

Lemma keys_insert k v v' d i :
  d !! i = Some (k, v) -> Dict.keys (<[i := (k, v')]> d) = Dict.keys d.
Proof.
  unfold Dict.keys. revert i.
  induction d as [|[k0 v0] d IH]; intros [|i] Hi; simpl in *; try discriminate.
  - now inversion Hi.
  - f_equal. eauto.
Qed.

Lemma keys_app d d' : Dict.keys (d ++ d') = Dict.keys d ++ Dict.keys d'.
Proof. unfold Dict.keys. apply map_app. Qed.

End Positions.

Section Focus.
Implicit Types (s : store) (F : gset nat).

(** Taking one entry out of a dictionary that is owned, and putting
    another value in its place. *)
Lemma owns_lookup s vs d F i k t :
  owns s vs d F -> d !! i = Some (k, t) ->
  exists v Fv,
    vs !! i = Some (k, v) /\ own s v t Fv /\ Fv ⊆ F /\
    forall s' v' t' F',
      own s' v' t' F' -> F' ## (F ∖ Fv) ->
      (forall x, x ∈ (F ∖ Fv) -> s' !! x = s !! x) ->
      owns s' (<[i := (k, v')]> vs) (<[i := (k, t')]> d) (F' ∪ (F ∖ Fv)).
Proof.
  intros H. revert i.
  induction H as [|k0 v0 t0 vs d F1 F2 Hv Hvs IH Hdisj]; intros i Hi;
    [discriminate|].
  destruct i as [|i]; simpl in Hi.
  - inversion Hi; subst. exists v0, F1. repeat split; auto; [set_solver|].
    intros s' v' t' F' Hown Hd Hs. simpl.
    replace (F' ∪ (F1 ∪ F2) ∖ F1) with (F' ∪ F2) by set_solver.
    constructor; auto.
    + eapply owns_frame; eauto. intros x Hx. apply Hs. set_solver.
    + set_solver.
  - destruct (IH i Hi) as (v & Fv & Hl & Hown & Hsub & Hput).
    exists v, Fv. repeat split; auto; [set_solver|].
    intros s' v' t' F' Hown' Hd Hs. simpl.
    replace (F' ∪ (F1 ∪ F2) ∖ Fv) with (F1 ∪ (F' ∪ F2 ∖ Fv)) by set_solver.
    constructor.
    + eapply own_frame; eauto. intros x Hx. apply Hs. set_solver.
    + apply Hput; auto; [set_solver|]. intros x Hx. apply Hs. set_solver.
    + set_solver.
Qed.

(** The same inside a dictionary object, by key. *)
Lemma own_focus s l d F k t :
  own s (VRef l) (PDict d) F -> Dict.get k d = Some t ->
  exists vs v Fv,
    s !! l = Some vs /\ Dict.get k vs = Some v /\ own s v t Fv /\
    Fv ⊆ F /\ (l ∉ Fv) /\ (l ∈ F) /\
    forall s1 v' t' F',
      (forall x, x ∈ (F ∖ Fv) -> s1 !! x = s !! x) ->
      own s1 v' t' F' -> F' ## (F ∖ Fv) ->
      own (<[l := Dict.set k v' vs]> s1) (VRef l) (PDict (Dict.set k t' d))
        (F' ∪ (F ∖ Fv)).
Proof.
  intros Hown Hget. inversion Hown as [| | | | |? vs ? Fd Hl Hnd Hvs HlF]; subst.
  destruct (get_lookup_ex _ _ _ Hget) as [i Hi].
  destruct (owns_lookup _ _ _ _ _ _ _ Hvs Hi) as (v & Fv & Hvi & Hv & Hsub & Hput).
  exists vs, v, Fv. split; [exact Hl|]. split; [eapply get_lookup; eauto|].
  split; [exact Hv|]. split; [set_solver|]. split; [set_solver|].
  split; [set_solver|].
  intros s1 v' t' F' Hs Hown' Hd.
  assert (Dict.keys d = Dict.keys vs) as Hkeys by (symmetry; eapply owns_keys; eauto).
  assert (NoDup (Dict.keys d)) as Hnd' by now rewrite Hkeys.
  rewrite (set_insert _ _ v' _ _ Hnd Hvi), (set_insert _ _ t' _ _ Hnd' Hi).
  assert (s1 !! l = Some vs) as Hl1 by (rewrite Hs; [auto | set_solver]).
  replace (F' ∪ ({[l]} ∪ Fd) ∖ Fv) with ({[l]} ∪ (F' ∪ Fd ∖ Fv)) by set_solver.
  apply own_ref with (vs := <[i := (k, v')]> vs).
  - apply list_lookup_insert_eq. eapply lookup_lt_Some; eauto.
  - erewrite keys_insert; eauto.
  - apply Hput.
    + eapply own_frame; eauto. intros x Hx.
      apply list_lookup_insert_ne. set_solver.
    + set_solver.
    + intros x Hx. etrans; [apply list_lookup_insert_ne; set_solver|].
      apply Hs. set_solver.
  - set_solver.
Qed.

End Focus.

(** ** How a call changes the store

    [evolves s s' F F']: from [s] to [s'] the store has grown, the objects
    outside the footprint [F] are as they were, and the new footprint [F']
    holds, beside objects of [F], only objects made since. *)

Definition evolves (s s' : store) (F F' : gset nat) : Prop :=
  length s <= length s' /\
  (forall x, x < length s -> x ∉ F -> s' !! x = s !! x) /\
  (forall x, x ∈ F' -> x ∈ F \/ length s <= x).

Section Evolves.
Implicit Types (s : store) (F G : gset nat).

Lemma evolves_refl s F : evolves s s F F.
Proof. repeat split; auto. Qed.

Lemma evolves_trans s1 s2 s3 F1 F2 F3 :
  evolves s1 s2 F1 F2 -> evolves s2 s3 F2 F3 -> evolves s1 s3 F1 F3.
Proof.
  intros (L1 & K1 & G1) (L2 & K2 & G2). repeat split.
  - lia.
  - intros x Hx HF. rewrite K2; [now apply K1 | lia |].
    intros H2. apply G1 in H2 as [H2|H2]; [contradiction | lia].
  - intros x Hx. apply G2 in Hx as [Hx|Hx]; [|right; lia].
    apply G1 in Hx as [Hx|Hx]; auto.
Qed.

(** A change inside a part of the footprint. *)
Lemma evolves_context s s' F F' G :
  evolves s s' F F' -> F ⊆ G -> evolves s s' G (F' ∪ (G ∖ F)).
Proof.
  intros (L1 & K1 & G1) Hsub. split; [exact L1|]. split.
  - intros x Hx HG. apply K1; [exact Hx | set_solver].
  - intros x Hx. apply elem_of_union in Hx as [Hx|Hx].
    + apply G1 in Hx as [Hx|Hx]; [left; set_solver | now right].
    + left. set_solver.
Qed.

Lemma evolves_footprint s s' F F' F'' :
  evolves s s' F F' -> F'' ⊆ F' -> evolves s s' F F''.
Proof.
  intros (L1 & K1 & G1) Hsub. split; [exact L1|]. split; [exact K1|].
  intros x Hx. apply G1. set_solver.
Qed.

(** What is new is apart from what was there. *)
Lemma evolves_disjoint s s' F F' G :
  evolves s s' F F' -> (forall x, x ∈ G -> x < length s) -> G ## F -> G ## F'.
Proof.
  intros (L1 & K1 & G1) Hb Hd. apply elem_of_disjoint. intros x HG HF.
  apply G1 in HF as [HF|HF]; [set_solver|].
  apply Hb in HG. lia.
Qed.

End Evolves.

(** ** The two dictionaries of a call

    During a call [data] (at [l]) is read and never written; [new_data]
    (at [n]) holds for each key of [data] the pair of [data[key]] itself
    and a span, and is the tree [cur]. *)

Definition alias (vs nvs : Dict.t val) : Prop :=
  Forall2 (fun kv nkv =>
             fst kv = fst nkv /\ exists sp, snd nkv = VTuple (snd kv) sp)
    vs nvs.

Definition rows_inv (s : store) (l n : nat) (vs : Dict.t val)
  (cur : list (string * pval)) (G : gset nat) : Prop :=
  s !! l = Some vs /\ (l ∉ G) /\ own s (VRef n) (PDict cur) G /\
  exists nvs, s !! n = Some nvs /\ alias vs nvs.

Section RowsInv.
Implicit Types (s : store) (F G : gset nat).

Lemma alias_keys vs nvs : alias vs nvs -> Dict.keys vs = Dict.keys nvs.
Proof.
  unfold Dict.keys. induction 1 as [|kv nkv vs nvs [Hk _] _ IH]; simpl; congruence.
Qed.

Lemma rows_inv_focus s l n vs cur G i key rowt spt :
  rows_inv s l n vs cur G -> cur !! i = Some (key, PTuple rowt spt) ->
  exists vrow vsp nvs Frow Fsp,
    vs !! i = Some (key, vrow) /\
    Dict.get key vs = Some vrow /\
    s !! n = Some nvs /\ Dict.get key nvs = Some (VTuple vrow vsp) /\
    own s vrow rowt Frow /\ own s vsp spt Fsp /\
    Frow ## Fsp /\ Frow ⊆ G /\ Fsp ⊆ G /\ (n ∉ Frow) /\ (n ∉ Fsp) /\ (n ∈ G) /\
    forall s' rowt' vsp' spt' Frow' Fsp',
      own s' vrow rowt' Frow' -> own s' vsp' spt' Fsp' -> Frow' ## Fsp' ->
      (Frow' ∪ Fsp') ## (G ∖ (Frow ∪ Fsp)) ->
      l ∉ Frow' -> l ∉ Fsp' ->
      (forall x, x ∈ G ∖ (Frow ∪ Fsp) -> x <> n -> s' !! x = s !! x) ->
      s' !! l = Some vs ->
      s' !! n = Some (Dict.set key (VTuple vrow vsp') nvs) ->
      rows_inv s' l n vs (<[i := (key, PTuple rowt' spt')]> cur)
        ((Frow' ∪ Fsp') ∪ (G ∖ (Frow ∪ Fsp))).
Proof.
  intros (Hl & HlG & Hown & nvs & Hn & Halias) Hi.
  inversion Hown as [| | | | |? nvs0 ? F0 Hn0 Hnd Howns HnF]; subst.
  assert (nvs0 = nvs) by congruence. subst nvs0.
  destruct (owns_lookup _ _ _ _ _ _ _ Howns Hi) as (v & Fv & Hvi & Hv & Hsub & Hput).
  inversion Hv as [| | | |a b ? ? Fa Fb Ha Hb Hab|]; subst.
  destruct (Forall2_lookup_r _ _ _ _ _ Halias Hvi) as ([k0 vrow] & Hvs & Hk & sp & Hsp).
  simpl in Hk, Hsp. subst k0. inversion Hsp; subst vrow sp. clear Hsp.
  assert (NoDup (Dict.keys vs)) as Hndvs by (rewrite (alias_keys _ _ Halias); exact Hnd).
  exists a, b, nvs, Fa, Fb.
  split; [exact Hvs|]. split; [eapply get_lookup; eauto|].
  split; [exact Hn|]. split; [eapply get_lookup; eauto|].
  split; [exact Ha|]. split; [exact Hb|]. split; [exact Hab|].
  split; [set_solver|]. split; [set_solver|]. split; [set_solver|].
  split; [set_solver|]. split; [set_solver|].
  intros s' rowt' vsp' spt' Frow' Fsp' Hrow' Hsp' Hd' Hdisj HlR HlS Hframe Hl' Hn'.
  split; [exact Hl'|]. split; [set_solver|]. split.
  - rewrite (set_insert _ _ (VTuple a vsp') _ _ Hnd Hvi) in Hn'.
    replace ((Frow' ∪ Fsp') ∪ (({[n]} ∪ F0) ∖ (Fa ∪ Fb)))
      with ({[n]} ∪ ((Frow' ∪ Fsp') ∪ (F0 ∖ (Fa ∪ Fb)))) by set_solver.
    apply own_ref with (vs := <[i := (key, VTuple a vsp')]> nvs).
    + exact Hn'.
    + erewrite keys_insert; eauto.
    + apply Hput.
      * constructor; auto.
      * set_solver.
      * intros x Hx. apply Hframe; set_solver.
    + set_solver.
  - exists (Dict.set key (VTuple a vsp') nvs). split; [exact Hn'|].
    rewrite (set_insert _ _ (VTuple a vsp') _ _ Hnd Hvi).
    rewrite <- (list_insert_id vs i (key, a) Hvs).
    apply Forall2_insert; [exact Halias|]. simpl. eauto.
Qed.

End RowsInv.

(** ** Loops *)

Lemma for_each_spec {A} (xs : list A) (body : A -> M unit) :
  forall (P : nat -> store -> Prop) (s0 : store),
    P 0 s0 ->
    (forall i x s, xs !! i = Some x -> P i s ->
       exists s', body x s = (ok tt, s') /\ P (S i) s') ->
    exists s', for_each xs body s0 = (ok tt, s') /\ P (length xs) s'.
Proof.
  induction xs as [|x xs IH]; intros P s0 H0 Hstep; cbn [for_each length].
  - exists s0. split; [reflexivity | exact H0].
  - destruct (Hstep 0 x s0 eq_refl H0) as (s1 & Hx & H1).
    rewrite (bind_ok _ _ _ _ _ Hx).
    apply (IH (fun i => P (S i)) s1 H1).
    intros i y s Hy Hi. apply (Hstep (S i) y s Hy Hi).
Qed.

Lemma for_keys_spec (l : nat) (vs : Dict.t val) (body : string -> M unit)
  (P : nat -> store -> Prop) (s0 : store) :
  P 0 s0 ->
  (forall i s, P i s -> s !! l = Some vs) ->
  (forall i key s, Dict.keys vs !! i = Some key -> P i s ->
     exists s', body key s = (ok tt, s') /\ P (S i) s') ->
  exists s', for_keys (VRef l) body s0 = (ok tt, s') /\ P (length vs) s'.
Proof.
  intros H0 Hl Hstep. unfold for_keys.
  rewrite (bind_ok _ _ _ _ _ (keys_ref l vs s0 (Hl 0 s0 H0))).
  replace (length vs) with (length (Dict.keys vs))
    by (unfold Dict.keys; apply length_map).
  apply for_each_spec; [exact H0|].
  intros i key s Hkey Hi.
  destruct (Hstep i key s Hkey Hi) as (s' & Hbody & HS).
  exists s'. split; [|exact HS].
  rewrite (bind_ok _ _ _ _ _ Hbody).
  rewrite (bind_ok _ _ _ _ _ (keys_ref l vs s' (Hl (S i) s' HS))).
  now rewrite Nat.eqb_refl.
Qed.

(** ** Reading the spans of a flattened mapping *)

Lemma owns_get (s : store) (vs : Dict.t val) d F k t :
  owns s vs d F -> Dict.get k d = Some t ->
  exists v Fv, Dict.get k vs = Some v /\ own s v t Fv /\ Fv ⊆ F.
Proof.
  induction 1 as [|k0 v0 t0 vs d F1 F2 Hv Hvs IH Hdisj]; simpl; [discriminate|].
  destruct (String.eqb k k0).
  - inversion 1; subst. exists v0, F1. repeat split; auto. set_solver.
  - intros H. destruct (IH H) as (v & Fv & Hg & Hown & Hsub).
    exists v, Fv. repeat split; auto. set_solver.
Qed.

Lemma sum_rowspans_spec (s : store) (vs : Dict.t val) d F :
  owns s vs d F ->
  forall acc rowsum,
    span_sum acc d = Some rowsum ->
    sum_rowspans acc (Dict.values vs) s = (ok rowsum, s).
Proof.
  induction 1 as [|k v t vs d F1 F2 Hv Hvs IH Hdisj]; intros acc rowsum;
    cbn [span_sum Dict.values map sum_rowspans snd].
  - now inversion 1.
  - destruct t as [| | | |ta tb|]; cbn [psnd]; try discriminate.
    inversion Hv as [| | | |a b ? ? Fa Fb Ha Hb Hab|]; subst.
    destruct tb as [| | | | |dsp]; cbn [pget]; try discriminate.
    destruct (Dict.get "rowspan" dsp) as [[| | |n| |]|] eqn:Hsp; try discriminate.
    intros Hsum.
    inversion Hb as [| | | | |lb vsd ? Fd Hlb Hnd Hd HlF]; subst.
    destruct (owns_get _ _ _ _ _ _ Hd Hsp) as (vn & Fn & Hget & Hn & _).
    inversion Hn; subst.
    cbn [index]. unfold bind at 1. cbn [ret].
    rewrite (bind_ok _ _ _ _ _ (getitem_ref _ _ _ _ _ Hlb Hget)).
    now apply IH.
Qed.

(** ** The reformatting loop *)

Section Reformat.
Implicit Types (s : store) (F G : gset nat).

Lemma owns_snoc s vs d F k v t Fv :
  owns s vs d F -> own s v t Fv -> F ## Fv ->
  owns s (vs ++ [(k, v)]) (d ++ [(k, t)]) (F ∪ Fv).
Proof.
  induction 1 as [|k0 v0 t0 vs d F1 F2 Hv Hvs IH Hdisj]; intros Hown Hd; simpl.
  - replace (∅ ∪ Fv) with (Fv ∪ ∅) by set_solver.
    constructor; [exact Hown | constructor | set_solver].
  - replace (F1 ∪ F2 ∪ Fv) with (F1 ∪ (F2 ∪ Fv)) by set_solver.
    constructor; [exact Hv | apply IH; [exact Hown | set_solver] | set_solver].
Qed.

Lemma not_in_take (ks : list string) i k :
  NoDup ks -> ks !! i = Some k -> k ∉ take i ks.
Proof.
  intros Hnd Hi Hin. apply list_elem_of_lookup in Hin as [j Hj].
  rewrite lookup_take in Hj. destruct (decide (j < i)); [|discriminate].
  pose proof (NoDup_lookup _ _ _ _ Hnd Hi Hj). lia.
Qed.

Lemma keys_take {A} (d : Dict.t A) i : Dict.keys (take i d) = take i (Dict.keys d).
Proof. unfold Dict.keys. revert i. induction d; intros [|i]; simpl; congruence. Qed.

Lemma keys_lookup {A} (d : Dict.t A) i k :
  Dict.keys d !! i = Some k -> exists v, d !! i = Some (k, v).
Proof.
  unfold Dict.keys. revert i. induction d as [|[k0 v0] d IH]; intros [|i]; simpl;
    try discriminate; eauto.
  inversion 1; subst. eauto.
Qed.

Lemma reformatted_snoc rows k t :
  reformatted (rows ++ [(k, t)]) = reformatted rows ++ [(k, PTuple t (pspan 1))].
Proof. unfold reformatted. now rewrite map_app. Qed.

Lemma reformat_spec s l n vs rows F0 :
  s !! l = Some vs -> NoDup (Dict.keys vs) -> owns s vs rows F0 ->
  l ∉ F0 -> s !! n = Some [] -> n ∉ F0 -> l <> n ->
  exists s' G,
    reformat (VRef l) (VRef n) s = (ok tt, s') /\
    rows_inv s' l n vs (reformatted rows) G /\
    evolves s s' ({[n]} ∪ F0) G.
Proof.
  intros Hl Hnd Howns HlF Hn HnF Hln. unfold reformat.
  set (P := fun (i : nat) (s' : store) =>
    exists nvs G R,
      s' !! l = Some vs /\ s' !! n = Some nvs /\
      owns s' nvs (reformatted (take i rows)) G /\
      owns s' (drop i vs) (drop i rows) R /\
      G ## R /\ (n ∉ G ∪ R) /\ (l ∉ G ∪ R) /\
      alias (take i vs) nvs /\
      evolves s s' ({[n]} ∪ F0) ({[n]} ∪ G ∪ R)).
  destruct (for_keys_spec l vs
              (fun key => v <- getitem (VRef l) key ;
                          r <- new_dict (rowspan 1) ;
                          setitem (VRef n) key (VTuple v r)) P s)
    as (s' & Hrun & Hend).
  - exists [], ∅, F0. rewrite !take_0, !drop_0. cbn [reformatted map].
    split; [exact Hl|]. split; [exact Hn|]. split; [constructor|].
    split; [exact Howns|]. split; [set_solver|]. split; [set_solver|].
    split; [set_solver|]. split; [constructor|].
    eapply evolves_footprint; [apply evolves_refl | set_solver].
  - intros i s' (nvs & G & R & H & _). exact H.
  - intros i key s' Hkey (nvs & G & R & Hl' & Hn' & HG & HR & HGR & HnGR & HlGR
                          & Halias & Hev).
    destruct (keys_lookup _ _ _ Hkey) as [v Hv].
    assert (exists t, rows !! i = Some (key, t)) as [t Ht].
    { pose proof (owns_keys _ _ _ _ Howns) as Hk.
      rewrite Hk in Hkey. destruct (keys_lookup _ _ _ Hkey) as [t Ht]. eauto. }
    rewrite (drop_S _ _ _ Hv), (drop_S _ _ _ Ht) in HR.
    inversion HR as [|? ? ? ? ? F1 F2 Hown1 Hrest Hd12]; subst.
    rewrite (bind_ok _ _ _ _ _ (getitem_ref _ _ _ _ _ Hl' (get_lookup _ _ _ _ Hnd Hv))).
    unfold new_dict at 1. unfold bind at 1.
    assert (n < length s') as Hnlt by (eapply lookup_lt_Some; eauto).
    assert (l < length s') as Hllt by (eapply lookup_lt_Some; eauto).
    assert ((s' ++ [rowspan 1]) !! n = Some nvs) as Hn1
      by (rewrite lookup_old; auto).
    rewrite (setitem_ref _ _ _ _ _ Hn1).
    eexists. split; [reflexivity|].
    assert (Dict.get key nvs = None) as Hnew.
    { apply get_None_keys. rewrite <- (alias_keys _ _ Halias), keys_take.
      now apply not_in_take. }
    rewrite (set_new _ _ _ Hnew).
    set (s2 := <[n := nvs ++ [(key, VTuple v (VRef (length s')))]]> (s' ++ [rowspan 1])).
    assert (forall x, x < length s' -> x <> n -> s2 !! x = s' !! x) as Hframe.
    { intros x Hx Hxn. unfold s2.
      rewrite list_lookup_insert_ne by congruence. now apply lookup_old. }
    assert (s2 !! length s' = Some (rowspan 1)) as Hloc.
    { unfold s2. rewrite list_lookup_insert_ne by lia. apply lookup_new. }
    assert (forall x, x ∈ G ∪ (F1 ∪ F2) -> x < length s') as Hb.
    { intros x Hx. apply elem_of_union in Hx as [Hx|Hx].
      - exact (owns_bound _ _ _ _ HG x Hx).
      - exact (owns_bound _ _ _ _ HR x Hx). }
    exists (nvs ++ [(key, VTuple v (VRef (length s')))]),
      (G ∪ (F1 ∪ {[length s']})), F2.
    split; [rewrite Hframe; auto|].
    split.
    { unfold s2. apply list_lookup_insert_eq. rewrite length_app. simpl. lia. }
    split.
    { rewrite (take_S_r _ _ _ Ht), reformatted_snoc.
      apply owns_snoc.
      - eapply owns_frame; [exact HG|]. intros x Hx. apply Hframe.
        + apply Hb. set_solver.
        + set_solver.
      - constructor.
        + eapply own_frame; [exact Hown1|]. intros x Hx. apply Hframe.
          * apply Hb. set_solver.
          * set_solver.
        + eapply own_frame; [apply (own_span s' 1)|].
          intros x Hx. apply elem_of_singleton in Hx. subst x.
          etrans; [exact Hloc | symmetry; apply lookup_new].
        + apply elem_of_disjoint. intros x Hx1 Hx2.
          apply elem_of_singleton in Hx2. subst x.
          assert (length s' < length s') by (apply Hb; set_solver). lia.
      - apply elem_of_disjoint. intros x Hx1 Hx2.
        apply elem_of_union in Hx2 as [Hx2|Hx2]; [set_solver|].
        apply elem_of_singleton in Hx2. subst x.
        assert (length s' < length s') by (apply Hb; set_solver). lia. }
    split.
    { eapply owns_frame; [exact Hrest|]. intros x Hx. apply Hframe.
      - apply Hb. set_solver.
      - set_solver. }
    split.
    { apply elem_of_disjoint. intros x Hx1 Hx2.
      apply elem_of_union in Hx1 as [Hx1|Hx1]; [set_solver|].
      apply elem_of_union in Hx1 as [Hx1|Hx1]; [set_solver|].
      apply elem_of_singleton in Hx1. subst x.
      assert (length s' < length s') by (apply Hb; set_solver). lia. }
    split.
    { intros Hx. apply HnGR.
      apply elem_of_union in Hx as [Hx|Hx]; [|set_solver].
      apply elem_of_union in Hx as [Hx|Hx]; [set_solver|].
      apply elem_of_union in Hx as [Hx|Hx]; [set_solver|].
      apply elem_of_singleton in Hx. lia. }
    split.
    { intros Hx. apply HlGR.
      apply elem_of_union in Hx as [Hx|Hx]; [|set_solver].
      apply elem_of_union in Hx as [Hx|Hx]; [set_solver|].
      apply elem_of_union in Hx as [Hx|Hx]; [set_solver|].
      apply elem_of_singleton in Hx. lia. }
    split.
    { rewrite (take_S_r _ _ _ Hv). apply Forall2_app; [exact Halias|].
      constructor; [|constructor]. simpl. eauto. }
    destruct Hev as (L1 & K1 & G1). split; [|split].
    + assert (length s2 = S (length s')) as Hlen.
      { unfold s2. etrans; [apply length_insert|].
        rewrite length_app. simpl. lia. }
      apply Nat.le_trans with (S (length s')); [lia|].
      apply Nat.eq_le_incl. symmetry. exact Hlen.
    + intros x Hx HF. rewrite Hframe; [now apply K1 | lia | set_solver].
    + intros x Hx.
      destruct (decide (x = length s')) as [->|Hne]; [right; lia|].
      apply G1. set_solver.
  - destruct Hend as (nvs & G & R & Hl' & Hn' & HG & HR & HGR & HnGR & HlGR
                      & Halias & Hev).
    assert (length rows = length vs) as Hlen.
    { rewrite <- (length_map fst rows), <- (length_map fst vs).
      fold (Dict.keys rows). fold (Dict.keys vs).
      now rewrite (owns_keys _ _ _ _ Howns). }
    rewrite take_ge in HG by lia. rewrite take_ge in Halias by lia.
    rewrite (drop_ge vs) in HR by lia. rewrite (drop_ge rows) in HR by lia.
    inversion HR; subst.
    exists s', ({[n]} ∪ G). split; [exact Hrun|]. split.
    + split; [exact Hl'|]. split; [set_solver|]. split.
      * apply own_ref with (vs := nvs); auto.
        -- rewrite <- (alias_keys _ _ Halias). exact Hnd.
        -- set_solver.
      * eauto.
    + eapply evolves_footprint; [exact Hev | set_solver].
Qed.

End Reformat.

(** ** One pass over the keys *)

Section Pass.
Implicit Types (s : store) (F G : gset nat).

Lemma map_values_lookup {A B} (f : A -> option B) (d : list (string * A)) d' :
  map_values f d = Some d' ->
  length d' = length d /\
  forall i k x, d !! i = Some (k, x) ->
    exists y, f x = Some y /\ d' !! i = Some (k, y).
Proof.
  revert d'. induction d as [|[k0 x0] d IH]; intros d'; cbn [map_values].
  - inversion 1; subst. split; [reflexivity|]. intros i k x Hi. discriminate.
  - destruct (f x0) as [y0|] eqn:E0; [|discriminate].
    destruct (map_values f d) as [d1|]; [|discriminate].
    inversion 1; subst. destruct (IH d1 eq_refl) as [Hlen Hlook].
    split; [simpl; congruence|].
    intros [|i] k x Hi; simpl in Hi.
    + inversion Hi; subst. eauto.
    + apply (Hlook i k x Hi).
Qed.

Lemma insert_take_drop {A} (cur cur' : list A) i x y :
  length cur' = length cur -> cur !! i = Some x -> cur' !! i = Some y ->
  <[i := y]> (take i cur' ++ drop i cur) = take (S i) cur' ++ drop (S i) cur.
Proof.
  intros Hlen Hx Hy.
  assert (i < length cur') as Hi by (eapply lookup_lt_Some; eauto).
  rewrite insert_app_r_alt by (rewrite length_take; lia).
  rewrite length_take, Nat.min_l, Nat.sub_diag by lia.
  rewrite (drop_S _ _ _ Hx), (take_S_r _ _ _ Hy). cbn [insert list_insert].
  now rewrite <- app_assoc.
Qed.

Lemma lookup_take_drop {A} (cur cur' : list A) i :
  length cur' = length cur -> i <= length cur ->
  (take i cur' ++ drop i cur) !! i = cur !! i.
Proof.
  intros Hlen Hi. rewrite lookup_app_r by (rewrite length_take; lia).
  rewrite length_take, Nat.min_l, Nat.sub_diag by lia.
  rewrite lookup_drop. f_equal. lia.
Qed.

Lemma rows_inv_keys s l n vs cur G :
  rows_inv s l n vs cur G -> Dict.keys vs = Dict.keys cur.
Proof.
  intros (Hl & HlG & Hown & nvs & Hn & Halias).
  inversion Hown as [| | | | |? nvs0 ? F0 Hn0 Hnd Howns HnF]; subst.
  assert (nvs0 = nvs) by congruence. subst.
  rewrite (alias_keys _ _ Halias). eapply owns_keys; eauto.
Qed.

Lemma rows_inv_bound s l n vs cur G :
  rows_inv s l n vs cur G -> forall x, x ∈ G -> x < length s.
Proof. intros (_ & _ & Hown & _). eapply own_bound; eauto. Qed.

Lemma pass_spec (body : string -> M unit) (f : pval -> option pval)
  s l n vs cur G cur' :
  rows_inv s l n vs cur G ->
  map_values f cur = Some cur' ->
  (forall s1 G1 cur1 i key cell cell',
     rows_inv s1 l n vs cur1 G1 -> cur1 !! i = Some (key, cell) ->
     f cell = Some cell' ->
     exists s2 G2, body key s1 = (ok tt, s2) /\
       rows_inv s2 l n vs (<[i := (key, cell')]> cur1) G2 /\
       evolves s1 s2 G1 G2) ->
  exists s' G', for_keys (VRef l) body s = (ok tt, s') /\
    rows_inv s' l n vs cur' G' /\ evolves s s' G G'.
Proof.
  intros Hinv Hmap Hstep.
  destruct (map_values_lookup _ _ _ Hmap) as [Hlen Hlook].
  assert (length cur = length vs) as Hlenvs.
  { rewrite <- (length_map fst cur), <- (length_map fst vs).
    fold (Dict.keys cur). fold (Dict.keys vs).
    now rewrite (rows_inv_keys _ _ _ _ _ _ Hinv). }
  set (P := fun (i : nat) (s1 : store) =>
    i <= length vs /\
    exists G1, rows_inv s1 l n vs (take i cur' ++ drop i cur) G1 /\
               evolves s s1 G G1).
  destruct (for_keys_spec l vs body P s) as (s' & Hrun & Hend).
  - split; [lia|]. exists G. rewrite take_0, drop_0. split; [exact Hinv|].
    apply evolves_refl.
  - intros i s1 (_ & G1 & (H & _) & _). exact H.
  - intros i key s1 Hkey (Hi & G1 & Hinv1 & Hev1).
    assert (i < length vs) as Hilt.
    { apply lookup_lt_Some in Hkey. unfold Dict.keys in Hkey.
      now rewrite length_map in Hkey. }
    rewrite (rows_inv_keys _ _ _ _ _ _ Hinv) in Hkey.
    destruct (keys_lookup _ _ _ Hkey) as [cell Hcell].
    destruct (Hlook i key cell Hcell) as (cell' & Hf & Hcell').
    destruct (Hstep s1 G1 _ i key cell cell' Hinv1) as (s2 & G2 & Hbody & Hinv2 & Hev2).
    { rewrite lookup_take_drop by lia. exact Hcell. }
    { exact Hf. }
    exists s2. split; [exact Hbody|]. split; [lia|]. exists G2. split.
    + rewrite <- (insert_take_drop cur cur' i (key, cell) (key, cell')); auto.
    + eapply evolves_trans; eauto.
  - destruct Hend as (_ & G' & Hinv' & Hev').
    rewrite take_ge, drop_ge, app_nil_r in Hinv' by lia.
    eauto.
Qed.

End Pass.

(** ** A scalar column *)

(** Set reasoning from the facts gathered in one hypothesis. *)
Ltac by_sets S := clear - S; set_solver.
Ltac by_sets_with S H := clear - S H; set_solver.

Section Scalar.
Implicit Types (s : store) (F G : gset nat).

Lemma set_same {A} (k : string) (v : A) (d : Dict.t A) :
  Dict.get k d = Some v -> Dict.set k v d = d.
Proof.
  induction d as [|[k0 v0] d IH]; simpl; [discriminate|].
  destruct (String.eqb_spec k k0) as [->|Hne].
  - now inversion 1.
  - intros H. now rewrite IH.
Qed.

Lemma own_dict_ref s v d F : own s v (PDict d) F -> exists l, v = VRef l.
Proof. inversion 1; eauto. Qed.

Lemma scalar_step (c : string) s l n vs cur G i key cell cell' :
  rows_inv s l n vs cur G -> cur !! i = Some (key, cell) ->
  wrap_cell c cell = Some cell' ->
  exists s' G',
    (row <- getitem (VRef l) key ;
     v <- getitem row c ;
     r <- new_dict (rowspan 1) ;
     cell <- getitem (VRef n) key ;
     target <- index cell 0 ;
     setitem target c (VTuple v r)) s = (ok tt, s') /\
    rows_inv s' l n vs (<[i := (key, cell')]> cur) G' /\
    evolves s s' G G'.
Proof.
  intros Hinv Hi Hwrap.
  pose proof (rows_inv_bound _ _ _ _ _ _ Hinv) as Hb.
  destruct Hinv as (Hl & HlG & Hown & Hn).
  assert (rows_inv s l n vs cur G) as Hinv by (repeat split; auto).
  destruct cell as [| | | |rowt spt|]; cbn [wrap_cell] in Hwrap; try discriminate.
  destruct rowt as [| | | | |rd]; cbn [pget pset] in Hwrap; try discriminate.
  destruct (Dict.get c rd) as [x|] eqn:Hx; [|discriminate].
  inversion Hwrap; subst cell'. clear Hwrap.
  destruct (rows_inv_focus _ _ _ _ _ _ _ _ _ _ Hinv Hi)
    as (vrow & vsp & nvs & Frow & Fsp & Hvi & Hget & Hn' & Hgetn & Hrow & Hsp
        & Hdisj & HsubR & HsubS & HnR & HnS & HnG & Hput).
  destruct (own_dict_ref _ _ _ _ Hrow) as [lr ->].
  destruct (own_focus _ _ _ _ _ _ Hrow Hx)
    as (vsr & vx & Fx & Hlr & Hgetx & Hownx & HsubX & HlrX & HlrR & Hputrow).
  rewrite (bind_ok _ _ _ _ _ (getitem_ref _ _ _ _ _ Hl Hget)).
  rewrite (bind_ok _ _ _ _ _ (getitem_ref _ _ _ _ _ Hlr Hgetx)).
  unfold new_dict at 1. unfold bind at 1.
  set (s1 := s ++ [rowspan 1]).
  assert (forall x, x < length s -> s1 !! x = s !! x) as Hold
    by (intros; now apply lookup_old).
  assert (n < length s) as Hnlt by (eapply lookup_lt_Some; eauto).
  assert (l < length s) as Hllt by (eapply lookup_lt_Some; eauto).
  assert (lr < length s) as Hlrlt by (eapply lookup_lt_Some; eauto).
  assert (s1 !! n = Some nvs) as Hn1 by (rewrite Hold; auto).
  rewrite (bind_ok _ _ _ _ _ (getitem_ref _ _ _ _ _ Hn1 Hgetn)).
  cbn [index]. unfold bind at 1. cbn [ret].
  assert (s1 !! lr = Some vsr) as Hlr1 by (rewrite Hold; auto).
  rewrite (setitem_ref _ _ _ _ _ Hlr1).
  set (s2 := <[lr := Dict.set c (VTuple vx (VRef (length s))) vsr]> s1).
  assert (forall x, x < length s -> x <> lr -> s2 !! x = s !! x) as Hframe.
  { intros y Hy Hne. unfold s2. etrans; [apply list_lookup_insert_ne; congruence|].
    now apply Hold. }
  assert (length s ∉ G) as Hfresh by (intros H; apply Hb in H; lia).
  assert (l <> length s) as Hlnew by lia.
  pose proof (conj HsubX (conj HsubR (conj HsubS (conj Hdisj (conj HlG (conj HnR
             (conj HnS (conj HnG (conj HlrR (conj HlrX (conj Hfresh Hlnew)))))))))))
    as Sets.
  eexists s2, _. split; [reflexivity|]. split.
  - apply (Hput s2 (PDict (Dict.set c (PTuple x (pspan 1)) rd)) vsp spt
             ((Fx ∪ {[length s]}) ∪ (Frow ∖ Fx)) Fsp).
    + apply Hputrow.
      * intros y Hy. apply Hold, Hb. by_sets_with Sets Hy.
      * constructor.
        -- now apply own_grow.
        -- apply own_span.
        -- by_sets Sets.
      * by_sets Sets.
    + eapply own_frame; [exact Hsp|]. intros y Hy. apply Hframe.
      * apply Hb. by_sets_with Sets Hy.
      * intros ->. by_sets_with Sets Hy.
    + by_sets Sets.
    + by_sets Sets.
    + by_sets Sets.
    + by_sets Sets.
    + intros y Hy Hne. apply Hframe; [apply Hb; by_sets_with Sets Hy|].
      intros ->. by_sets_with Sets Hy.
    + rewrite Hframe; [exact Hl | exact Hllt |]. intros ->. by_sets Sets.
    + rewrite (set_same _ _ _ Hgetn).
      rewrite Hframe; [exact Hn' | exact Hnlt |]. intros ->. by_sets Sets.
  - split; [|split].
    + assert (length s2 = S (length s)) as Hlen.
      { unfold s2. etrans; [apply length_insert|].
        unfold s1. rewrite length_app. simpl. lia. }
      lia.
    + intros y Hy HG. apply Hframe; [exact Hy|]. intros ->. by_sets_with Sets HG.
    + intros y Hy. destruct (decide (y = length s)) as [->|Hne]; [right; lia|].
      left. revert Hne. by_sets_with Sets Hy.
Qed.

End Scalar.


(** ** A group column *)

Section Group.
Implicit Types (s : store) (F G R : gset nat).

(** The span of an earlier column of the row is replaced. *)
Lemma respan_step s lr n nvs key vsp rowt R rowsum prior rowt' :
  own s (VRef lr) rowt R -> s !! n = Some nvs ->
  Dict.get key nvs = Some (VTuple (VRef lr) vsp) -> n ∉ R ->
  respan rowsum (Some rowt) prior = Some rowt' ->
  exists s' R',
    (cell <- getitem (VRef n) key ;
     row' <- index cell 0 ;
     old <- getitem row' (fst prior) ;
     v <- index old 0 ;
     r <- new_dict (rowspan rowsum) ;
     cell <- getitem (VRef n) key ;
     target <- index cell 0 ;
     setitem target (fst prior) (VTuple v r)) s = (ok tt, s') /\
    own s' (VRef lr) rowt' R' /\ evolves s s' R R'.
Proof.
  intros Hrow Hn Hgetn HnR Hre.
  pose proof (own_bound _ _ _ _ Hrow) as Hb.
  cbn [respan] in Hre.
  destruct rowt as [| | | | |rd]; cbn [pget] in Hre; try discriminate.
  destruct (Dict.get (fst prior) rd) as [old|] eqn:Hold; [|discriminate].
  destruct old as [| | | |vt ot|]; cbn [pfst pset] in Hre; try discriminate.
  inversion Hre; subst rowt'. clear Hre.
  destruct (own_focus _ _ _ _ _ _ Hrow Hold)
    as (vsr & vold & Fold & Hlr & Hgeto & Hownold & HsubO & HlrO & HlrR & Hputrow).
  inversion Hownold as [| | | |v o ? ? Fv Fo Hv Ho Hvo|]; subst.
  rewrite (bind_ok _ _ _ _ _ (getitem_ref _ _ _ _ _ Hn Hgetn)).
  cbn [index]. unfold bind at 1. cbn [ret].
  rewrite (bind_ok _ _ _ _ _ (getitem_ref _ _ _ _ _ Hlr Hgeto)).
  cbn [index]. unfold bind at 1. cbn [ret].
  unfold new_dict at 1. unfold bind at 1.
  set (s1 := s ++ [rowspan rowsum]).
  assert (forall x, x < length s -> s1 !! x = s !! x) as Hold1
    by (intros; now apply lookup_old).
  assert (n < length s) as Hnlt by (eapply lookup_lt_Some; eauto).
  assert (lr < length s) as Hlrlt by (eapply lookup_lt_Some; eauto).
  assert (s1 !! n = Some nvs) as Hn1 by (rewrite Hold1; auto).
  rewrite (bind_ok _ _ _ _ _ (getitem_ref _ _ _ _ _ Hn1 Hgetn)).
  cbn [index]. unfold bind at 1. cbn [ret].
  assert (s1 !! lr = Some vsr) as Hlr1 by (rewrite Hold1; auto).
  rewrite (setitem_ref _ _ _ _ _ Hlr1).
  set (s2 := <[lr := Dict.set (fst prior) (VTuple v (VRef (length s))) vsr]> s1).
  assert (forall x, x < length s -> x <> lr -> s2 !! x = s !! x) as Hframe.
  { intros y Hy Hne. unfold s2. etrans; [apply list_lookup_insert_ne; congruence|].
    now apply Hold1. }
  assert (length s ∉ R) as Hfresh by (intros H; apply Hb in H; lia).
  pose proof (conj HsubO (conj HlrO (conj HlrR (conj Hvo Hfresh)))) as Sets.
  exists s2, ((Fv ∪ {[length s]}) ∪ (R ∖ (Fv ∪ Fo))). split; [reflexivity|]. split.
  - apply Hputrow.
    + intros y Hy. apply Hold1, Hb. by_sets_with Sets Hy.
    + constructor.
      * now apply own_grow.
      * apply own_span.
      * by_sets Sets.
    + by_sets Sets.
  - split; [|split].
    + assert (length s2 = S (length s)) as Hlen.
      { unfold s2. etrans; [apply length_insert|].
        unfold s1. rewrite length_app. simpl. lia. }
      lia.
    + intros y Hy HR. apply Hframe; [exact Hy|]. intros ->. by_sets_with Sets HR.
    + intros y Hy. destruct (decide (y = length s)) as [->|Hne]; [right; lia|].
      left. revert Hne. by_sets_with Sets Hy.
Qed.

Lemma fold_respan_None rowsum priors : fold_left (respan rowsum) priors None = None.
Proof. induction priors; simpl; auto. Qed.

Lemma respan_loop lr n nvs key vsp rowsum priors : forall s rowt R rowt',
  own s (VRef lr) rowt R -> s !! n = Some nvs ->
  Dict.get key nvs = Some (VTuple (VRef lr) vsp) -> n ∉ R ->
  fold_left (respan rowsum) priors (Some rowt) = Some rowt' ->
  exists s' R',
    for_each priors (fun prior =>
       cell <- getitem (VRef n) key ;
       row' <- index cell 0 ;
       old <- getitem row' (fst prior) ;
       v <- index old 0 ;
       r <- new_dict (rowspan rowsum) ;
       cell <- getitem (VRef n) key ;
       target <- index cell 0 ;
       setitem target (fst prior) (VTuple v r)) s = (ok tt, s') /\
    own s' (VRef lr) rowt' R' /\ evolves s s' R R'.
Proof.
  induction priors as [|p priors IH]; intros s rowt R rowt' Hrow Hn Hgetn HnR Hfold;
    cbn [for_each fold_left] in *.
  - inversion Hfold; subst. exists s, R. split; [reflexivity|]. split; [exact Hrow|].
    apply evolves_refl.
  - destruct (respan rowsum (Some rowt) p) as [rowt1|] eqn:Hre;
      [|rewrite fold_respan_None in Hfold; discriminate].
    destruct (respan_step _ _ _ _ _ _ _ _ _ _ _ Hrow Hn Hgetn HnR Hre)
      as (s1 & R1 & Hrun & Hrow1 & Hev1).
    rewrite (bind_ok _ _ _ _ _ Hrun).
    assert (n < length s) as Hnlt by (eapply lookup_lt_Some; eauto).
    assert (s1 !! n = Some nvs) as Hn1.
    { destruct Hev1 as (_ & K & _). rewrite K; auto. }
    assert (n ∉ R1) as HnR1.
    { destruct Hev1 as (_ & _ & Gr). intros H. apply Gr in H as [H|H];
        [contradiction | lia]. }
    destruct (IH s1 rowt1 R1 rowt' Hrow1 Hn1 Hgetn HnR1 Hfold)
      as (s2 & R2 & Hrun2 & Hrow2 & Hev2).
    exists s2, R2. split; [exact Hrun2|]. split; [exact Hrow2|].
    eapply evolves_trans; eauto.
Qed.


Lemma evolves_insert s l d F : l ∈ F -> evolves s (<[l := d]> s) F F.
Proof.
  intros Hl. split; [|split].
  - apply Nat.eq_le_incl. symmetry. apply length_insert.
  - intros x Hx HF. apply list_lookup_insert_ne. intros ->. contradiction.
  - intros x Hx. now left.
Qed.

(** What the recursive call is assumed to do: [flat] on trees. *)
Definition call_spec (call : val -> M val) (flat : pval -> option pval) : Prop :=
  forall s v t F out,
    own s v t F -> flat t = Some out ->
    exists s' v' G, call v s = (ok v', s') /\ own s' v' out G /\ evolves s s' F G.

Lemma group_step (call : val -> M val) (flat : pval -> option pval)
  (c : string) (priors : list coltype) s l n vs cur G i key cell cell' :
  call_spec call flat ->
  rows_inv s l n vs cur G -> cur !! i = Some (key, cell) ->
  group_cell flat c priors cell = Some cell' ->
  exists s' G',
    (row <- getitem (VRef l) key ;
     sub <- getitem row c ;
     new_data_inner <- call sub ;
     cell <- getitem (VRef n) key ;
     target <- index cell 0 ;
     setitem target c new_data_inner ;;
     vals <- values new_data_inner ;
     rowsum <- sum_rowspans 0 vals ;
     for_each priors (fun prior =>
       cell <- getitem (VRef n) key ;
       row' <- index cell 0 ;
       old <- getitem row' (fst prior) ;
       v <- index old 0 ;
       r <- new_dict (rowspan rowsum) ;
       cell <- getitem (VRef n) key ;
       target <- index cell 0 ;
       setitem target (fst prior) (VTuple v r)) ;;
     cell <- getitem (VRef n) key ;
     row' <- index cell 0 ;
     r <- new_dict (rowspan rowsum) ;
     setitem (VRef n) key (VTuple row' r)) s = (ok tt, s') /\
    rows_inv s' l n vs (<[i := (key, cell')]> cur) G' /\
    evolves s s' G G'.
Proof.
  intros Hcall Hinv Hi Hgroup.
  pose proof (rows_inv_bound _ _ _ _ _ _ Hinv) as Hb.
  assert (s !! l = Some vs /\ l ∉ G) as [Hl HlG] by (destruct Hinv as (? & ? & _); auto).
  destruct cell as [| | | |rowt spt|]; cbn [group_cell] in Hgroup; try discriminate.
  destruct rowt as [| | | | |rd]; cbn [pget pset] in Hgroup; try discriminate.
  destruct (Dict.get c rd) as [sub|] eqn:Hsub; [|discriminate].
  destruct (flat sub) as [[| | | | |inner]|] eqn:Hflat; try discriminate.
  destruct (span_sum 0 inner) as [rowsum|] eqn:Hsum; [|discriminate].
  destruct (fold_left (respan rowsum) priors
              (Some (PDict (Dict.set c (PDict inner) rd)))) as [row2|] eqn:Hfold;
    [|discriminate].
  inversion Hgroup; subst cell'. clear Hgroup.
  destruct (rows_inv_focus _ _ _ _ _ _ _ _ _ _ Hinv Hi)
    as (vrow & vsp & nvs & Frow & Fsp & Hvi & Hget & Hn & Hgetn & Hrow & Hsp
        & Hdisj & HsubR & HsubS & HnR & HnS & HnG & Hput).
  destruct (own_dict_ref _ _ _ _ Hrow) as [lr ->].
  destruct (own_focus _ _ _ _ _ _ Hrow Hsub)
    as (vsr & vsub & Fs & Hlr & Hgets & Hownsub & HsubF & HlrS & HlrR & Hputrow).
  assert (n < length s) as Hnlt by (eapply lookup_lt_Some; eauto).
  assert (l < length s) as Hllt by (eapply lookup_lt_Some; eauto).
  assert (lr < length s) as Hlrlt by (eapply lookup_lt_Some; eauto).
  rewrite (bind_ok _ _ _ _ _ (getitem_ref _ _ _ _ _ Hl Hget)).
  rewrite (bind_ok _ _ _ _ _ (getitem_ref _ _ _ _ _ Hlr Hgets)).
  (* the recursive call *)
  destruct (Hcall s vsub sub Fs (PDict inner) Hownsub Hflat)
    as (s1 & vin & Gi & Hrun & Hin & Hev1).
  rewrite (bind_ok _ _ _ _ _ Hrun).
  pose proof Hev1 as (Hlen1 & Hframe1 & Hgrow1).
  assert (n ∉ Fs) as HnS' by (clear - HnR HsubF; set_solver).
  assert (s1 !! n = Some nvs) as Hn1 by (rewrite Hframe1; auto).
  assert (s1 !! lr = Some vsr) as Hlr1 by (rewrite Hframe1; auto).
  rewrite (bind_ok _ _ _ _ _ (getitem_ref _ _ _ _ _ Hn1 Hgetn)).
  cbn [index]. unfold bind at 1. cbn [ret].
  rewrite (bind_ok _ _ _ _ _ (setitem_ref _ _ _ _ _ Hlr1)).
  set (s2 := <[lr := Dict.set c vin vsr]> s1).
  set (R1 := Gi ∪ (Frow ∖ Fs)).
  assert (lr ∉ Gi) as HlrGi.
  { intros H. apply Hgrow1 in H as [H|H]; [contradiction | lia]. }
  assert (Gi ## (Frow ∖ Fs)) as HdGi.
  { apply elem_of_disjoint. intros x Hx1 Hx2.
    apply Hgrow1 in Hx1 as [Hx1|Hx1]; [clear - Hx1 Hx2; set_solver|].
    assert (x < length s) by (apply Hb; clear - Hx2 HsubR; set_solver). lia. }
  assert (own s2 (VRef lr) (PDict (Dict.set c (PDict inner) rd)) R1) as Hrow1.
  { apply Hputrow; [|exact Hin|exact HdGi].
    intros x Hx. apply Hframe1.
    - apply Hb. clear - Hx HsubR. set_solver.
    - clear - Hx. set_solver. }
  assert (evolves s s2 Frow R1) as Hev2.
  { eapply evolves_trans.
    - apply (evolves_context _ _ _ _ Frow Hev1 HsubF).
    - apply evolves_insert. unfold R1. clear - HlrR HlrS. set_solver. }
  (* the spans of the nested mapping *)
  assert (own s2 vin (PDict inner) Gi) as Hin2.
  { eapply own_frame; [exact Hin|]. intros x Hx.
    apply list_lookup_insert_ne. intros ->. contradiction. }
  inversion Hin2 as [| | | | |li vsi ? Fi Hli Hndi Hownsi HliF]; subst.
  rewrite (bind_ok _ _ _ _ _ (values_ref _ _ _ Hli)).
  rewrite (bind_ok _ _ _ _ _ (sum_rowspans_spec _ _ _ _ Hownsi _ _ Hsum)).
  (* the earlier columns *)
  assert (s2 !! n = Some nvs) as Hn2.
  { unfold s2. etrans; [apply list_lookup_insert_ne|exact Hn1].
    intros ->. contradiction. }
  assert (n ∉ R1) as HnR1.
  { unfold R1. intros H. apply elem_of_union in H as [H|H].
    - apply Hgrow1 in H as [H|H]; [contradiction | lia].
    - clear - H HnR. set_solver. }
  destruct (respan_loop lr n nvs key vsp rowsum priors s2 _ R1 row2 Hrow1 Hn2
              Hgetn HnR1 Hfold) as (s3 & R3 & Hrun3 & Hrow3 & Hev3).
  rewrite (bind_ok _ _ _ _ _ Hrun3).
  assert (evolves s s3 Frow R3) as Hev by (eapply evolves_trans; eauto).
  destruct Hev as (Hlen & Hframe & Hgrow).
  assert (s3 !! n = Some nvs) as Hn3 by (rewrite Hframe; auto).
  rewrite (bind_ok _ _ _ _ _ (getitem_ref _ _ _ _ _ Hn3 Hgetn)).
  cbn [index]. unfold bind at 1. cbn [ret].
  unfold new_dict at 1. unfold bind at 1.
  set (s4 := s3 ++ [rowspan rowsum]).
  assert (s4 !! n = Some nvs) as Hn4 by (unfold s4; rewrite lookup_old; [auto|lia]).
  rewrite (setitem_ref _ _ _ _ _ Hn4).
  set (s5 := <[n := Dict.set key (VTuple (VRef lr) (VRef (length s3))) nvs]> s4).
  assert (forall x, x < length s3 -> x <> n -> s5 !! x = s3 !! x) as Hframe5.
  { intros x Hx Hne. unfold s5. etrans; [apply list_lookup_insert_ne; congruence|].
    unfold s4. now apply lookup_old. }
  assert (forall x, x ∈ R3 -> x < length s3) as Hb3
    by (eapply own_bound; eauto).
  assert (n ∉ R3) as HnR3.
  { intros H. apply Hgrow in H as [H|H]; [contradiction | lia]. }
  assert (length s5 = S (length s3)) as Hlen5.
  { unfold s5. etrans; [apply length_insert|].
    unfold s4. rewrite length_app. simpl. lia. }
  assert (forall x, x ∈ G ∖ (Frow ∪ Fsp) -> (x ∉ R3) /\ x < length s) as Hrest.
  { intros x Hx. assert (x < length s) by (apply Hb; clear - Hx; set_solver).
    split; [|auto]. intros H3. apply Hgrow in H3 as [H3|H3]; [|lia].
    clear - Hx H3. set_solver. }
  exists s5, ((R3 ∪ {[length s3]}) ∪ (G ∖ (Frow ∪ Fsp))).
  split; [reflexivity|]. split.
  - apply (Hput s5 row2 (VRef (length s3)) (pspan rowsum) R3 {[length s3]}).
    + eapply own_frame; [exact Hrow3|]. intros x Hx. apply Hframe5; [auto|].
      intros ->. contradiction.
    + eapply own_frame; [apply (own_span s3 rowsum)|].
      intros x Hx. apply elem_of_singleton in Hx. subst x.
      unfold s5. apply list_lookup_insert_ne. lia.
    + apply elem_of_disjoint. intros x Hx1 Hx2.
      apply elem_of_singleton in Hx2. subst x. apply Hb3 in Hx1. lia.
    + apply elem_of_disjoint. intros x Hx1 Hx2.
      destruct (Hrest x Hx2) as [Hn3' Hlt].
      apply elem_of_union in Hx1 as [Hx1|Hx1]; [contradiction|].
      apply elem_of_singleton in Hx1. lia.
    + intros H. apply Hgrow in H as [H|H]; [|lia].
      apply HlG. clear - H HsubR. set_solver.
    + intros H. apply elem_of_singleton in H. lia.
    + intros x Hx Hne. destruct (Hrest x Hx) as [_ Hlt].
      rewrite Hframe5; [|lia|exact Hne].
      apply Hframe; [exact Hlt|]. clear - Hx. set_solver.
    + rewrite Hframe5; [|lia|].
      * rewrite Hframe; [exact Hl | exact Hllt |].
        intros H. apply HlG. clear - H HsubR. set_solver.
      * intros ->. contradiction.
    + unfold s5. apply list_lookup_insert_eq. unfold s4.
      rewrite length_app. simpl. lia.
  - split; [|split].
    + lia.
    + intros x Hx HG.
      rewrite Hframe5; [|lia|intros ->; contradiction].
      apply Hframe; [exact Hx|]. clear - HG HsubR. set_solver.
    + intros x Hx. apply elem_of_union in Hx as [Hx|Hx].
      * apply elem_of_union in Hx as [Hx|Hx].
        -- apply Hgrow in Hx as [Hx|Hx]; [left|right; lia].
           clear - Hx HsubR. set_solver.
        -- apply elem_of_singleton in Hx. right. lia.
      * left. clear - Hx. set_solver.
Qed.

End Group.

(** ** The loop over the columns, and the call *)

Section Rows.
Implicit Types (s : store) (F G : gset nat).

(** The flattening of a nested mapping with the columns [rest]. *)
Definition flat_sub (rest : list coltype) (sub : pval) : option pval :=
  match sub with
  | PDict rows => option_map PDict (flat_loop rest 0 rest (reformatted rows))
  | _ => None
  end.

Definition loop_spec (coltypes : list coltype) (colcount : nat)
  (remaining : list coltype) : Prop :=
  forall s l n vs cur G out,
    rows_inv s l n vs cur G ->
    flat_loop coltypes colcount remaining cur = Some out ->
    exists s' G',
      rows_loop coltypes colcount remaining (VRef l) (VRef n) s = (ok tt, s') /\
      rows_inv s' l n vs out G' /\ evolves s s' G G'.

(** A call, given what its loop does. *)
Lemma rows_call (coltypes : list coltype) s l rows F out :
  loop_spec coltypes 0 coltypes ->
  own s (VRef l) (PDict rows) F ->
  flat_loop coltypes 0 coltypes (reformatted rows) = Some out ->
  exists s' G vs,
    (inner <- new_dict [] ;
     reformat (VRef l) inner ;;
     rows_loop coltypes 0 coltypes (VRef l) inner ;;
     ret inner) s = (ok (VRef (length s)), s') /\
    rows_inv s' l (length s) vs out G /\ evolves s s' F G /\
    s !! l = Some vs.
Proof.
  intros Hloop Hown Hflat.
  pose proof (own_bound _ _ _ _ Hown) as Hb.
  inversion Hown as [| | | | |? vs ? F0 Hl Hnd Howns HlF]; subst.
  assert (l < length s) as Hllt by (eapply lookup_lt_Some; eauto).
  unfold new_dict at 1. unfold bind at 1.
  set (n := length s). set (s1 := s ++ [[]]).
  assert (n ∉ F0) as HnF.
  { intros H. assert (n < length s) by (apply Hb; clear - H; set_solver).
    unfold n in *. lia. }
  destruct (reformat_spec s1 l n vs rows F0) as (s2 & G2 & Hrun2 & Hinv2 & Hev2).
  - unfold s1. rewrite lookup_old; auto.
  - exact Hnd.
  - now apply owns_grow.
  - exact HlF.
  - apply lookup_new.
  - exact HnF.
  - unfold n. lia.
  - rewrite (bind_ok _ _ _ _ _ Hrun2).
    destruct (Hloop s2 l n vs _ G2 out Hinv2 Hflat) as (s3 & G3 & Hrun3 & Hinv3 & Hev3).
    rewrite (bind_ok _ _ _ _ _ Hrun3).
    exists s3, G3, vs. split; [reflexivity|]. split; [exact Hinv3|].
    split; [|exact Hl].
    eapply evolves_trans; [|exact Hev3].
    eapply evolves_trans; [|exact Hev2].
    split; [|split].
    + unfold s1. rewrite length_app. simpl. lia.
    + intros x Hx _. unfold s1. now apply lookup_old.
    + intros x Hx. apply elem_of_union in Hx as [Hx|Hx].
      * apply elem_of_singleton in Hx. subst x. right. unfold n. lia.
      * left. clear - Hx. set_solver.
Qed.

Lemma rows_call_spec (rest : list coltype) :
  loop_spec rest 0 rest ->
  call_spec (fun sub => inner <- new_dict [] ;
                        reformat sub inner ;;
                        rows_loop rest 0 rest sub inner ;;
                        ret inner)
    (flat_sub rest).
Proof.
  intros Hloop s v t F out Hown Hflat.
  destruct t as [| | | | |rows]; cbn [flat_sub] in Hflat; try discriminate.
  destruct (flat_loop rest 0 rest (reformatted rows)) as [out'|] eqn:E;
    [|discriminate].
  inversion Hflat; subst out. clear Hflat.
  destruct (own_dict_ref _ _ _ _ Hown) as [l ->].
  destruct (rows_call rest s l rows F out' Hloop Hown E)
    as (s' & G & vs & Hrun & Hinv & Hev & _).
  exists s', (VRef (length s)), G. split; [exact Hrun|]. split; [|exact Hev].
  now destruct Hinv as (_ & _ & H & _).
Qed.

Lemma rows_loop_spec (remaining : list coltype) :
  forall coltypes colcount, loop_spec coltypes colcount remaining.
Proof.
  induction remaining as [|coltype rest IH]; intros coltypes colcount;
    intros s l n vs cur G out Hinv Hflat; cbn [rows_loop flat_loop] in *.
  - inversion Hflat; subst. exists s, G. split; [reflexivity|].
    split; [exact Hinv | apply evolves_refl].
  - destruct (is_dict_or_accounts coltype).
    + apply (pass_spec _ _ _ _ _ _ _ _ _ Hinv Hflat).
      intros s1 G1 cur1 i key cell cell' Hinv1 Hi Hf.
      apply (group_step
               (fun sub => inner <- new_dict [] ;
                           reformat sub inner ;;
                           rows_loop rest 0 rest sub inner ;;
                           ret inner)
               (flat_sub rest) (fst coltype) (firstn colcount coltypes)
               s1 l n vs cur1 G1 i key cell cell'); auto.
      apply rows_call_spec. apply IH.
    + destruct (map_values (wrap_cell (fst coltype)) cur) as [cur1|] eqn:Hmap;
        [|discriminate].
      destruct (pass_spec
                  (fun key => row <- getitem (VRef l) key ;
                              v <- getitem row (fst coltype) ;
                              r <- new_dict (rowspan 1) ;
                              cell <- getitem (VRef n) key ;
                              target <- index cell 0 ;
                              setitem target (fst coltype) (VTuple v r))
                  (wrap_cell (fst coltype)) s l n vs cur G cur1 Hinv Hmap)
        as (s1 & G1 & Hrun1 & Hinv1 & Hev1).
      { intros s1 G1 cur0 i key cell cell' Hinv1 Hi Hf.
        eapply scalar_step; eauto. }
      rewrite (bind_ok _ _ _ _ _ Hrun1).
      destruct (IH coltypes (S colcount) s1 l n vs cur1 G1 out Hinv1 Hflat)
        as (s2 & G2 & Hrun2 & Hinv2 & Hev2).
      exists s2, G2. split; [exact Hrun2|]. split; [exact Hinv2|].
      eapply evolves_trans; eauto.
Qed.

End Rows.

(** ** Laying a tree out in the store *)

(** Every dictionary of the tree has each key once. *)
Fixpoint wf (t : pval) : Prop :=
  match t with
  | PTuple a b => wf a /\ wf b
  | PDict d =>
      NoDup (Dict.keys d) /\
      (fix all (d : list (string * pval)) : Prop :=
         match d with
         | [] => True
         | (_, t') :: d' => wf t' /\ all d'
         end) d
  | _ => True
  end.

Definition wf_entries (d : list (string * pval)) : Prop :=
  Forall (fun kv => wf (snd kv)) d.

Lemma wf_dict d : wf (PDict d) <-> NoDup (Dict.keys d) /\ wf_entries d.
Proof.
  cbn [wf]. unfold wf_entries.
  assert ((fix all (d : list (string * pval)) : Prop :=
             match d with
             | [] => True
             | (_, t') :: d' => wf t' /\ all d'
             end) d <-> Forall (fun kv => wf (snd kv)) d) as ->; [|reflexivity].
  induction d as [|[k t] d IH].
  - split; auto.
  - rewrite Forall_cons, IH. reflexivity.
Qed.

(** The entries of a dictionary display, evaluated in order. *)
Fixpoint alloc_entries (d : list (string * pval)) : M (Dict.t val) :=
  match d with
  | [] => ret []
  | (k, t') :: d' =>
      v <- alloc t' ;
      vs <- alloc_entries d' ;
      ret ((k, v) :: vs)
  end.

Lemma alloc_dict d : alloc (PDict d) = (vs <- alloc_entries d ; new_dict vs).
Proof.
  cbn [alloc]. f_equal.
Qed.


(** Induction on trees, through the entries of their dictionaries. *)
Section PvalInd.
Variable P : pval -> Prop.
Hypothesis HNone : P PNone.
Hypothesis HDec : forall d, P (PDec d).
Hypothesis HDate : forall d, P (PDate d).
Hypothesis HInt : forall n, P (PInt n).
Hypothesis HTuple : forall a, P a -> forall b, P b -> P (PTuple a b).
Hypothesis HDict : forall d, Forall (fun kv => P (snd kv)) d -> P (PDict d).

Fixpoint pval_ind' (t : pval) : P t :=
  match t with
  | PNone => HNone
  | PDec d => HDec d
  | PDate d => HDate d
  | PInt n => HInt n
  | PTuple a b => HTuple a (pval_ind' a) b (pval_ind' b)
  | PDict d =>
      HDict d
        ((fix inds (d : list (string * pval))
            : Forall (fun kv => P (snd kv)) d :=
            match d with
            | [] => Stdlib.Lists.List.Forall_nil _
            | (k, t') :: d' =>
                Stdlib.Lists.List.Forall_cons _ (k, t') d' (pval_ind' t') (inds d')
            end) d)
  end.

End PvalInd.

Section Alloc.
Implicit Types (s : store) (F G : gset nat).

(** [alloc] makes new objects only. *)
Definition allocates (s s' : store) (F : gset nat) : Prop :=
  (exists ext, s' = s ++ ext) /\ forall x, x ∈ F -> length s <= x.

Lemma allocates_evolves s s' F F0 : allocates s s' F -> evolves s s' F0 (F0 ∪ F).
Proof.
  intros [[ext ->] HF]. split; [|split].
  - rewrite length_app. lia.
  - intros x Hx _. now apply lookup_app_l.
  - intros x Hx. apply elem_of_union in Hx as [Hx|Hx]; auto.
Qed.

Lemma own_extend s ext v t F : own s v t F -> own (s ++ ext) v t F.
Proof.
  intros H. eapply own_frame; [exact H|]. intros x Hx.
  apply lookup_app_l. eapply own_bound; eauto.
Qed.

Lemma owns_extend s ext vs d F : owns s vs d F -> owns (s ++ ext) vs d F.
Proof.
  intros H. eapply owns_frame; [exact H|]. intros x Hx.
  apply lookup_app_l. eapply owns_bound; eauto.
Qed.

Lemma alloc_spec (t : pval) : forall s,
  wf t ->
  exists s' v F, alloc t s = (ok v, s') /\ own s' v t F /\ allocates s s' F.
Proof.
  induction t as [| | | |a IHa b IHb|d IHd] using pval_ind'; intros s Hwf.
  - exists s, VNone, ∅. repeat split; [constructor | exists []; now rewrite app_nil_r | set_solver].
  - exists s, (VDec d), ∅. repeat split; [constructor | exists []; now rewrite app_nil_r | set_solver].
  - exists s, (VDate d), ∅. repeat split; [constructor | exists []; now rewrite app_nil_r | set_solver].
  - exists s, (VInt n), ∅. repeat split; [constructor | exists []; now rewrite app_nil_r | set_solver].
  - destruct Hwf as [Hwa Hwb].
    destruct (IHa s Hwa) as (s1 & va & Fa & Hra & Howna & [[e1 ->] Hba]).
    destruct (IHb (s ++ e1) Hwb) as (s2 & vb & Fb & Hrb & Hownb & [[e2 ->] Hbb]).
    exists ((s ++ e1) ++ e2), (VTuple va vb), (Fa ∪ Fb). split; [|split].
    + cbn [alloc]. rewrite (bind_ok _ _ _ _ _ Hra), (bind_ok _ _ _ _ _ Hrb).
      reflexivity.
    + constructor; [now apply own_extend | exact Hownb |].
      apply elem_of_disjoint. intros x Hxa Hxb.
      apply Hbb in Hxb. apply (own_bound _ _ _ _ Howna) in Hxa. lia.
    + split; [exists (e1 ++ e2); now rewrite app_assoc|].
      intros x Hx. apply elem_of_union in Hx as [Hx|Hx]; auto.
      apply Hbb in Hx. rewrite length_app in Hx. lia.
  - apply wf_dict in Hwf as [Hnd Hwd]. rewrite alloc_dict.
    assert (exists s1 vs F, alloc_entries d s = (ok vs, s1) /\
              owns s1 vs d F /\ allocates s s1 F) as (s1 & vs & F & Hrun & Howns & Hal).
    { clear Hnd. revert s. induction d as [|[k t] d IH]; intros s.
      - exists s, [], ∅. repeat split; [constructor | exists []; now rewrite app_nil_r | set_solver].
      - inversion IHd as [|? ? IHt IHd']; subst. inversion Hwd as [|? ? Hwt Hwd']; subst.
        cbn [snd] in *.
        destruct (IHt s Hwt) as (s1 & v & Fv & Hrv & Hownv & [[e1 ->] Hbv]).
        destruct (IH IHd' Hwd' (s ++ e1)) as (s2 & vs & F & Hrs & Howns & [[e2 ->] Hbs]).
        exists ((s ++ e1) ++ e2), ((k, v) :: vs), (Fv ∪ F). split; [|split].
        + cbn [alloc_entries]. rewrite (bind_ok _ _ _ _ _ Hrv), (bind_ok _ _ _ _ _ Hrs).
          reflexivity.
        + constructor; [now apply own_extend | exact Howns |].
          apply elem_of_disjoint. intros x Hxa Hxb.
          apply Hbs in Hxb. apply (own_bound _ _ _ _ Hownv) in Hxa. lia.
        + split; [exists (e1 ++ e2); now rewrite app_assoc|].
          intros x Hx. apply elem_of_union in Hx as [Hx|Hx]; auto.
          apply Hbs in Hx. rewrite length_app in Hx. lia. }
    destruct Hal as [[e1 ->] Hb].
    rewrite (bind_ok _ _ _ _ _ Hrun). unfold new_dict.
    exists ((s ++ e1) ++ [vs]), (VRef (length (s ++ e1))), ({[length (s ++ e1)]} ∪ F).
    split; [reflexivity|]. split.
    + apply own_ref with (vs := vs).
      * apply lookup_new.
      * rewrite (owns_keys _ _ _ _ Howns). exact Hnd.
      * now apply owns_extend.
      * intros H. apply (owns_bound _ _ _ _ Howns) in H. lia.
    + split; [exists (e1 ++ [vs]); now rewrite app_assoc|].
      intros x Hx. apply elem_of_union in Hx as [Hx|Hx]; auto.
      apply elem_of_singleton in Hx. subst. rewrite length_app. lia.
Qed.

End Alloc.

(** ** [insert_rowspans(data, coltypes, False)] *)

(** X14: called on a mapping [data] whose values are trees of dictionaries
    sharing no object, with columns for which the flattening [flat_loop]
    is defined, [insert_rowspans(data, coltypes, False)] returns a new
    dictionary that is the flattened tree.  The dictionary [data] is left
    as it was and the objects outside its tree are not touched, but the
    rows are rewritten in place: after the call the object [data[key]] is
    the flattened row of the result, cells and spans included. *)
Theorem flattening_rewrites_the_rows_in_place
  (s : store) (l : nat) (rows : list (string * pval)) (F : gset nat)
  (coltypes : list coltype) (out : list (string * pval)) :
  own s (VRef l) (PDict rows) F ->
  flat_loop coltypes 0 coltypes (reformatted rows) = Some out ->
  exists s' G vs,
    insert_rowspans (VRef l) coltypes false s = (ok (VRef (length s)), s') /\
    own s' (VRef (length s)) (PDict out) G /\
    evolves s s' F G /\
    s !! l = Some vs /\ s' !! l = Some vs /\ (l ∉ G) /\
    forall i key rowt spt,
      out !! i = Some (key, PTuple rowt spt) ->
      exists vrow Frow, vs !! i = Some (key, vrow) /\ own s' vrow rowt Frow.
Proof.
  intros Hown Hflat.
  destruct (rows_call coltypes s l rows F out
              (rows_loop_spec coltypes coltypes 0) Hown Hflat)
    as (s' & G & vs & Hrun & Hinv & Hev & Hl).
  exists s', G, vs. cbn [insert_rowspans]. split; [exact Hrun|].
  pose proof Hinv as (Hl' & HlG & Hown' & _).
  split; [exact Hown'|]. split; [exact Hev|]. split; [exact Hl|].
  split; [exact Hl'|]. split; [exact HlG|].
  intros i key rowt spt Hi.
  destruct (rows_inv_focus _ _ _ _ _ _ _ _ _ _ Hinv Hi)
    as (vrow & vsp & nvs & Frow & Fsp & Hvi & _ & _ & _ & Hrow & _).
  eauto.
Qed.

(** A mapping with one row of one column. *)
Definition one_row : store :=
  [ [("total"%string, VInt 7)]; [("k"%string, VRef 0)] ].

Lemma flattening_rewrites_the_rows_witness :
  exists s' G vs,
    insert_rowspans (VRef 1) [("total", str_Decimal)]%string false one_row
      = (ok (VRef 2), s') /\
    own s' (VRef 2)
      (PDict [("k"%string,
               PTuple (PDict [("total"%string, PTuple (PInt 7) (pspan 1))])
                 (pspan 1))]) G /\
    evolves one_row s' ({[1]} ∪ (({[0]} ∪ (∅ ∪ ∅)) ∪ ∅)) G /\
    one_row !! 1 = Some vs /\ s' !! 1 = Some vs /\ (1 ∉ G) /\
    forall i key rowt spt,
      [("k"%string,
        PTuple (PDict [("total"%string, PTuple (PInt 7) (pspan 1))]) (pspan 1))]
        !! i = Some (key, PTuple rowt spt) ->
      exists vrow Frow, vs !! i = Some (key, vrow) /\ own s' vrow rowt Frow.
Proof.
  apply (flattening_rewrites_the_rows_in_place one_row 1
           [("k"%string, PDict [("total"%string, PInt 7)])]).
  - apply own_ref with (vs := [("k"%string, VRef 0)]).
    + reflexivity.
    + apply NoDup_singleton.
    + constructor.
      * apply own_ref with (vs := [("total"%string, VInt 7)]).
        -- reflexivity.
        -- apply NoDup_singleton.
        -- constructor; [constructor | constructor | set_solver].
        -- set_solver.
      * constructor.
      * set_solver.
    + set_solver.
  - reflexivity.
Defined.

(** ** The flattened table of a portfolio tree *)

Local Open Scope Z_scope.

(** A cell with its span. *)
Definition spanned (v : pval) (n : Z) : pval := PTuple v (pspan n).

(** The number of account rows below a subclass, a class, the tree. *)
Definition account_rows (sd : subclass_dict) : Z :=
  Z.of_nat (length (accounts sd)).

Definition class_rows (cls : class_dict) : Z :=
  fold_right (fun kv acc => account_rows (snd kv) + acc) 0 (asset_subclasses cls).

Definition tree_rows (t : portfolio_tree) : Z :=
  fold_right (fun kv acc => class_rows (snd kv) + acc) 0 (asset_classes t).

Definition flat_account (a : account_data) : pval :=
  spanned
    (PDict [ ("balance_market_value", spanned (PDec (balance_market_value a)) 1);
             ("income_gain_loss", spanned (opt_dec (income_gain_loss a)) 1);
             ("gain_loss_percentage", spanned (opt_dec (gain_loss_percentage a)) 1);
             ("latest_price_date", spanned (opt_date (latest_price_date a)) 1);
             ("portfolio_allocation", opt_dec (acc_portfolio_allocation a));
             ("asset_class_allocation", opt_dec (acc_asset_class_allocation a));
             ("asset_subclass_allocation",
               spanned (opt_dec (acc_asset_subclass_allocation a)) 1) ]%string)
    1.

Definition flat_subclass (sd : subclass_dict) : pval :=
  let n := account_rows sd in
  spanned
    (PDict [ ("asset_subclass_total", spanned (PDec (asset_subclass_total sd)) n);
             ("portfolio_allocation", PDec (sub_portfolio_allocation sd));
             ("asset_subclass_asset_class_allocation",
               PDec (asset_subclass_asset_class_allocation sd));
             ("accounts",
               PDict (map (fun kv => (fst kv, flat_account (snd kv))) (accounts sd)));
             ("asset_class_allocation",
               spanned (opt_dec (sub_asset_class_allocation sd)) n) ]%string)
    n.

Definition flat_class (cls : class_dict) : pval :=
  let n := class_rows cls in
  spanned
    (PDict [ ("portfolio_allocation", spanned (PDec (cls_portfolio_allocation cls)) n);
             ("asset_class_total", spanned (PDec (asset_class_total cls)) n);
             ("asset_subclasses",
               PDict (map (fun kv => (fst kv, flat_subclass (snd kv)))
                        (asset_subclasses cls))) ]%string)
    n.

Definition flat_tree (t : portfolio_tree) : pval :=
  PDict [ ("portfolio_total", spanned (PDec (portfolio_total t)) (tree_rows t));
          ("asset_classes",
            PDict (map (fun kv => (fst kv, flat_class (snd kv))) (asset_classes t))) ]%string.

(** The trees of the allocation pass: every key it adds is there. *)
Definition allocated_account (a : account_data) : Prop :=
  is_Some (acc_portfolio_allocation a) /\
  is_Some (acc_asset_class_allocation a) /\
  is_Some (acc_asset_subclass_allocation a).

Definition allocated_subclass (sd : subclass_dict) : Prop :=
  is_Some (sub_asset_class_allocation sd) /\
  Forall (fun kv => allocated_account (snd kv)) (accounts sd).

Definition allocated_class (cls : class_dict) : Prop :=
  Forall (fun kv => allocated_subclass (snd kv)) (asset_subclasses cls).

Definition allocated (t : portfolio_tree) : Prop :=
  Forall (fun kv => allocated_class (snd kv)) (asset_classes t).

(** The columns of the three levels below the root. *)
Definition class_columns : list coltype := skipn 2 types.
Definition subclass_columns : list coltype := skipn 5 types.
Definition account_columns : list coltype := skipn 8 types.

Section Fusion.

(** The scalar columns of one entry, one after the other. *)
Definition wrap_all (scalars : list coltype) (cell : pval) : option pval :=
  fold_left (fun acc c => match acc with
                          | Some cell => wrap_cell (fst c) cell
                          | None => None
                          end) scalars (Some cell).

Lemma map_values_compose {A B C} (f : A -> option B) (g : B -> option C)
  (d : list (string * A)) :
  match map_values f d with
  | Some d' => map_values g d'
  | None => None
  end =
  map_values (fun x => match f x with Some y => g y | None => None end) d.
Proof.
  induction d as [|[k x] d IH]; cbn [map_values]; [reflexivity|].
  destruct (f x) as [y|]; [|reflexivity].
  destruct (map_values f d) as [d'|]; cbn [map_values].
  - destruct (g y); [|reflexivity]. now rewrite <- IH.
  - destruct (g y); [|reflexivity]. now rewrite <- IH.
Qed.

Lemma map_values_ext {A B} (f g : A -> option B) (d : list (string * A)) :
  (forall x, f x = g x) -> map_values f d = map_values g d.
Proof.
  intros H. induction d as [|[k x] d IH]; cbn [map_values]; [reflexivity|].
  now rewrite H, IH.
Qed.

Lemma map_values_map {A B C} (f : B -> option C) (g : A -> B) (h : A -> C)
  (d : list (string * A)) :
  Forall (fun kv => f (g (snd kv)) = Some (h (snd kv))) d ->
  map_values f (map (fun kv => (fst kv, g (snd kv))) d) =
  Some (map (fun kv => (fst kv, h (snd kv))) d).
Proof.
  induction 1 as [|[k x] d Hx Hd IH]; cbn [map_values map fst snd] in *;
    [reflexivity|].
  now rewrite Hx, IH.
Qed.

Lemma fold_wrap_None (scalars : list coltype) :
  fold_left (fun acc c => match acc with
                          | Some cell => wrap_cell (fst c) cell
                          | None => None
                          end) scalars None = None.
Proof. induction scalars; simpl; auto. Qed.

Lemma wrap_all_cons c scalars cell :
  wrap_all (c :: scalars) cell =
  match wrap_cell (fst c) cell with
  | Some cell' => wrap_all scalars cell'
  | None => None
  end.
Proof.
  unfold wrap_all. cbn [fold_left].
  destruct (wrap_cell (fst c) cell); [reflexivity | apply fold_wrap_None].
Qed.

(** Scalar columns up to a group column, entry by entry. *)
Lemma flat_loop_group (scalars : list coltype) : forall coltypes k g rest entries,
  Forall (fun c => is_dict_or_accounts c = false) scalars ->
  is_dict_or_accounts g = true ->
  flat_loop coltypes k (scalars ++ g :: rest) entries =
  map_values
    (fun cell =>
       match wrap_all scalars cell with
       | Some cell' =>
           group_cell (flat_sub rest) (fst g)
             (firstn (k + length scalars) coltypes) cell'
       | None => None
       end) entries.
Proof.
  induction scalars as [|c scalars IH]; intros coltypes k g rest entries Hs Hg.
  - cbn [app flat_loop]. rewrite Hg. cbn [length wrap_all fold_left].
    now rewrite Nat.add_0_r.
  - inversion Hs as [|? ? Hc Hs']; subst.
    cbn [app flat_loop]. rewrite Hc.
    transitivity
      (match map_values (wrap_cell (fst c)) entries with
       | Some d' =>
           map_values
             (fun cell =>
                match wrap_all scalars cell with
                | Some cell' =>
                    group_cell (flat_sub rest) (fst g)
                      (firstn (S k + length scalars) coltypes) cell'
                | None => None
                end) d'
       | None => None
       end).
    { destruct (map_values (wrap_cell (fst c)) entries); [|reflexivity].
      now apply IH. }
    rewrite map_values_compose. apply map_values_ext. intros cell.
    rewrite wrap_all_cons. cbn [length].
    replace (k + S (length scalars))%nat with (S k + length scalars)%nat by lia.
    now destruct (wrap_cell (fst c) cell).
Qed.

(** Scalar columns only. *)
Lemma flat_loop_scalars (scalars : list coltype) : forall coltypes k entries,
  Forall (fun c => is_dict_or_accounts c = false) scalars ->
  flat_loop coltypes k scalars entries = map_values (wrap_all scalars) entries.
Proof.
  induction scalars as [|c scalars IH]; intros coltypes k entries Hs.
  - cbn [flat_loop wrap_all fold_left].
    induction entries as [|[key x] entries IHe]; cbn [map_values]; [reflexivity|].
    now rewrite <- IHe.
  - inversion Hs as [|? ? Hc Hs']; subst.
    cbn [flat_loop]. rewrite Hc.
    transitivity
      (match map_values (wrap_cell (fst c)) entries with
       | Some d' => map_values (wrap_all scalars) d'
       | None => None
       end).
    { destruct (map_values (wrap_cell (fst c)) entries); [|reflexivity].
      now apply IH. }
    rewrite map_values_compose. apply map_values_ext. intros cell.
    now rewrite wrap_all_cons.
Qed.

End Fusion.

Section ClosedForms.

Lemma reformatted_map {A} (g : A -> pval) (d : list (string * A)) :
  reformatted (map (fun kv => (fst kv, g (snd kv))) d) =
  map (fun kv => (fst kv, PTuple (g (snd kv)) (pspan 1))) d.
Proof. unfold reformatted. rewrite map_map. reflexivity. Qed.

Lemma scalar_columns_of_accounts :
  Forall (fun c => is_dict_or_accounts c = false) account_columns.
Proof. repeat constructor. Qed.

Lemma flat_account_row (a : account_data) :
  allocated_account a ->
  wrap_all account_columns (PTuple (account_pval a) (pspan 1)) = Some (flat_account a).
Proof.
  destruct a as [v igl glp lpd pa ca sa]. intros ([x Hx] & [y Hy] & [z Hz]).
  cbn in Hx, Hy, Hz. subst. reflexivity.
Qed.

Lemma flat_accounts (accs : Dict.t account_data) :
  Forall (fun kv => allocated_account (snd kv)) accs ->
  flat_loop account_columns 0 account_columns
    (reformatted (map (fun kv => (fst kv, account_pval (snd kv))) accs))
  = Some (map (fun kv => (fst kv, flat_account (snd kv))) accs).
Proof.
  intros Hall. rewrite flat_loop_scalars by exact scalar_columns_of_accounts.
  rewrite reformatted_map.
  apply (map_values_map (wrap_all account_columns)
           (fun a => PTuple (account_pval a) (pspan 1)) flat_account).
  eapply Forall_impl; [exact Hall|]. intros [k a] Ha. now apply flat_account_row.
Qed.

Lemma span_sum_accounts (accs : Dict.t account_data) : forall acc,
  span_sum acc (map (fun kv => (fst kv, flat_account (snd kv))) accs)
  = Some (acc + Z.of_nat (length accs)).
Proof.
  induction accs as [|[k a] accs IH]; intros acc; cbn [map span_sum length].
  - f_equal. lia.
  - cbn [flat_account spanned psnd pspan pget Dict.get fst snd String.eqb].
    cbn. rewrite IH. f_equal. lia.
Qed.


Lemma scalar_columns_of_subclasses :
  Forall (fun c => is_dict_or_accounts c = false) (firstn 2 subclass_columns).
Proof. repeat constructor. Qed.

Lemma scalar_columns_of_classes :
  Forall (fun c => is_dict_or_accounts c = false) (firstn 2 class_columns).
Proof. repeat constructor. Qed.

Lemma flat_subclass_row (sd : subclass_dict) :
  allocated_subclass sd ->
  match wrap_all (firstn 2 subclass_columns) (PTuple (subclass_pval sd) (pspan 1)) with
  | Some cell' =>
      group_cell (flat_sub account_columns) "accounts"
        (firstn (0 + 2) subclass_columns) cell'
  | None => None
  end = Some (flat_subclass sd).
Proof.
  destruct sd as [total pa saca accs late]. intros [[x Hx] Hall].
  cbn in Hx, Hall. subst late.
  cbn [firstn subclass_columns skipn types wrap_all fold_left fst Nat.add].
  unfold subclass_pval.
  cbn [asset_subclass_total sub_portfolio_allocation
       asset_subclass_asset_class_allocation accounts sub_asset_class_allocation
       late_key app].
  cbn [wrap_cell pget pset Dict.get Dict.set String.eqb Ascii.eqb Bool.eqb].
  cbn [group_cell pget pset Dict.get Dict.set String.eqb Ascii.eqb Bool.eqb flat_sub].
  rewrite (flat_accounts accs Hall). cbn [option_map].
  rewrite span_sum_accounts.
  cbn [fold_left respan pget pset pfst Dict.get Dict.set String.eqb Ascii.eqb
       Bool.eqb fst].
  reflexivity.
Qed.

Lemma flat_subclasses (subs : Dict.t subclass_dict) :
  Forall (fun kv => allocated_subclass (snd kv)) subs ->
  flat_loop subclass_columns 0 subclass_columns
    (reformatted (map (fun kv => (fst kv, subclass_pval (snd kv))) subs))
  = Some (map (fun kv => (fst kv, flat_subclass (snd kv))) subs).
Proof.
  intros Hall.
  change subclass_columns
    with (firstn 2 subclass_columns
            ++ ("accounts"%string, str_AccountsDict) :: account_columns) at 2.
  rewrite flat_loop_group; [|exact scalar_columns_of_subclasses|reflexivity].
  rewrite reformatted_map.
  apply (map_values_map _ (fun sd => PTuple (subclass_pval sd) (pspan 1)) flat_subclass).
  eapply Forall_impl; [exact Hall|]. intros [k sd] Hsd.
  now apply flat_subclass_row.
Qed.

Lemma span_sum_subclasses (subs : Dict.t subclass_dict) : forall acc,
  span_sum acc (map (fun kv => (fst kv, flat_subclass (snd kv))) subs)
  = Some (acc + fold_right (fun kv acc => account_rows (snd kv) + acc) 0 subs).
Proof.
  induction subs as [|[k sd] subs IH]; intros acc; cbn [map span_sum fold_right].
  - f_equal. lia.
  - cbn [flat_subclass spanned psnd pspan pget Dict.get fst snd].
    cbn [String.eqb Ascii.eqb Bool.eqb]. rewrite IH. f_equal. lia.
Qed.

Lemma flat_class_row (cls : class_dict) :
  allocated_class cls ->
  match wrap_all (firstn 2 class_columns) (PTuple (class_pval cls) (pspan 1)) with
  | Some cell' =>
      group_cell (flat_sub subclass_columns) "asset_subclasses"
        (firstn (0 + 2) class_columns) cell'
  | None => None
  end = Some (flat_class cls).
Proof.
  destruct cls as [pa total subs]. intros Hall. cbn in Hall.
  cbn [firstn class_columns skipn types wrap_all fold_left fst Nat.add].
  unfold class_pval.
  cbn [cls_portfolio_allocation asset_class_total asset_subclasses].
  cbn [wrap_cell pget pset Dict.get Dict.set String.eqb Ascii.eqb Bool.eqb].
  cbn [group_cell pget pset Dict.get Dict.set String.eqb Ascii.eqb Bool.eqb flat_sub].
  rewrite (flat_subclasses subs Hall). cbn [option_map].
  rewrite span_sum_subclasses.
  cbn [fold_left respan pget pset pfst Dict.get Dict.set String.eqb Ascii.eqb
       Bool.eqb fst].
  reflexivity.
Qed.

Lemma flat_classes (classes : Dict.t class_dict) :
  Forall (fun kv => allocated_class (snd kv)) classes ->
  flat_loop class_columns 0 class_columns
    (reformatted (map (fun kv => (fst kv, class_pval (snd kv))) classes))
  = Some (map (fun kv => (fst kv, flat_class (snd kv))) classes).
Proof.
  intros Hall.
  change class_columns
    with (firstn 2 class_columns
            ++ ("asset_subclasses"%string, str_dict) :: subclass_columns) at 2.
  rewrite flat_loop_group; [|exact scalar_columns_of_classes|reflexivity].
  rewrite reformatted_map.
  apply (map_values_map _ (fun cls => PTuple (class_pval cls) (pspan 1)) flat_class).
  eapply Forall_impl; [exact Hall|]. intros [k cls] Hcls.
  now apply flat_class_row.
Qed.

Lemma span_sum_classes (classes : Dict.t class_dict) : forall acc,
  span_sum acc (map (fun kv => (fst kv, flat_class (snd kv))) classes)
  = Some (acc + fold_right (fun kv acc => class_rows (snd kv) + acc) 0 classes).
Proof.
  induction classes as [|[k cls] classes IH]; intros acc; cbn [map span_sum fold_right].
  - f_equal. lia.
  - cbn [flat_class spanned psnd pspan pget Dict.get fst snd].
    cbn [String.eqb Ascii.eqb Bool.eqb]. rewrite IH. f_equal. lia.
Qed.

End ClosedForms.

(** ** The starting call on the root of a tree *)

Section Start.
Implicit Types (s : store) (F G : gset nat).

Lemma start_spec s l d F pt classes out rowsum :
  own s (VRef l) (PDict d) F ->
  Dict.get "portfolio_total" d = Some (PDec pt) ->
  Dict.get "asset_classes" d = Some (PDict classes) ->
  flat_loop class_columns 0 class_columns (reformatted classes) = Some out ->
  span_sum 0 out = Some rowsum ->
  exists s' G,
    insert_rowspans (VRef l) types true s = (ok (VRef (length s)), s') /\
    own s' (VRef (length s))
      (PDict [ ("portfolio_total", spanned (PDec pt) rowsum);
               ("asset_classes", PDict out) ]%string) G /\
    evolves s s' F G.
Proof.
  intros Hown Hpt Hac Hflat Hsum.
  pose proof (own_bound _ _ _ _ Hown) as Hb.
  destruct (own_focus _ _ _ _ _ _ Hown Hpt)
    as (vs0 & vpt & Fpt & Hl & Hgetpt & Hownpt & _).
  inversion Hownpt; subst. clear Hownpt.
  destruct (own_focus _ _ _ _ _ _ Hown Hac)
    as (vs0' & vsub & Fs & Hl' & Hgetac & Hownsub & HsubF & HlS & HlF & _).
  assert (vs0' = vs0) by congruence. subst vs0'. clear Hl'.
  destruct (own_dict_ref _ _ _ _ Hownsub) as [lc ->].
  assert (l < length s)%nat as Hllt by (eapply lookup_lt_Some; eauto).
  cbn [insert_rowspans]. unfold new_dict at 1. unfold bind at 1.
  change types
    with (("portfolio_total"%string, str_Decimal)
            :: ("asset_classes"%string, str_dict) :: class_columns) at 2.
  cbn [start_loop].
  change (is_dict ("portfolio_total"%string, str_Decimal)) with false.
  change (is_dict ("asset_classes"%string, str_dict)) with true.
  cbn iota. cbn [fst firstn types].
  unfold bind at 1.
  set (n := length s). set (s1 := s ++ [[]]).
  (* the first column *)
  assert (s1 !! l = Some vs0) as Hl1 by (unfold s1; rewrite lookup_old; auto).
  rewrite (bind_ok _ _ _ _ _ (getitem_ref _ _ _ _ _ Hl1 Hgetpt)).
  unfold new_dict at 1. unfold bind at 1.
  set (s2 := s1 ++ [rowspan 1]).
  assert (length s1 = S n) as Hlen1 by (unfold s1; rewrite length_app; simpl; lia).
  assert (s2 !! n = Some []) as Hn2.
  { unfold s2. rewrite lookup_old by lia. unfold s1, n. apply lookup_new. }
  rewrite (bind_ok _ _ _ _ _ (setitem_ref _ _ _ _ _ Hn2)).
  cbn [Dict.set].
  set (e1 := [("portfolio_total"%string, VTuple (VDec pt) (VRef (length s1)))]).
  set (s3 := <[n := e1]> s2).
  assert (length s3 = S (S n)) as Hlen3.
  { unfold s3. etrans; [apply length_insert|]. unfold s2.
    rewrite length_app. simpl. lia. }
  assert (forall x, (x < n)%nat -> s3 !! x = s !! x) as Hold3.
  { intros x Hx. unfold s3. etrans; [apply list_lookup_insert_ne; lia|].
    unfold s2. rewrite lookup_old by lia. unfold s1. now apply lookup_old. }
  assert (s3 !! n = Some e1) as Hn3.
  { unfold s3. apply list_lookup_insert_eq. unfold s2.
    rewrite length_app. simpl. lia. }
  (* the group column *)
  assert (s3 !! l = Some vs0) as Hl3 by (rewrite Hold3; auto).
  rewrite (bind_ok _ _ _ _ _ (getitem_ref _ _ _ _ _ Hl3 Hgetac)).
  assert (own s3 (VRef lc) (PDict classes) Fs) as Hsub3.
  { eapply own_frame; [exact Hownsub|]. intros x Hx. apply Hold3.
    apply Hb. clear - Hx HsubF. set_solver. }
  destruct (rows_call class_columns s3 lc classes Fs out
              (rows_loop_spec class_columns class_columns 0) Hsub3 Hflat)
    as (s4 & Gi & vsc & Hrun4 & Hinv4 & Hev4 & _).
  unfold insert_rowspans_rows.
  rewrite (bind_ok _ _ _ _ _ Hrun4).
  destruct Hev4 as (Hlen4 & Hframe4 & Hgrow4).
  destruct Hinv4 as (_ & _ & Hin4 & _).
  assert (forall x, x ∈ Fs -> (x < n)%nat) as HbS.
  { intros x Hx. apply Hb. clear - Hx HsubF. set_solver. }
  assert (forall x, (n <= x <= S n)%nat -> x ∉ Gi) as HnGi.
  { intros x Hx H. apply Hgrow4 in H as [H|H]; [apply HbS in H|]; lia. }
  assert (s4 !! n = Some e1) as Hn4.
  { rewrite Hframe4; [exact Hn3 | lia |]. intros H. apply HbS in H. lia. }
  rewrite (bind_ok _ _ _ _ _ (setitem_ref _ _ _ _ _ Hn4)).
  unfold e1 at 1. cbn [Dict.set String.eqb Ascii.eqb Bool.eqb].
  set (e2 := [("portfolio_total"%string, VTuple (VDec pt) (VRef (length s1)));
              ("asset_classes"%string, VRef (length s3))]).
  set (s5 := <[n := e2]> s4).
  assert (forall x, x <> n -> s5 !! x = s4 !! x) as Hframe5.
  { intros x Hx. unfold s5. apply list_lookup_insert_ne. congruence. }
  assert (own s5 (VRef (length s3)) (PDict out) Gi) as Hin5.
  { eapply own_frame; [exact Hin4|]. intros x Hx. apply Hframe5.
    intros ->. apply (HnGi n); [lia | exact Hx]. }
  inversion Hin5 as [| | | | |li vsi ? Fi Hli Hndi Hownsi HliF]; subst.
  rewrite (bind_ok _ _ _ _ _ (values_ref _ _ _ Hli)).
  rewrite (bind_ok _ _ _ _ _ (sum_rowspans_spec _ _ _ _ Hownsi _ _ Hsum)).
  set (Gi := {[length s3]} ∪ Fi) in *.
  (* the span of the first column *)
  cbn [for_each]. cbv beta. cbn [fst]. unfold bind at 1.
  assert (s5 !! n = Some e2) as Hn5.
  { unfold s5. apply list_lookup_insert_eq. unfold Dict.t in *. lia. }
  assert (Dict.get "portfolio_total" e2
          = Some (VTuple (VDec pt) (VRef (length s1)))) as Hget5 by reflexivity.
  rewrite (bind_ok _ _ _ _ _ (getitem_ref _ _ _ _ _ Hn5 Hget5)).
  cbn [index]. unfold bind at 1. cbn [ret].
  unfold new_dict at 1. unfold bind at 1.
  set (s6 := s5 ++ [rowspan rowsum]).
  assert (length s5 = length s4) as Hlen5 by (unfold s5; apply length_insert).
  assert (s6 !! n = Some e2) as Hn6 by (unfold s6; rewrite lookup_old; [auto|lia]).
  rewrite (setitem_ref _ _ _ _ _ Hn6).
  unfold e2 at 1. cbn [Dict.set String.eqb Ascii.eqb Bool.eqb].
  set (e3 := [("portfolio_total"%string, VTuple (VDec pt) (VRef (length s5)));
              ("asset_classes"%string, VRef (length s3))]).
  set (s7 := <[n := e3]> s6).
  assert (forall x, (x < length s5)%nat -> x <> n -> s7 !! x = s5 !! x) as Hframe7.
  { intros x Hx Hne. unfold s7. etrans; [apply list_lookup_insert_ne; congruence|].
    unfold s6. now apply lookup_old. }
  assert (forall x, x ∈ Gi -> (x < length s5)%nat) as HbGi
    by (eapply own_bound; eauto).
  cbn [ret]. unfold bind. cbn [ret].
  exists s7, ({[n]} ∪ ((∅ ∪ {[length s5]}) ∪ (Gi ∪ ∅))).
  split; [reflexivity|]. split.
  - apply own_ref with (vs := e3).
    + unfold s7. apply list_lookup_insert_eq. unfold s6.
      rewrite length_app. simpl. lia.
    + apply (bool_decide_unpack _). vm_compute. exact I.
    + unfold e3. constructor.
      * constructor; [constructor| |clear; set_solver].
        eapply own_frame; [apply (own_span s5 rowsum)|].
        intros x Hx. apply elem_of_singleton in Hx. subst x.
        unfold s7. apply list_lookup_insert_ne. lia.
      * constructor; [|constructor|clear; set_solver].
        eapply own_frame; [exact Hin5|]. intros x Hx. apply Hframe7.
        -- now apply HbGi.
        -- intros ->. apply (HnGi n); [lia | exact Hx].
      * apply elem_of_disjoint. intros x Hx1 Hx2.
        assert (x = length s5) by (clear - Hx1; set_solver). subst x.
        assert (length s5 ∈ Gi) as H5 by (clear - Hx2; set_solver).
        apply HbGi in H5. lia.
    + intros H.
      assert (n = length s5 \/ n ∈ Gi) as [E|E]
        by (clear - H; set_solver).
      * lia.
      * apply (HnGi n); [lia | exact E].
  - split; [|split].
    + assert (length s7 = S (length s5)) as Hlen7.
      { unfold s7. etrans; [apply length_insert|]. unfold s6.
        rewrite length_app. simpl. lia. }
      unfold n in *. lia.
    + intros x Hx HF. fold n in Hx.
      rewrite Hframe7; [|lia|lia]. rewrite Hframe5 by lia.
      rewrite Hframe4; [now apply Hold3 | lia |].
      intros H. apply HF. clear - H HsubF. set_solver.
    + intros x Hx. fold n.
      assert (x = n \/ x = length s5 \/ x ∈ Gi) as [E|[E|E]]
        by (clear - Hx; set_solver).
      * right. lia.
      * right. lia.
      * apply Hgrow4 in E as [E|E]; [left|right; lia].
        clear - E HsubF. set_solver.
Qed.

End Start.

(** ** The tree of [_portfolio_data] in the store *)

Lemma distinct_filled t : distinct_keys t -> distinct_keys (filled t).
Proof.
  intros [H1 H2]. unfold filled. split; cbn [asset_classes].
  - now rewrite keys_map.
  - apply Forall_fmap. eapply Forall_impl; [exact H2|].
    intros [c cls] [G1 G2]. unfold filled_class.
    split; cbn [snd asset_subclasses] in *.
    + now rewrite keys_map.
    + apply Forall_fmap. eapply Forall_impl; [exact G2|].
      intros [s sd] Hsd. unfold distinct_subclass, filled_subclass, compose in *.
      cbn [snd accounts] in *.
      now rewrite (keys_map (filled_account _ _ _)).
Qed.

Lemma allocated_filled t : allocated (filled t).
Proof.
  unfold allocated, filled. cbn. apply Forall_fmap, Forall_forall.
  intros [c cls] _. unfold allocated_class. cbn. apply Forall_fmap, Forall_forall.
  intros [s sd] _. split; cbn; [eauto|]. apply Forall_fmap, Forall_forall.
  intros [a rec] _. repeat split; cbn; eauto.
Qed.

Lemma portfolio_data_tree L cd nodes date t tys errors :
  _portfolio_data L cd nodes date = ok (t, tys, errors) ->
  tys = types /\ distinct_keys t /\ allocated t.
Proof.
  intros Hrun.
  destruct (portfolio_data_ok _ _ _ _ _ _ _ Hrun)
    as (op & ops & t1 & _ & _ & -> & -> & _ & Hd).
  split; [reflexivity|]. split.
  - now apply distinct_filled.
  - apply allocated_filled.
Qed.

Section Layout.

Lemma wf_opt_dec (o : option Decimal) : wf (opt_dec o).
Proof. destruct o; exact I. Qed.

Lemma wf_opt_date (o : option Z) : wf (opt_date o).
Proof. destruct o; exact I. Qed.

Lemma wf_account (a : account_data) : wf (account_pval a).
Proof.
  destruct a as [v igl glp lpd [pa|] [ca|] [sa|]]; apply wf_dict; split;
    try (apply (bool_decide_unpack _); vm_compute; exact I);
    unfold wf_entries;
    repeat (apply Forall_cons; split;
            [first [exact I | apply wf_opt_dec | apply wf_opt_date]|]);
    apply Forall_nil_2.
Qed.

Lemma wf_mapped {A} (f : A -> pval) (d : Dict.t A) :
  NoDup (Dict.keys d) -> Forall (fun kv => wf (f (snd kv))) d ->
  wf (PDict (map (fun kv => (fst kv, f (snd kv))) d)).
Proof.
  intros Hnd Hall. apply wf_dict. split.
  - now rewrite keys_map.
  - unfold wf_entries. apply Forall_fmap. exact Hall.
Qed.

Lemma wf_subclass (sd : subclass_dict) : distinct_subclass sd -> wf (subclass_pval sd).
Proof.
  intros Hd.
  assert (wf (PDict (map (fun kv => (fst kv, account_pval (snd kv))) (accounts sd))))
    as Hacc.
  { apply wf_mapped; [exact Hd|]. apply Forall_forall. intros kv _. apply wf_account. }
  destruct sd as [total pa saca accs [late|]]; apply wf_dict; split;
    try (apply (bool_decide_unpack _); vm_compute; exact I);
    unfold wf_entries;
    repeat (apply Forall_cons; split; [first [exact I | exact Hacc]|]);
    apply Forall_nil_2.
Qed.

Lemma wf_class (cls : class_dict) : distinct_class cls -> wf (class_pval cls).
Proof.
  intros [Hnd Hall]. apply wf_dict. split.
  - apply (bool_decide_unpack _). vm_compute. exact I.
  - assert (wf (PDict (map (fun kv => (fst kv, subclass_pval (snd kv)))
                         (asset_subclasses cls)))) as Hsub.
    { apply wf_mapped; [exact Hnd|].
      eapply Forall_impl; [exact Hall|]. intros [s sd]. apply wf_subclass. }
    unfold wf_entries.
    repeat (apply Forall_cons; split; [first [exact I | exact Hsub]|]).
    apply Forall_nil_2.
Qed.

Lemma wf_tree (t : portfolio_tree) : distinct_keys t -> wf (tree_pval t).
Proof.
  intros [Hnd Hall]. apply wf_dict. split.
  - apply (bool_decide_unpack _). vm_compute. exact I.
  - assert (wf (PDict (map (fun kv => (fst kv, class_pval (snd kv)))
                         (asset_classes t)))) as Hcls.
    { apply wf_mapped; [exact Hnd|].
      eapply Forall_impl; [exact Hall|]. intros [c cls]. apply wf_class. }
    unfold wf_entries.
    repeat (apply Forall_cons; split; [first [exact I | exact Hcls]|]).
    apply Forall_nil_2.
Qed.

End Layout.

(** ** The table of a view *)

(** The table of a tree [_portfolio_data] has returned. *)
Lemma portfolio_table
  (L : Ledger) (cd : Dict.t (Dict.t string)) (nodes : list TreeNode)
  (date : option Z) (t : portfolio_tree) (tys : list coltype)
  (errors : list string) (s : store) :
  _portfolio_data L cd nodes date = ok (t, tys, errors) ->
  exists s' table G,
    (data <- alloc (tree_pval t) ; insert_rowspans data tys true) s
      = (ok table, s') /\
    own s' table (flat_tree t) G /\
    (forall x, (x < length s)%nat -> s' !! x = s !! x) /\
    (forall x, x ∈ G -> (length s <= x)%nat).
Proof.
  intros Hdata.
  destruct (portfolio_data_tree _ _ _ _ _ _ _ Hdata) as (-> & Hdist & Halloc).
  destruct (alloc_spec (tree_pval t) s (wf_tree t Hdist))
    as (s1 & data & F & Hrun1 & Hown1 & [[ext ->] HF]).
  rewrite (bind_ok _ _ _ _ _ Hrun1).
  destruct (own_dict_ref _ _ _ _ Hown1) as [l ->].
  destruct (start_spec (s ++ ext) l _ F (portfolio_total t)
              (map (fun kv => (fst kv, class_pval (snd kv))) (asset_classes t))
              (map (fun kv => (fst kv, flat_class (snd kv))) (asset_classes t))
              (tree_rows t) Hown1 eq_refl eq_refl)
    as (s2 & G & Hrun2 & Hown2 & Hlen & Hframe & Hgrow).
  - now apply flat_classes.
  - apply span_sum_classes.
  - exists s2, (VRef (length (s ++ ext))), G. split; [exact Hrun2|].
    split; [exact Hown2|]. split.
    + intros x Hx. rewrite Hframe.
      * now apply lookup_app_l.
      * rewrite length_app. lia.
      * intros H. apply HF in H. lia.
    + intros x Hx. apply Hgrow in Hx as [Hx|Hx].
      * now apply HF.
      * rewrite length_app in Hx. lia.
Qed.



(** What a view computes before its table is flattened. *)
Definition view_info (L : Ledger) (commodity_dict : Dict.t (Dict.t string))
  (tree : Dict.t TreeNode) (end_ : option Z) (option : config_option)
  : result portfolio_info :=
  if String.eqb (fst option) "account_name_pattern" then
    pattern <-? arg_pattern (snd option) ;
    _account_name_pattern L commodity_dict tree end_ pattern
  else if String.eqb (fst option) "account_open_metadata_pattern" then
    '(metadata_key, pattern) <-? arg_pair (snd option) ;
    _account_metadata_pattern L commodity_dict tree end_ metadata_key pattern
  else raise FavaAPIError.

Lemma view_info_data L cd tree end_ option title subtitle data :
  view_info L cd tree end_ option = ok (title, subtitle, data) ->
  exists nodes, _portfolio_data L cd nodes end_ = ok data.
Proof.
  unfold view_info.
  destruct (String.eqb (fst option) "account_name_pattern").
  - destruct (arg_pattern (snd option)) as [x|pattern]; [discriminate|].
    cbn [rbind]. unfold _account_name_pattern.
    destruct (regex L pattern) as [x|regexer]; [discriminate|]. cbn [rbind].
    destruct (select_nodes tree _) as [x|nodes]; [discriminate|]. cbn [rbind].
    destruct (_portfolio_data L cd nodes end_) as [x|pd] eqn:E; [discriminate|].
    cbn [rbind]. inversion 1; subst. eauto.
  - destruct (String.eqb (fst option) "account_open_metadata_pattern");
      [|discriminate].
    destruct (arg_pair (snd option)) as [x|[key pattern]]; [discriminate|].
    cbn [rbind]. unfold _account_metadata_pattern.
    destruct (regex L pattern) as [x|regexer]; [discriminate|]. cbn [rbind].
    destruct (select_by_metadata regexer key (all_entries_Open L) [])
      as [x|selected]; [discriminate|]. cbn [rbind].
    destruct (select_nodes tree _) as [x|nodes]; [discriminate|]. cbn [rbind].
    destruct (_portfolio_data L cd nodes end_) as [x|pd] eqn:E; [discriminate|].
    cbn [rbind]. inversion 1; subst. eauto.
Qed.

(** X16: a view fails only before its table is flattened: whenever the
    selection and [_portfolio_data] succeed, the body of the loop of
    [portfolio_accounts] returns the title, the subtitle and, with the
    thirteen column types, the table [flat_tree] of the tree; it raises
    exactly what the selection or [_portfolio_data] raises, and then
    allocates nothing. *)
Theorem view_fails_only_before_flattening
  (L : Ledger) (cd : Dict.t (Dict.t string)) (tree : Dict.t TreeNode)
  (end_ : option Z) (option : config_option) (s : store) :
  match view_info L cd tree end_ option with
  | inl x => portfolio_of_option L cd tree end_ option s = (raise x, s)
  | inr (title, subtitle, (t, tys, errors)) =>
      exists s' table G,
        portfolio_of_option L cd tree end_ option s
          = (ok (title, subtitle, (table, types)), s') /\
        own s' table (flat_tree t) G /\
        (forall x, (x < length s)%nat -> s' !! x = s !! x)
  end.
Proof.
  unfold portfolio_of_option. fold (view_info L cd tree end_ option).
  unfold lift at 1. unfold bind at 1.
  destruct (view_info L cd tree end_ option)
    as [x|[[title subtitle] [[t tys] errors]]] eqn:E; [reflexivity|].
  destruct (view_info_data _ _ _ _ _ _ _ _ E) as [nodes Hdata].
  destruct (portfolio_table L cd nodes end_ t tys errors s Hdata)
    as (s' & table & G & Hrun & Hown & Hframe & _).
  destruct (portfolio_data_tree _ _ _ _ _ _ _ Hdata) as (-> & _).
  exists s', table, G. split; [|split; [exact Hown | exact Hframe]].
  unfold lift, bind in *. cbn [ret].
  destruct (alloc (tree_pval t) s) as [[x|data] s1]; [discriminate|].
  destruct (insert_rowspans data types true s1) as [[x|tb] s2]; [discriminate|].
  now inversion Hrun.
Qed.
